(** * Rehearsal: audio codec, playback scheduler, transcript reconciler and
      conversation life cycle

    A shallow embedding of the audio/session core of the Rehearsal
    application (the React component [App] and the helpers of
    [services/geminiService]) together with the properties its
    specification states about it. *)

From Stdlib Require Import ZArith QArith Qround Qabs Qpower Ascii Lia Lqa.
From stdpp Require Import base list strings.

Local Open Scope Z_scope.

(** ** Data model ([types.ts]) *)

Inductive ConversationStatus : Type :=
  | Idle | Generating | Briefing | Ready | Active
  | Summarizing | PausedForFeedback | Error.

Inductive Speaker : Type := user | npc.

Definition Speaker_eqb (a b : Speaker) : bool :=
  match a, b with
  | user, user | npc, npc => true
  | _, _ => false
  end.

(** [interface Transcript]; the optional [imageUrl] is an [option]. *)
Record Transcript : Type := mkTranscript {
  speaker : Speaker;
  text : string;
  isFinal : bool;
  imageUrl : option string
}.

(** ** Transcript reconciler (callbacks handed to [startConversation]) *)

Module Reconciler.

(** [{ ...lastEntry, text: lastEntry.text + newTranscript.text }] *)
Definition extend (lastEntry newTranscript : Transcript) : Transcript :=
  {| speaker := speaker lastEntry;
     text := text lastEntry +:+ text newTranscript;
     isFinal := isFinal lastEntry;
     imageUrl := imageUrl lastEntry |}.

(** The updater that [onTranscriptUpdate] passes to [setTranscript]:
    [updated] is a copy of [prev]; its last slot is overwritten when the
    last entry has the speaker of the fragment and is not final, and the
    fragment is pushed otherwise. *)
Definition onTranscriptUpdate (newTranscript : Transcript)
    (prev : list Transcript) : list Transcript :=
  let updated := prev in
  let lastEntry :=
    if (0 <? length updated)%nat then updated !! (length updated - 1)%nat
    else None in
  match lastEntry with
  | Some lastEntry =>
      if Speaker_eqb (speaker lastEntry) (speaker newTranscript)
         && negb (isFinal lastEntry)
      then <[(length updated - 1)%nat := extend lastEntry newTranscript]> updated
      else updated ++ [newTranscript]
  | None => updated ++ [newTranscript]
  end.

(** [t => ({ ...t, isFinal: true })] *)
Definition finalize (t : Transcript) : Transcript :=
  {| speaker := speaker t;
     text := text t;
     isFinal := true;
     imageUrl := imageUrl t |}.

(** The updater of [onTurnComplete]: [prev.map(t => ({...t, isFinal: true}))]. *)
Definition onTurnComplete (prev : list Transcript) : list Transcript :=
  map finalize prev.

(** Fragments delivered one after the other, in arrival order. *)
Definition applyFragments (fragments : list Transcript)
    (prev : list Transcript) : list Transcript :=
  foldl (fun acc f => onTranscriptUpdate f acc) prev fragments.

(** The last entry is absent, final, or spoken by somebody else than [s]. *)
Definition closedFor (s : Speaker) (prev : list Transcript) : Prop :=
  match last prev with
  | None => True
  | Some e => isFinal e = true \/ speaker e <> s
  end.

(** A partial fragment of speaker [s], as [onmessage] builds them. *)
Definition partialOf (s : Speaker) (f : Transcript) : Prop :=
  speaker f = s /\ isFinal f = false.

Definition concatTexts (fragments : list Transcript) : string :=
  foldr (fun f acc => text f +:+ acc) "" fragments.

End Reconciler.


(** ** Double-precision numbers (the JavaScript [number] of the clock) *)

Module Binary64.
Local Open Scope Q_scope.

(** The times of the playback clock are JavaScript numbers, that is IEEE 754
    binary64 values, and [+=] on them rounds its exact result to the nearest
    such value, ties to the even significand. They are kept as rationals: a
    binary64 number is a rational [m * 2^q] with [|m| <= 2^53] and
    [q >= -1074]. Magnitudes of [2^1024] and more stand for the infinities:
    rounding is monotone, so a result overflows exactly when its rounding
    with an unbounded exponent reaches [2^1024], and neither [Math.max] nor
    [+=] with a finite operand brings such a value back below. *)

Definition pow2 (e : Z) : Q := 2 ^ e.

(** For [x > 0], the exponent [e] with [2^e <= x < 2^(e+1)]. *)
Definition ilog2 (x : Q) : Z :=
  let e := (Z.log2 (Qnum x) - Z.log2 (Zpos (Qden x)))%Z in
  if Qle_bool (pow2 e) x then e else (e - 1)%Z.

(** The integer nearest to [z], the even one of the two when [z] lies half
    way. *)
Definition nearest_even (z : Q) : Z :=
  let f := Qfloor z in
  match Qcompare (z - inject_Z f) (1 # 2) with
  | Lt => f
  | Gt => (f + 1)%Z
  | Eq => if Z.even f then f else (f + 1)%Z
  end.

(** The multiple of [2^q] nearest to [x]. *)
Definition round_at (q : Z) (x : Q) : Q :=
  inject_Z (nearest_even (x / pow2 q)) * pow2 q.

(** The spacing of the binary64 numbers around [x > 0]: 53 significant bits
    in the normal range, [2^-1074] below it. *)
Definition quantum (x : Q) : Z := Z.max (ilog2 x - 52) (-1074).

(** Rounding to binary64. *)
Definition binary64 (x : Q) : Q :=
  match Qcompare x 0 with
  | Eq => 0
  | Gt => round_at (quantum x) x
  | Lt => - round_at (quantum (- x)) (- x)
  end.

(** [x] is a binary64 number. *)
Definition is_binary64 (x : Q) : Prop := binary64 x == x.

Definition multiple (q : Z) (y : Q) : Prop :=
  exists k : Z, y == inject_Z k * pow2 q.

End Binary64.

(** ** Audio codec ([createBlob], [encode], [decode], [decodeAudioData]) *)

Module Codec.

(** A JavaScript number as it is read from a [Float32Array] or handed to a
    typed array. Finite values are kept as exact rationals: every product and
    quotient the codec forms (a binary32 value times [32768], a 16-bit integer
    over [32768.0]) is a scaling by a power of two well inside the binary64
    range, so the floating-point result is the exact one. *)
Inductive Number : Type :=
  | Finite (q : Q)
  | Infinite (negative : bool)
  | NaN.

(** [x * 32768] *)
Definition times (x : Number) (k : Z) : Number :=
  match x with
  | Finite q => Finite (q * inject_Z k)
  | other => other
  end.

(** [x / 32768.0] for an integer [x] *)
Definition over (x : Z) (k : positive) : Number := Finite (x # k).

(** Truncation toward zero, the first step of every integer conversion. *)
Definition Qtruncate (q : Q) : Z := Z.quot (Qnum q) (Zpos (Qden q)).

(** Reduction of an integer modulo 2^16 into the signed 16-bit range. *)
Definition wrap16 (n : Z) : Z :=
  let int16bit := n mod 65536 in
  if 32768 <=? int16bit then int16bit - 65536 else int16bit.

Definition is_byte (b : Z) : Prop := 0 <= b < 256.
Definition is_int16 (v : Z) : Prop := -32768 <= v < 32768.
Definition is_sextet (n : Z) : Prop := 0 <= n < 64.

(** [t] is [y] rounded toward zero: no larger in magnitude, less than one
    away. *)
Definition truncation_of (y : Q) (t : Z) : Prop :=
  (Qabs (inject_Z t) <= Qabs y)%Q /\ (Qabs (y - inject_Z t) < 1)%Q.

(** ECMAScript [ToInt16], applied by a store into an [Int16Array]:
    non-finite numbers give 0; finite ones are truncated and wrapped. *)
Definition ToInt16 (x : Number) : Z :=
  match x with
  | Finite q => wrap16 (Qtruncate q)
  | Infinite _ | NaN => 0
  end.

(** The two bytes of a 16-bit element as a [Uint8Array] over the same buffer
    sees them (little-endian host). *)
Definition int16_bytes (v : Z) : list Z :=
  let u := v mod 65536 in [u mod 256; u / 256].

(** [new Uint8Array(int16.buffer)] *)
Definition Uint8Array_of_Int16Array (int16 : list Z) : list Z :=
  flat_map int16_bytes int16.

(** [new Int16Array(data.buffer)] for a buffer of even length: consecutive
    byte pairs, low byte first. *)
Fixpoint Int16Array_of_bytes (data : list Z) : list Z :=
  match data with
  | lo :: hi :: rest => wrap16 (lo + 256 * hi) :: Int16Array_of_bytes rest
  | _ => []
  end.

(** *** Base64 ([btoa], [atob]) *)

Definition alphabet : list ascii :=
  String.list_ascii_of_string
    "ABCDEFGHIJKLMNOPQRSTUVWXYZabcdefghijklmnopqrstuvwxyz0123456789+/".

Definition pad : ascii := "="%char.

Definition sextet_char (n : Z) : ascii := nth (Z.to_nat n) alphabet pad.

Fixpoint index_of (c : ascii) (l : list ascii) : option Z :=
  match l with
  | [] => None
  | d :: l' => if Ascii.eqb c d then Some 0 else Z.succ <$> index_of c l'
  end.

Definition char_sextet (c : ascii) : option Z := index_of c alphabet.

(** Three bytes become four 6-bit groups; a tail of one or two bytes becomes
    two or three groups, zero-filled. *)
Fixpoint sextets (bytes : list Z) : list Z :=
  match bytes with
  | a :: b :: c :: rest =>
      a / 4 :: (a mod 4) * 16 + b / 16 :: (b mod 16) * 4 + c / 64 :: c mod 64
        :: sextets rest
  | [a; b] => [a / 4; (a mod 4) * 16 + b / 16; (b mod 16) * 4]
  | [a] => [a / 4; (a mod 4) * 16]
  | [] => []
  end.

Definition padding (len : nat) : list ascii :=
  match (len mod 3)%nat with
  | 1%nat => [pad; pad]
  | 2%nat => [pad]
  | _ => []
  end.

(** [btoa] on a binary string given by its character codes (all below 256
    when they come from a [Uint8Array]). *)
Definition btoa (binary : list Z) : string :=
  String.string_of_list_ascii
    (map sextet_char (sextets binary) ++ padding (length binary)).

(** ASCII whitespace: TAB, LF, FF, CR, SPACE. *)
Definition is_whitespace (c : ascii) : bool :=
  let n := nat_of_ascii c in
  (n =? 9)%nat || (n =? 10)%nat || (n =? 12)%nat || (n =? 13)%nat
  || (n =? 32)%nat.

Definition strip_padding (cs : list ascii) : list ascii :=
  if (length cs mod 4 =? 0)%nat then
    match rev cs with
    | p :: q :: r =>
        if Ascii.eqb p pad then
          if Ascii.eqb q pad then rev r else rev (q :: r)
        else cs
    | [p] => if Ascii.eqb p pad then [] else cs
    | [] => cs
    end
  else cs.

Fixpoint sextets_to_bytes (sx : list Z) : list Z :=
  match sx with
  | a :: b :: c :: d :: rest =>
      a * 4 + b / 16 :: (b mod 16) * 16 + c / 4 :: (c mod 4) * 64 + d
        :: sextets_to_bytes rest
  | [a; b; c] => [a * 4 + b / 16; (b mod 16) * 16 + c / 4]
  | [a; b] => [a * 4 + b / 16]
  | _ => []
  end.

(** [atob], the forgiving base64 decoder of browsers: whitespace is dropped,
    one or two trailing [=] are dropped when the length is a multiple of 4, a
    length of 1 modulo 4 or a character outside the alphabet is an
    [InvalidCharacterError] ([None]); left-over bits are discarded. *)
Definition atob (data : string) : option (list Z) :=
  let cs := filter (fun c => negb (is_whitespace c)) (String.list_ascii_of_string data) in
  let cs := strip_padding cs in
  if (length cs mod 4 =? 1)%nat then None
  else sextets_to_bytes <$> mapM char_sextet cs.

(** [encode] of [geminiService]: the bytes become a binary string, one
    character per byte, which [btoa] encodes. *)
Definition encode (bytes : list Z) : string := btoa bytes.

(** [decode] of [App]: [atob], then the character codes as bytes. *)
Definition decode (base64 : string) : option (list Z) := atob base64.

Record Blob : Type := mkBlob { data : string; mimeType : string }.

(** The loop of [createBlob]: [int16[i] = data[i] * 32768]. *)
Definition quantize (sample : Number) : Z := ToInt16 (times sample 32768).

Definition createBlob (samples : list Number) : Blob :=
  let int16 := map quantize samples in
  {| data := encode (Uint8Array_of_Int16Array int16);
     mimeType := "audio/pcm;rate=16000" |}.

(** An [AudioBuffer]: one list of samples per channel. *)
Record AudioBuffer : Type := mkAudioBuffer {
  numberOfChannels : nat;
  frames : nat;
  sampleRate : positive;
  channelData : list (list Number)
}.

(** [audioBuffer.duration], in seconds: the length divided by the sample
    rate, as a double. *)
Definition duration (b : AudioBuffer) : Q :=
  Binary64.binary64 (Z.of_nat (frames b) # sampleRate b).

(** [decodeAudioData]. [None] stands for the exceptions of the platform: a
    [RangeError] of [new Int16Array] on a buffer of odd length, and the
    [NotSupportedError] of [createBuffer] for zero channels or zero frames.
    [createBuffer] also refuses a number of channels or a sample rate beyond
    what the platform supports, which depends on the platform and is left
    out: the application asks for one channel at 24000 Hz.
    When [numChannels] does not divide the number of samples the surplus
    iteration of the source writes outside the channel and is ignored, which
    the rounded-down [frameCount] accounts for. *)
Definition decodeAudioData (bytes : list Z) (rate : positive)
    (numChannels : nat) : option AudioBuffer :=
  if Nat.odd (length bytes) then None
  else
    let dataInt16 := Int16Array_of_bytes bytes in
    let frameCount := (length dataInt16 / numChannels)%nat in
    if (numChannels =? 0)%nat || (frameCount =? 0)%nat then None
    else
      Some {| numberOfChannels := numChannels;
              frames := frameCount;
              sampleRate := rate;
              channelData :=
                map (fun channel =>
                       map (fun i =>
                              over (nth (i * numChannels + channel) dataInt16 0)
                                   32768)
                           (seq 0 frameCount))
                    (seq 0 numChannels) |}.

(** For comparison, the quantizer in the words of the specification:
    [round(sample * 32768)] (nearest integer, halves upward as [Math.round]
    does) in its 16-bit representation. *)
Definition round_half_up (q : Q) : Z := Qfloor (q + (1 # 2)).

Definition spec_quantize (sample : Q) : Z :=
  wrap16 (round_half_up (sample * inject_Z 32768)).

End Codec.

(** ** The component [App]: state, refs and external calls *)

Module App.
Import Codec.

Inductive Gender : Type := male | female | neutral_gender.
Inductive Level : Type := low | medium | high.
Inductive Accent : Type := local_accent | neutral_accent | heavy.

Record NpcProfile : Type := mkNpcProfile {
  name : string;
  gender : Gender;
  voice : string;
  languages_primary : string;
  languages_secondary : option string;
  fluencyPrimary : Level;
  fluencySecondary : option Level;
  patience : Level;
  helpfulness : Level;
  accent : Accent;
  quirk : string
}.

Record Scenario : Type := mkScenario {
  locationName : string;
  locationType : string;
  task : string;
  npcProfile : NpcProfile;
  sceneDescription : string;
  conversationStarter : Speaker;
  openingLine : option string
}.

Record ConversationResult : Type := mkConversationResult {
  summary : string;
  tips : list string;
  taskComplete : bool;
  suggestedContinuation : option string;
  suggestedContinuationExplanation : option string
}.

Record StudyCardEntry : Type := mkStudyCardEntry {
  term : string;
  translation : string
}.

Record StudyCardHint : Type := mkStudyCardHint {
  vocabulary : list StudyCardEntry;
  phrases : list StudyCardEntry
}.

(** The values kept with [useState] that the modelled handlers touch. *)
Record AppState : Type := mkAppState {
  status : ConversationStatus;
  scenario : option Scenario;
  transcript : list Transcript;
  result : option ConversationResult;
  error : option string;
  isNpcSpeaking : bool;
  isRecording : bool;
  studyCardHint : option StudyCardHint
}.

Inductive AudioContextState : Type := suspended | running | closed.

Inductive Direction : Type := Input | Output.

Record AudioContext : Type := mkAudioContext {
  direction : Direction;
  contextSampleRate : positive;
  contextState : AudioContextState
}.

(** An [AudioBufferSourceNode]: objects are told apart by [token], the
    number of nodes created before this one. *)
Record SourceNode : Type := mkSourceNode {
  token : nat;
  buffer : AudioBuffer
}.

(** A [MediaStream] is the list of its tracks. *)
Definition MediaStream : Type := list nat.

Record StreetView : Type := mkStreetView { visible : bool }.

(** The values kept with [useRef]. [audioSourcesRef] is a JavaScript [Set],
    kept in insertion order, the order in which [forEach] visits it. *)
Record Refs : Type := mkRefs {
  streetViewInstance : option StreetView;
  liveSessionRef : option nat;
  inputAudioContextRef : option AudioContext;
  outputAudioContextRef : option AudioContext;
  nextStartTimeRef : Q;
  scriptProcessorRef : option nat;
  localStreamRef : option MediaStream;
  mediaStreamSourceRef : option nat;
  audioSourcesRef : list SourceNode
}.

Record World : Type := mkWorld {
  state : AppState;
  refs : Refs;
  created : nat  (* source nodes created so far *)
}.

(** Initial values of the hooks. *)
Definition initialState : AppState :=
  {| status := Idle; scenario := None; transcript := []; result := None;
     error := None; isNpcSpeaking := false; isRecording := false;
     studyCardHint := None |}.

Definition initialRefs : Refs :=
  {| streetViewInstance := None; liveSessionRef := None;
     inputAudioContextRef := None; outputAudioContextRef := None;
     nextStartTimeRef := 0; scriptProcessorRef := None;
     localStreamRef := None; mediaStreamSourceRef := None;
     audioSourcesRef := [] |}.

Definition initialWorld : World :=
  {| state := initialState; refs := initialRefs; created := 0 |}.

(** *** Field updates *)

Definition with_state (f : AppState -> AppState) (w : World) : World :=
  {| state := f (state w); refs := refs w; created := created w |}.

Definition with_refs (f : Refs -> Refs) (w : World) : World :=
  {| state := state w; refs := f (refs w); created := created w |}.

Definition set_status v (s : AppState) : AppState :=
  mkAppState v (scenario s) (transcript s) (result s) (error s)
    (isNpcSpeaking s) (isRecording s) (studyCardHint s).
Definition set_scenario v (s : AppState) : AppState :=
  mkAppState (status s) v (transcript s) (result s) (error s)
    (isNpcSpeaking s) (isRecording s) (studyCardHint s).
Definition set_transcript v (s : AppState) : AppState :=
  mkAppState (status s) (scenario s) v (result s) (error s)
    (isNpcSpeaking s) (isRecording s) (studyCardHint s).
Definition set_result v (s : AppState) : AppState :=
  mkAppState (status s) (scenario s) (transcript s) v (error s)
    (isNpcSpeaking s) (isRecording s) (studyCardHint s).
Definition set_error v (s : AppState) : AppState :=
  mkAppState (status s) (scenario s) (transcript s) (result s) v
    (isNpcSpeaking s) (isRecording s) (studyCardHint s).
Definition set_isNpcSpeaking v (s : AppState) : AppState :=
  mkAppState (status s) (scenario s) (transcript s) (result s) (error s)
    v (isRecording s) (studyCardHint s).
Definition set_isRecording v (s : AppState) : AppState :=
  mkAppState (status s) (scenario s) (transcript s) (result s) (error s)
    (isNpcSpeaking s) v (studyCardHint s).
Definition set_studyCardHint v (s : AppState) : AppState :=
  mkAppState (status s) (scenario s) (transcript s) (result s) (error s)
    (isNpcSpeaking s) (isRecording s) v.

Definition set_streetViewInstance v (r : Refs) : Refs :=
  mkRefs v (liveSessionRef r) (inputAudioContextRef r)
    (outputAudioContextRef r) (nextStartTimeRef r) (scriptProcessorRef r)
    (localStreamRef r) (mediaStreamSourceRef r) (audioSourcesRef r).
Definition set_liveSessionRef v (r : Refs) : Refs :=
  mkRefs (streetViewInstance r) v (inputAudioContextRef r)
    (outputAudioContextRef r) (nextStartTimeRef r) (scriptProcessorRef r)
    (localStreamRef r) (mediaStreamSourceRef r) (audioSourcesRef r).
Definition set_inputAudioContextRef v (r : Refs) : Refs :=
  mkRefs (streetViewInstance r) (liveSessionRef r) v
    (outputAudioContextRef r) (nextStartTimeRef r) (scriptProcessorRef r)
    (localStreamRef r) (mediaStreamSourceRef r) (audioSourcesRef r).
Definition set_outputAudioContextRef v (r : Refs) : Refs :=
  mkRefs (streetViewInstance r) (liveSessionRef r) (inputAudioContextRef r)
    v (nextStartTimeRef r) (scriptProcessorRef r)
    (localStreamRef r) (mediaStreamSourceRef r) (audioSourcesRef r).
Definition set_nextStartTimeRef v (r : Refs) : Refs :=
  mkRefs (streetViewInstance r) (liveSessionRef r) (inputAudioContextRef r)
    (outputAudioContextRef r) v (scriptProcessorRef r)
    (localStreamRef r) (mediaStreamSourceRef r) (audioSourcesRef r).
Definition set_scriptProcessorRef v (r : Refs) : Refs :=
  mkRefs (streetViewInstance r) (liveSessionRef r) (inputAudioContextRef r)
    (outputAudioContextRef r) (nextStartTimeRef r) v
    (localStreamRef r) (mediaStreamSourceRef r) (audioSourcesRef r).
Definition set_localStreamRef v (r : Refs) : Refs :=
  mkRefs (streetViewInstance r) (liveSessionRef r) (inputAudioContextRef r)
    (outputAudioContextRef r) (nextStartTimeRef r) (scriptProcessorRef r)
    v (mediaStreamSourceRef r) (audioSourcesRef r).
Definition set_mediaStreamSourceRef v (r : Refs) : Refs :=
  mkRefs (streetViewInstance r) (liveSessionRef r) (inputAudioContextRef r)
    (outputAudioContextRef r) (nextStartTimeRef r) (scriptProcessorRef r)
    (localStreamRef r) v (audioSourcesRef r).
Definition set_audioSourcesRef v (r : Refs) : Refs :=
  mkRefs (streetViewInstance r) (liveSessionRef r) (inputAudioContextRef r)
    (outputAudioContextRef r) (nextStartTimeRef r) (scriptProcessorRef r)
    (localStreamRef r) (mediaStreamSourceRef r) v.

(** *** External calls *)

(** The calls the handlers make on objects outside the component, in the
    order they are made. *)
Inductive Call : Type :=
  | SessionClose (session : nat)
  | TrackStop (track : nat)
  | ProcessorDisconnect (node : nat)
  | MediaSourceDisconnect (node : nat)
  | ContextClose (d : Direction)
  | ContextResume (d : Direction)
  | SourceConnect (source : SourceNode)
  | SourceStart (source : SourceNode) (when : Q)
  | SourceStop (source : SourceNode)
  | StreetViewGetVisible
  | StreetViewSetVisible (v : bool)
  | SummarizeConversation (sc : Scenario) (tr : list Transcript)
  | GenerateSimilarScenario (sc : Scenario).

(** Which of the calls that the source guards with [try] (or awaits) fail.
    The remaining calls cannot raise: [MediaStreamTrack.stop] never does,
    [AudioContext.close], [summarizeConversation] and
    [generateSimilarScenario] return promises, a new source connects to the
    destination of its own context, and [start] is called on a node that has
    not started, with a time that the model checks itself ([startable]). *)
Definition Env : Type := Call -> bool.

Inductive Completion (A : Type) : Type :=
  | Normal (a : A)
  | Throw.
Arguments Normal {A} a.
Arguments Throw {A}.

(** A computation over the world that logs its external calls and either
    completes or raises. *)
Definition Eff (A : Type) : Type := World -> Completion A * World * list Call.

Definition ret {A} (a : A) : Eff A := fun w => (Normal a, w, []).

Definition bind {A B} (m : Eff A) (k : A -> Eff B) : Eff B :=
  fun w =>
    match m w with
    | (Normal a, w1, t1) =>
        match k a w1 with
        | (c, w2, t2) => (c, w2, t1 ++ t2)
        end
    | (Throw, w1, t1) => (Throw, w1, t1)
    end.

Declare Scope eff_scope.
Delimit Scope eff_scope with eff.
Notation "x <- m ;; k" := (bind m (fun x => k))
  (at level 100, m at next level, right associativity) : eff_scope.
Notation "m ;; k" := (bind m (fun _ => k))
  (at level 100, right associativity) : eff_scope.
Local Open Scope eff_scope.

Definition get : Eff World := fun w => (Normal w, w, []).
Definition modify (f : World -> World) : Eff unit :=
  fun w => (Normal tt, f w, []).
Definition setState (f : AppState -> AppState) : Eff unit :=
  modify (with_state f).
Definition setRef (f : Refs -> Refs) : Eff unit :=
  modify (with_refs f).

(** A call that the environment may make fail. *)
Definition call (env : Env) (c : Call) : Eff unit :=
  fun w => (if env c then Throw else Normal tt, w, [c]).

(** A call that cannot raise. *)
Definition invoke (c : Call) : Eff unit :=
  fun w => (Normal tt, w, [c]).

Definition raise {A} : Eff A := fun w => (Throw, w, []).

(** [try { m } catch (e) { console.error(...) }] *)
Definition try_catch (m : Eff unit) : Eff unit :=
  fun w =>
    match m w with
    | (Throw, w1, t1) => (Normal tt, w1, t1)
    | r => r
    end.

(** [xs.forEach(f)]: stops at the first element on which [f] raises. *)
Fixpoint forEach {A} (f : A -> Eff unit) (xs : list A) : Eff unit :=
  match xs with
  | [] => ret tt
  | x :: xs' => f x ;; forEach f xs'
  end.

Definition when (b : bool) (m : Eff unit) : Eff unit :=
  if b then m else ret tt.

(** *** Playback scheduler *)

(** [Math.max] *)
Definition max_time (a b : Q) : Q := if Qle_bool a b then b else a.

(** The times [source.start] accepts: a negative [when] raises a
    [RangeError], one that is not finite a [TypeError]. *)
Definition startable (when : Q) : bool :=
  Qle_bool 0 when && negb (Qle_bool (Binary64.pow2 1024) when).

Definition same_node (a b : SourceNode) : bool := (token a =? token b)%nat.

(** [Set.prototype.add] and [Set.prototype.delete] *)
Definition set_add (x : SourceNode) (l : list SourceNode) : list SourceNode :=
  if existsb (same_node x) l then l else l ++ [x].

Definition set_delete (x : SourceNode) (l : list SourceNode) : list SourceNode :=
  List.filter (fun y => negb (same_node x y)) l.

Definition is_closed (ctx : AudioContext) : bool :=
  match contextState ctx with closed => true | _ => false end.

Definition resumed (ctx : AudioContext) : AudioContext :=
  {| direction := direction ctx;
     contextSampleRate := contextSampleRate ctx;
     contextState := running |}.

(** [source.onended], installed by [playAudioChunk]. *)
Definition onended (source : SourceNode) : Eff unit :=
  setRef (fun r => set_audioSourcesRef (set_delete source (audioSourcesRef r)) r) ;;
  w <- get ;;
  when (length (audioSourcesRef (refs w)) =? 0)%nat
       (setState (set_isNpcSpeaking false)).

(** [playAudioChunk], run to completion as one step; [currentTime] is the
    reading of [audioContext.currentTime] when the chunk is scheduled. The
    rejection of [resume()] leaves the function, everything after it is inside
    the [try]. [+=] adds in double precision. *)
Definition playAudioChunk (env : Env) (currentTime : Q) (base64Audio : string)
    : Eff unit :=
  w <- get ;;
  match outputAudioContextRef (refs w) with
  | None => ret tt
  | Some audioContext =>
      if String.eqb base64Audio "" then ret tt
      else
        match contextState audioContext with
        | suspended =>
            call env (ContextResume Output) ;;
            setRef (set_outputAudioContextRef (Some (resumed audioContext)))
        | _ => ret tt
        end ;;
        try_catch
          match decode base64Audio with
          | None => raise
          | Some audioBytes =>
              match decodeAudioData audioBytes 24000 1 with
              | None => raise
              | Some audioBuffer =>
                  setRef (fun r =>
                    set_nextStartTimeRef
                      (max_time (nextStartTimeRef r) currentTime) r) ;;
                  w1 <- get ;;
                  let source :=
                    {| token := created w1; buffer := audioBuffer |} in
                  modify (fun w =>
                    {| state := state w; refs := refs w;
                       created := S (created w) |}) ;;
                  invoke (SourceConnect source) ;;
                  setRef (fun r =>
                    set_audioSourcesRef (set_add source (audioSourcesRef r)) r) ;;
                  w2 <- get ;;
                  if startable (nextStartTimeRef (refs w2)) then
                    invoke (SourceStart source (nextStartTimeRef (refs w2))) ;;
                    setRef (fun r =>
                      set_nextStartTimeRef
                        (Binary64.binary64
                           (nextStartTimeRef r + duration audioBuffer)) r)
                  else raise
              end
          end
  end.

(** A promise that nobody awaits: its rejection goes nowhere. *)
Definition detached (m : Eff unit) : Eff unit :=
  fun w => match m w with (_, w1, t1) => (Normal tt, w1, t1) end.

(** The callback [onNpcAudio]; [render] holds the state values of the render
    in which the callbacks were created. *)
Definition onNpcAudio (env : Env) (render : AppState) (currentTime : Q)
    (audioData : string) : Eff unit :=
  when (negb (isNpcSpeaking render)) (setState (set_isNpcSpeaking true)) ;;
  detached (playAudioChunk env currentTime audioData).

(** *** Teardown *)

Definition cleanupAudioAndSession (env : Env) : Eff unit :=
  try_catch
    (w <- get ;;
     match liveSessionRef (refs w) with
     | Some session => call env (SessionClose session)
     | None => ret tt
     end) ;;
  setRef (set_liveSessionRef None) ;;
  (w <- get ;;
   match localStreamRef (refs w) with
   | Some stream =>
       forEach (fun track => invoke (TrackStop track)) stream ;;
       setRef (set_localStreamRef None)
   | None => ret tt
   end) ;;
  try_catch
    (w <- get ;;
     match scriptProcessorRef (refs w) with
     | Some node => call env (ProcessorDisconnect node)
     | None => ret tt
     end) ;;
  setRef (set_scriptProcessorRef None) ;;
  try_catch
    (w <- get ;;
     match mediaStreamSourceRef (refs w) with
     | Some node => call env (MediaSourceDisconnect node)
     | None => ret tt
     end) ;;
  setRef (set_mediaStreamSourceRef None) ;;
  (w <- get ;;
   match inputAudioContextRef (refs w) with
   | Some ctx => when (negb (is_closed ctx)) (invoke (ContextClose Input))
   | None => ret tt
   end) ;;
  setRef (set_inputAudioContextRef None) ;;
  try_catch
    (w <- get ;;
     forEach (fun source => call env (SourceStop source))
             (audioSourcesRef (refs w))) ;;
  setRef (set_audioSourcesRef []) ;;
  (w <- get ;;
   match outputAudioContextRef (refs w) with
   | Some ctx => when (negb (is_closed ctx)) (invoke (ContextClose Output))
   | None => ret tt
   end) ;;
  setRef (set_outputAudioContextRef None) ;;
  setState (set_isRecording false) ;;
  setState (set_isNpcSpeaking false).

Definition handleCloseRehearsal (env : Env) : Eff unit :=
  cleanupAudioAndSession env ;;
  try_catch
    (w <- get ;;
     match streetViewInstance (refs w) with
     | Some sv =>
         call env StreetViewGetVisible ;;
         when (visible sv)
              (call env (StreetViewSetVisible false) ;;
               setRef (set_streetViewInstance (Some {| visible := false |})))
     | None => ret tt
     end) ;;
  setState (set_status Idle) ;;
  setState (set_scenario None) ;;
  setState (set_transcript []) ;;
  setState (set_result None) ;;
  setState (set_error None) ;;
  setState (set_studyCardHint None).

(** *** Ending a conversation *)

Definition status_eqb (a b : ConversationStatus) : bool :=
  match a, b with
  | Idle, Idle | Generating, Generating | Briefing, Briefing | Ready, Ready
  | Active, Active | Summarizing, Summarizing
  | PausedForFeedback, PausedForFeedback | Error, Error => true
  | _, _ => false
  end.

(** Where [handleEndConversation] stands when it gives control back: it has
    returned, or it awaits the summary it has asked for. *)
Inductive EndOutcome : Type :=
  | Returned
  | AwaitingSummary.

(** [handleEndConversation] up to its [await]. [status], [scenario] and
    [transcript] are the values of the render that created the callback
    ([render]); the setters and refs act on the world. *)
Definition handleEndConversation (env : Env) (render : AppState)
    : Eff EndOutcome :=
  if status_eqb (status render) Summarizing then ret Returned
  else
    setState (set_status Summarizing) ;;
    cleanupAudioAndSession env ;;
    match scenario render with
    | Some sc =>
        if (length (transcript render) =? 0)%nat
        then handleCloseRehearsal env ;; ret Returned
        else invoke (SummarizeConversation sc (transcript render)) ;;
             ret AwaitingSummary
    | None => handleCloseRehearsal env ;; ret Returned
    end.

(** [handleEndConversation] after its [await]: the summary has arrived
    ([Some]) or [summarizeConversation] has failed ([None]). *)
Definition handleEndConversation_resume (summaryResult : option ConversationResult)
    : Eff unit :=
  match summaryResult with
  | Some r =>
      setState (set_result (Some r)) ;;
      setState (set_status PausedForFeedback)
  | None =>
      setState (set_error (Some "Failed to get feedback on the conversation."%string)) ;;
      setState (set_status Error)
  end.

(** The callback [onClose] of the session. *)
Definition onClose (env : Env) (render : AppState) : Eff EndOutcome :=
  if status_eqb (status render) Active then handleEndConversation env render
  else cleanupAudioAndSession env ;; ret Returned.

(** *** Beginning a conversation *)

(** The part of [handleBeginConversation] between its two [await]s: the
    microphone stream has been granted, the audio graph is built and the
    playback clock is reset. [inState] and [outState] are the states the
    browser gives the two new contexts. *)
Definition handleBeginConversation_audioSetup (stream : MediaStream)
    (source processor : nat) (inState outState : AudioContextState)
    : Eff unit :=
  setRef (set_localStreamRef (Some stream)) ;;
  setRef (set_inputAudioContextRef
            (Some {| direction := Input; contextSampleRate := 16000;
                     contextState := inState |})) ;;
  setRef (set_mediaStreamSourceRef (Some source)) ;;
  setRef (set_scriptProcessorRef (Some processor)) ;;
  setRef (set_outputAudioContextRef
            (Some {| direction := Output; contextSampleRate := 24000;
                     contextState := outState |})) ;;
  setRef (set_nextStartTimeRef 0).

(** *** Runs of playback events *)

Inductive PlaybackEvent : Type :=
  | NpcAudio (audioData : string) (currentTime : Q)
  | Ended (source : SourceNode).

Definition playbackStep (env : Env) (render : AppState) (e : PlaybackEvent)
    : Eff unit :=
  match e with
  | NpcAudio audioData currentTime => onNpcAudio env render currentTime audioData
  | Ended source => onended source
  end.

Definition playback (env : Env) (render : AppState)
    (events : list PlaybackEvent) : Eff unit :=
  forEach (playbackStep env render) events.

(** The world and the calls a computation ends with. *)
Definition world_after {A} (m : Eff A) (w : World) : World := (m w).1.2.
Definition calls_of {A} (m : Eff A) (w : World) : list Call := (m w).2.
Definition completion_of {A} (m : Eff A) (w : World) : Completion A := (m w).1.1.

(** The chunks handed to the device: start time and duration, in order. *)
Fixpoint schedule (calls : list Call) : list (Q * Q) :=
  match calls with
  | [] => []
  | SourceStart source start :: rest =>
      (start, duration (buffer source)) :: schedule rest
  | _ :: rest => schedule rest
  end.

(** Every resource of a conversation has been released. *)
Definition tornDown (w : World) : Prop :=
  liveSessionRef (refs w) = None
  /\ localStreamRef (refs w) = None
  /\ scriptProcessorRef (refs w) = None
  /\ mediaStreamSourceRef (refs w) = None
  /\ inputAudioContextRef (refs w) = None
  /\ outputAudioContextRef (refs w) = None
  /\ audioSourcesRef (refs w) = []
  /\ isRecording (state w) = false
  /\ isNpcSpeaking (state w) = false.

Definition is_summarize (c : Call) : bool :=
  match c with SummarizeConversation _ _ => true | _ => false end.

(** *** What teardown amounts to *)

Definition call_on {A} (f : A -> Call) (target : option A) : list Call :=
  match target with Some a => [f a] | None => [] end.

Definition close_of (d : Direction) (ctx : option AudioContext) : list Call :=
  match ctx with
  | Some c => if is_closed c then [] else [ContextClose d]
  | None => []
  end.

(** The [stop()] calls of the [forEach] over the active sources: all of
    them, up to the first that raises. *)
Fixpoint stopsAttempted (env : Env) (sources : list SourceNode) : list Call :=
  match sources with
  | [] => []
  | s :: rest =>
      SourceStop s :: (if env (SourceStop s) then [] else stopsAttempted env rest)
  end.

(** The external calls of one [cleanupAudioAndSession], in order. *)
Definition cleanupCalls (env : Env) (w : World) : list Call :=
  call_on SessionClose (liveSessionRef (refs w))
  ++ match localStreamRef (refs w) with
     | Some stream => map TrackStop stream
     | None => []
     end
  ++ call_on ProcessorDisconnect (scriptProcessorRef (refs w))
  ++ call_on MediaSourceDisconnect (mediaStreamSourceRef (refs w))
  ++ close_of Input (inputAudioContextRef (refs w))
  ++ stopsAttempted env (audioSourcesRef (refs w))
  ++ close_of Output (outputAudioContextRef (refs w)).

(** The world one [cleanupAudioAndSession] leaves behind. *)
Definition cleanedWorld (w : World) : World :=
  {| state := set_isNpcSpeaking false (set_isRecording false (state w));
     refs := {| streetViewInstance := streetViewInstance (refs w);
                liveSessionRef := None;
                inputAudioContextRef := None;
                outputAudioContextRef := None;
                nextStartTimeRef := nextStartTimeRef (refs w);
                scriptProcessorRef := None;
                localStreamRef := None;
                mediaStreamSourceRef := None;
                audioSourcesRef := [] |};
     created := created w |}.

(** [m], [n] times in a row. *)
Fixpoint repeatedly (n : nat) (m : Eff unit) : Eff unit :=
  match n with
  | O => ret tt
  | S n' => m ;; repeatedly n' m
  end.

Definition is_stop (c : Call) : bool :=
  match c with SourceStop _ => true | _ => false end.

(** *** Vocabulary of the statements *)

(** A call that is not the request to the summarizer. *)
Definition notSummarize (c : Call) : Prop := is_summarize c = false.

(** Chunks that follow one another: each starts no earlier than [earliest],
    at a time that is a non-negative double, lasts a positive time that is a
    double, and the next starts no earlier than its end as the clock computes
    it, the double nearest to [start + d]. *)
Fixpoint gapless (earliest : Q) (chunks : list (Q * Q)) : Prop :=
  match chunks with
  | [] => True
  | (start, d) :: rest =>
      (earliest <= start)%Q
      /\ (0 <= start)%Q /\ Binary64.is_binary64 start
      /\ (0 < d)%Q /\ Binary64.is_binary64 d
      /\ gapless (Binary64.binary64 (start + d)) rest
  end.

(** The end of the last chunk as the clock computes it ([earliest] when
    there is none). *)
Fixpoint finish (earliest : Q) (chunks : list (Q * Q)) : Q :=
  match chunks with
  | [] => earliest
  | (start, d) :: rest => finish (Binary64.binary64 (start + d)) rest
  end.

(** What a run from [w] to [w'] hands to the device: chunks that follow one
    another from the clock of [w] on and end by the clock of [w'], which is
    a double. *)
Definition scheduledInOrder (w w' : World) (calls : list Call) : Prop :=
  gapless (nextStartTimeRef (refs w)) (schedule calls)
  /\ (finish (nextStartTimeRef (refs w)) (schedule calls)
      <= nextStartTimeRef (refs w'))%Q
  /\ Binary64.is_binary64 (nextStartTimeRef (refs w')).

(** The reading of [currentTime] that comes with the event is a double. *)
Definition readingIsDouble (e : PlaybackEvent) : Prop :=
  match e with
  | NpcAudio _ currentTime => Binary64.is_binary64 currentTime
  | Ended _ => True
  end.

(** The chunk decodes: [decode] and [decodeAudioData] both succeed on it. *)
Definition playable (audioData : string) : bool :=
  match decode audioData with
  | Some bytes =>
      match decodeAudioData bytes 24000 1 with Some _ => true | None => false end
  | None => false
  end.

Definition playableEvent (e : PlaybackEvent) : bool :=
  match e with NpcAudio a _ => playable a | Ended _ => true end.

(** The liveness flag says whether the active set is inhabited. *)
Definition flagTracksSources (w : World) : Prop :=
  isNpcSpeaking (state w) = negb (length (audioSourcesRef (refs w)) =? 0)%nat.

(** An environment in which no external call fails. *)
Definition reliable : Env := fun _ => false.

(** The world once [handleBeginConversation] has built the audio graph on the
    initial values of the hooks: nothing scheduled, nobody speaking. *)
Definition conversationStarted : World :=
  world_after (handleBeginConversation_audioSetup [0%nat] 0 0 running running)
    initialWorld.

Definition demoScenario : Scenario :=
  {| locationName := "Cafe de Flore";
     locationType := "cafe";
     task := "Order a coffee";
     npcProfile :=
       {| name := "Camille"; gender := female; voice := "Kore";
          languages_primary := "French"; languages_secondary := Some "English"%string;
          fluencyPrimary := high; fluencySecondary := Some low;
          patience := medium; helpfulness := high; accent := local_accent;
          quirk := "hums" |};
     sceneDescription := "A busy terrace";
     conversationStarter := npc;
     openingLine := Some "Bonjour !"%string |}.

(** A render in the middle of a conversation, with something said. *)
Definition demoRender (st : ConversationStatus) : AppState :=
  {| status := st; scenario := Some demoScenario;
     transcript := [mkTranscript npc "Bonjour !" true None];
     result := None; error := None; isNpcSpeaking := false;
     isRecording := false; studyCardHint := None |}.

(** *** Releasing the resources *)

(** The calls [calls] release what the world [w] holds: the session is
    closed, every track of the microphone stream is stopped, processor and
    stream source are disconnected, each context that is not closed yet is
    closed, and the active sources are stopped: the first one whatever
    happens, all of them when no [stop()] raises. *)
Definition released (env : Env) (w : World) (calls : list Call) : Prop :=
  (forall session, liveSessionRef (refs w) = Some session ->
     In (SessionClose session) calls)
  /\ (forall stream track, localStreamRef (refs w) = Some stream ->
        In track stream -> In (TrackStop track) calls)
  /\ (forall node, scriptProcessorRef (refs w) = Some node ->
        In (ProcessorDisconnect node) calls)
  /\ (forall node, mediaStreamSourceRef (refs w) = Some node ->
        In (MediaSourceDisconnect node) calls)
  /\ (forall ctx, inputAudioContextRef (refs w) = Some ctx ->
        is_closed ctx = false -> In (ContextClose Input) calls)
  /\ (forall ctx, outputAudioContextRef (refs w) = Some ctx ->
        is_closed ctx = false -> In (ContextClose Output) calls)
  /\ (forall source rest, audioSourcesRef (refs w) = source :: rest ->
        In (SourceStop source) calls)
  /\ ((forall s, In s (audioSourcesRef (refs w)) -> env (SourceStop s) = false) ->
      forall s, In s (audioSourcesRef (refs w)) -> In (SourceStop s) calls).

(** The end of [handleBeginConversation]'s [try] once [startConversation]
    has answered: the session is kept and the status becomes [Active]. *)
Definition handleBeginConversation_sessionOpened (session : nat) : Eff unit :=
  setRef (set_liveSessionRef (Some session)) ;;
  setState (set_status Active).

(** A conversation in full swing: scenario and opening line in the state,
    microphone stream of two tracks, both contexts running, session 7 open,
    and two chunks of NPC audio scheduled and not yet ended. *)
Definition liveConversation : World :=
  world_after
    (handleBeginConversation_audioSetup [0%nat; 1%nat] 2 3 running running ;;
     handleBeginConversation_sessionOpened 7 ;;
     playback reliable initialState
       [NpcAudio "AEAAgP9/" 0; NpcAudio "AEAAgP9/" 0])
    {| state := demoRender Briefing; refs := initialRefs; created := 0 |}.

(** *** A user's end racing a close of the session *)

(** The two ways a conversation ends: the user presses the End button, or
    the session closes and the adapter calls [onClose]. *)
Inductive EndEvent : Type :=
  | UserEnd
  | RemoteClose.

(** One such event. The button carries the [handleEndConversation] of the
    latest render, whose [status], [scenario] and [transcript] are the
    current ones; [onClose] is the callback that [handleBeginConversation]
    created, which sees the state of the render [beginRender] in which the
    conversation was begun. *)
Definition endStep (env : Env) (beginRender : AppState) (e : EndEvent)
    : Eff EndOutcome :=
  match e with
  | UserEnd => w <- get ;; handleEndConversation env (state w)
  | RemoteClose => onClose env beginRender
  end.

Definition endRun (env : Env) (beginRender : AppState)
    (events : list EndEvent) : Eff unit :=
  forEach (fun e => endStep env beginRender e ;; ret tt) events.

(** The requests to the summarizer among some calls. *)
Definition summaryRequests (calls : list Call) : list Call :=
  List.filter is_summarize calls.

End App.

(** ** Words for statements about the codec *)

Module CodecTerms.
Import Codec.

(** A finite sample in [-1, 1). *)
Definition unitSample (v : Number) : Prop :=
  match v with
  | Finite q => (-1 <= q)%Q /\ (q < 1)%Q
  | _ => False
  end.

(** A character of the base64 alphabet, or the padding sign. *)
Definition base64Char (c : ascii) : Prop := In c alphabet \/ c = pad.

End CodecTerms.

(** ** Runs of transcript events *)

Module TranscriptRuns.
Import Reconciler.

(** What the session delivers to the reconciler. *)
Inductive TranscriptEvent : Type :=
  | Fragment (f : Transcript)
  | TurnComplete.

Definition applyEvent (t : list Transcript) (e : TranscriptEvent)
    : list Transcript :=
  match e with
  | Fragment f => onTranscriptUpdate f t
  | TurnComplete => onTurnComplete t
  end.

Definition applyEvents (events : list TranscriptEvent) (t : list Transcript)
    : list Transcript :=
  foldl applyEvent t events.

(** [transcript.filter(t => t.isFinal)], what the inactivity timer hands to
    [generateHint]. *)
Definition finalTranscript (t : list Transcript) : list Transcript :=
  List.filter isFinal t.

(** No two neighbours of one speaker with the first still open. *)
Fixpoint noOpenDuplicates (t : list Transcript) : Prop :=
  match t with
  | e1 :: rest =>
      match rest with
      | e2 :: _ => (speaker e1 = speaker e2 -> isFinal e1 = true)
      | [] => True
      end /\ noOpenDuplicates rest
  | [] => True
  end.

(** All the text of a transcript, in order. *)
Definition allText (t : list Transcript) : string := concatTexts t.

(** The fragments among the events, in order. *)
Definition fragmentsOf (events : list TranscriptEvent) : list Transcript :=
  flat_map (fun e => match e with Fragment f => [f] | TurnComplete => [] end)
           events.

End TranscriptRuns.

(** ** The session adapter ([startConversation]) *)

Module Session.
Import App.

(** The parts of a [LiveServerMessage] that [onmessage] reads. A missing
    object or field is [None]; [turnComplete] is [false] when absent. A
    transcription stands for its [text]: the transcripts of the component
    hold strings, as [interface Transcript] says, so a transcription object
    that comes without its text has no counterpart here. *)
Record Part : Type := mkPart { inlineData : option string }.

Record ServerContent : Type := mkServerContent {
  inputTranscription : option string;
  outputTranscription : option string;
  modelTurn : option (list Part);
  turnComplete : bool
}.

Record LiveServerMessage : Type := mkMessage {
  serverContent : option ServerContent
}.

(** The callbacks handed to [startConversation] that [onmessage] uses. *)
Record Callbacks : Type := mkCallbacks {
  onTranscriptUpdate : Transcript -> Eff unit;
  onNpcAudio : string -> Eff unit;
  onTurnComplete : Eff unit
}.

(** [message.serverContent?.modelTurn?.parts?.[0]?.inlineData?.data] *)
Definition base64Audio (sc : ServerContent) : option string :=
  match modelTurn sc with
  | Some (part :: _) => inlineData part
  | _ => None
  end.

(** The handler [onmessage]: user text, NPC text, audio, turn end, in that
    order. An empty audio string is falsy and skipped. *)
Definition onmessage (callbacks : Callbacks) (message : LiveServerMessage)
    : Eff unit :=
  match serverContent message with
  | None => ret tt
  | Some sc =>
      bind (match inputTranscription sc with
            | Some t => onTranscriptUpdate callbacks (mkTranscript user t false None)
            | None => ret tt
            end) (fun _ =>
      bind (match outputTranscription sc with
            | Some t => onTranscriptUpdate callbacks (mkTranscript npc t false None)
            | None => ret tt
            end) (fun _ =>
      bind (match base64Audio sc with
            | Some a => if String.eqb a "" then ret tt else onNpcAudio callbacks a
            | None => ret tt
            end) (fun _ =>
      if turnComplete sc then onTurnComplete callbacks else ret tt)))
  end.

(** The callbacks [handleBeginConversation] passes: the transcript ones hand
    an updater to [setTranscript]. [currentTime] is the reading of the output
    clock while the message is handled. *)
Definition appCallbacks (env : Env) (render : AppState) (currentTime : Q)
    : Callbacks :=
  {| onTranscriptUpdate := fun newTranscript =>
       setState (fun s =>
         set_transcript
           (Reconciler.onTranscriptUpdate newTranscript (transcript s)) s);
     onNpcAudio := fun audioData =>
       App.onNpcAudio env render currentTime audioData;
     onTurnComplete :=
       setState (fun s =>
         set_transcript (Reconciler.onTurnComplete (transcript s)) s) |}.

(** One message of the live session reaching the component. *)
Definition deliver (env : Env) (render : AppState)
    (m : LiveServerMessage * Q) : Eff unit :=
  onmessage (appCallbacks env render m.2) m.1.

Definition deliverAll (env : Env) (render : AppState)
    (ms : list (LiveServerMessage * Q)) : Eff unit :=
  forEach (deliver env render) ms.

(** The transcript events a message stands for. *)
Definition transcriptEvents (message : LiveServerMessage)
    : list TranscriptRuns.TranscriptEvent :=
  match serverContent message with
  | None => []
  | Some sc =>
      match inputTranscription sc with
      | Some t => [TranscriptRuns.Fragment (mkTranscript user t false None)]
      | None => []
      end
      ++ match outputTranscription sc with
         | Some t => [TranscriptRuns.Fragment (mkTranscript npc t false None)]
         | None => []
         end
      ++ (if turnComplete sc then [TranscriptRuns.TurnComplete] else [])
  end.

(** The transcript events of a run of messages. *)
Definition eventsOf (ms : list (LiveServerMessage * Q))
    : list TranscriptRuns.TranscriptEvent :=
  flat_map (fun m => transcriptEvents m.1) ms.

(** A message with one audio part. *)
Definition demoMessage (user_text npc_text : option string) (audio : string)
    (done : bool) : LiveServerMessage :=
  mkMessage (Some (mkServerContent user_text npc_text
                     (Some [mkPart (Some audio)]) done)).

End Session.

(** ** Further handlers of [App] *)

Module Lifecycle.
Import Codec App.
Local Open Scope eff_scope.

(** The callback [onError]; [message] is [e.message]. *)
Definition onError (env : Env) (message : string) : Eff unit :=
  setState (set_error (Some message)) ;;
  setState (set_status Error) ;;
  cleanupAudioAndSession env.

Definition handleExitToStreetView (env : Env) : Eff unit :=
  cleanupAudioAndSession env ;;
  setState (set_status Idle) ;;
  setState (set_scenario None) ;;
  setState (set_transcript []) ;;
  setState (set_result None) ;;
  setState (set_error None) ;;
  setState (set_studyCardHint None).

(** [handleTrySimilarScenario] up to its [await]: [Some sc] is the scenario
    sent to [generateSimilarScenario], [None] the early return. *)
Definition handleTrySimilarScenario (render : AppState)
    : Eff (option Scenario) :=
  match scenario render with
  | None => ret None
  | Some sc =>
      setState (set_status Generating) ;;
      setState (set_error None) ;;
      setState (set_transcript []) ;;
      setState (set_result None) ;;
      invoke (GenerateSimilarScenario sc) ;;
      ret (Some sc)
  end.

(** After the [await]: the new scenario ([inl]) or the message of the error
    that was caught ([inr]). *)
Definition handleTrySimilarScenario_resume (outcome : Scenario + string)
    : Eff unit :=
  match outcome with
  | inl newScenario =>
      setState (set_scenario (Some newScenario)) ;;
      setState (set_status Briefing)
  | inr message =>
      setState
        (set_error
           (Some ("Failed to create a similar scenario. Please try a new location. ("
                  +:+ message +:+ ")"))) ;;
      setState (set_status Error)
  end.

(** Calls on the capture graph. None of them raises. *)
Inductive GraphCall : Type :=
  | ConnectSourceToProcessor (source processor : nat)
  | ConnectProcessorToDestination (processor : nat)
  | DisconnectProcessor (processor : nat).

(** [startRecording]; [status] is the one of the render. *)
Definition startRecording (render : AppState) (w : World)
    : World * list GraphCall :=
  match scriptProcessorRef (refs w), mediaStreamSourceRef (refs w),
        inputAudioContextRef (refs w) with
  | Some processor, Some source, Some _ =>
      if status_eqb (status render) Active
      then (with_state (set_isRecording true) w,
            [ConnectSourceToProcessor source processor;
             ConnectProcessorToDestination processor])
      else (w, [])
  | _, _, _ => (w, [])
  end.

Definition stopRecording (w : World) : World * list GraphCall :=
  match scriptProcessorRef (refs w), mediaStreamSourceRef (refs w) with
  | Some processor, Some _ =>
      (with_state (set_isRecording false) w, [DisconnectProcessor processor])
  | _, _ => (w, [])
  end.

(** [processor.onaudioprocess]: the window is encoded, and sent when a
    session is there ([Some (session, blob)]); otherwise it is dropped. *)
Definition onaudioprocess (inputData : list Number) (w : World)
    : option (nat * Blob) :=
  let pcmBlob := createBlob inputData in
  match liveSessionRef (refs w) with
  | Some session => Some (session, pcmBlob)
  | None => None
  end.

(** The sources of the active set are distinct objects, all created
    earlier. *)
Definition sourcesWellFormed (w : World) : Prop :=
  NoDup (map token (audioSourcesRef (refs w)))
  /\ Forall (fun s => (token s < created w)%nat) (audioSourcesRef (refs w)).

(** The sources started by a list of calls, in order. *)
Fixpoint started (calls : list Call) : list SourceNode :=
  match calls with
  | [] => []
  | SourceStart source _ :: rest => source :: started rest
  | _ :: rest => started rest
  end.

End Lifecycle.

(** ** The image side channel (the effect on [transcript]) *)

Module ImageChannel.

(** A character stands for one UTF-16 code unit below 256. *)
Definition code (c : ascii) : nat := nat_of_ascii c.

(** What [.] does not match: LF and CR (the other line terminators lie
    above 255). *)
Definition is_line_terminator (c : ascii) : bool :=
  (code c =? 10)%nat || (code c =? 13)%nat.

(** What [trim] removes: TAB, LF, VT, FF, CR, SPACE, NBSP. *)
Definition is_trimmed (c : ascii) : bool :=
  ((9 <=? code c)%nat && (code c <=? 13)%nat)
  || (code c =? 32)%nat || (code c =? 160)%nat.

Definition star : ascii := "*"%char.

Definition directive : list ascii :=
  String.list_ascii_of_string "*shows image of ".

(** The rest of [cs] after the prefix [p], if [p] is a prefix. *)
Fixpoint after_prefix (p cs : list ascii) : option (list ascii) :=
  match p with
  | [] => Some cs
  | a :: p' =>
      match cs with
      | c :: cs' => if Ascii.eqb a c then after_prefix p' cs' else None
      | [] => None
      end
  end.

(** [(.*?)\*]: the shortest run without line terminator that a star follows;
    the run and what comes after the star. *)
Fixpoint until_star (cs : list ascii) : option (list ascii * list ascii) :=
  match cs with
  | [] => None
  | c :: rest =>
      if Ascii.eqb c star then Some ([], rest)
      else if is_line_terminator c then None
      else match until_star rest with
           | Some (run, after) => Some (c :: run, after)
           | None => None
           end
  end.

(** The regular expression [/\*shows image of (.*?)\*/] tried at the head
    of [cs]. *)
Definition match_here (cs : list ascii) : option (list ascii * list ascii) :=
  match after_prefix directive cs with
  | Some rest => until_star rest
  | None => None
  end.

(** The leftmost match: what precedes it, the captured group, what follows. *)
Fixpoint search (cs : list ascii)
    : option (list ascii * list ascii * list ascii) :=
  match match_here cs with
  | Some (group, after) => Some ([], group, after)
  | None =>
      match cs with
      | [] => None
      | c :: rest =>
          match search rest with
          | Some (before, group, after) => Some (c :: before, group, after)
          | None => None
          end
      end
  end.

(** [text.match(imageRegex)], reduced to [match[1]]. *)
Definition matchImage (text : string) : option string :=
  match search (String.list_ascii_of_string text) with
  | Some (_, group, _) => Some (String.string_of_list_ascii group)
  | None => None
  end.

(** [text.replace(imageRegex, '')] *)
Definition removeImage (text : string) : string :=
  match search (String.list_ascii_of_string text) with
  | Some (before, _, after) => String.string_of_list_ascii (before ++ after)
  | None => text
  end.

Fixpoint trimStart (cs : list ascii) : list ascii :=
  match cs with
  | c :: rest => if is_trimmed c then trimStart rest else cs
  | [] => []
  end.

(** [text.trim()] *)
Definition trim (text : string) : string :=
  String.string_of_list_ascii
    (rev (trimStart (rev (trimStart (String.list_ascii_of_string text))))).

(** The first part of the effect: on a last entry of the NPC without image
    reference whose text holds a directive, the index of that entry and the
    prompt for [generateImage]. *)
Definition imageRequest (transcript : list Transcript) : option (nat * string) :=
  match last transcript with
  | Some lastEntry =>
      match speaker lastEntry, imageUrl lastEntry with
      | npc, None =>
          match matchImage (text lastEntry) with
          | Some imagePrompt => Some ((length transcript - 1)%nat, imagePrompt)
          | None => None
          end
      | _, _ => None
      end
  | None => None
  end.

(** The updater run at once: the directive leaves the text and the entry is
    marked as loading. *)
Definition markLoading (currentIndex : nat) (prev : list Transcript)
    : list Transcript :=
  match prev !! currentIndex with
  | Some e =>
      <[currentIndex :=
          {| speaker := speaker e;
             text := trim (removeImage (text e));
             isFinal := isFinal e;
             imageUrl := Some "loading"%string |}]> prev
  | None => prev
  end.

(** [imageUrl || 'error'] on the result of [generateImage]. *)
Definition urlOrError (imageUrl : option string) : string :=
  match imageUrl with
  | Some url => if String.eqb url "" then "error"%string else url
  | None => "error"%string
  end.

(** The updater run when [generateImage] has answered. *)
Definition attachImage (currentIndex : nat) (imageUrl : option string)
    (prev : list Transcript) : list Transcript :=
  match prev !! currentIndex with
  | Some e =>
      <[currentIndex :=
          {| speaker := speaker e;
             text := text e;
             isFinal := isFinal e;
             imageUrl := Some (urlOrError imageUrl) |}]> prev
  | None => prev
  end.

(** A character the captured group may hold: no star, no line terminator. *)
Definition plain (c : ascii) : Prop :=
  c <> star /\ is_line_terminator c = false.

End ImageChannel.

(** * Properties *)

(** ** Double-precision rounding *)

Module Binary64Facts.
Import Binary64.
Local Open Scope Q_scope.

Lemma pow2_pos (e : Z) : 0 < pow2 e.
Proof. apply Qpower_0_lt. reflexivity. Qed.

Lemma pow2_le (a b : Z) : (a <= b)%Z -> pow2 a <= pow2 b.
Proof. intros H. apply Qpower_le_compat_l; [exact H | discriminate]. Qed.

Lemma pow2_lt (a b : Z) : (a < b)%Z -> pow2 a < pow2 b.
Proof. intros H. apply Qpower_lt_compat_l; [exact H | reflexivity]. Qed.

Lemma pow2_lt_inv (a b : Z) : pow2 a < pow2 b -> (a < b)%Z.
Proof. intros H. apply (Qpower_lt_compat_l_inv 2); [exact H | reflexivity]. Qed.

Lemma pow2_add (a b : Z) : pow2 (a + b) == pow2 a * pow2 b.
Proof. apply Qpower_plus. discriminate. Qed.

Lemma pow2_succ (a : Z) : pow2 (a + 1) == 2 * pow2 a.
Proof. rewrite pow2_add. unfold pow2 at 2. rewrite Qpower_1_r. ring. Qed.

Lemma pow2_Z (n : Z) : (0 <= n)%Z -> pow2 n == inject_Z (2 ^ n).
Proof. intros H. unfold pow2. now rewrite (Zpower_Qpower 2 n H). Qed.

Lemma pow2_sub (a b : Z) : pow2 (a - b) == pow2 a / pow2 b.
Proof. apply Qpower_minus. discriminate. Qed.


Lemma Qmake_as_div (x : Q) : x * inject_Z (Zpos (Qden x)) == inject_Z (Qnum x).
Proof.
  destruct x as [n d]. unfold Qeq, Qmult, inject_Z. simpl. lia.
Qed.

Lemma log2_bounds (n : Z) :
  (0 < n)%Z ->
  pow2 (Z.log2 n) <= inject_Z n /\ inject_Z n < 2 * pow2 (Z.log2 n).
Proof.
  intros Hn. destruct (Z.log2_spec n Hn) as [H1 H2].
  pose proof (Z.log2_nonneg n) as H0.
  rewrite (pow2_Z _ H0). split.
  - rewrite <- Zle_Qle. exact H1.
  - change 2 with (inject_Z 2). rewrite <- inject_Z_mult, <- Zlt_Qlt.
    rewrite Z.pow_succ_r in H2 by exact H0. exact H2.
Qed.

Lemma ilog2_spec (x : Q) :
  0 < x -> pow2 (ilog2 x) <= x /\ x < pow2 (ilog2 x + 1).
Proof.
  intros Hx. unfold ilog2.
  assert (Hn : (0 < Qnum x)%Z).
  { destruct x as [n d]. unfold Qlt in Hx. simpl in *. lia. }
  destruct (log2_bounds _ Hn) as [N1 N2].
  destruct (log2_bounds (Zpos (Qden x)) eq_refl) as [D1 D2].
  pose proof (Qmake_as_div x) as Hdiv.
  pose proof (pow2_pos (Z.log2 (Qnum x))) as PN.
  pose proof (pow2_pos (Z.log2 (Zpos (Qden x)))) as PD.
  set (e := (Z.log2 (Qnum x) - Z.log2 (Zpos (Qden x)))%Z).
  assert (He : pow2 e * pow2 (Z.log2 (Zpos (Qden x))) == pow2 (Z.log2 (Qnum x))).
  { rewrite <- pow2_add. subst e. now replace (_ - _ + _)%Z with (Z.log2 (Qnum x)) by lia. }
  pose proof (pow2_pos e) as Pe.
  destruct (Qle_bool (pow2 e) x) eqn:E.
  - apply Qle_bool_iff in E. split; [exact E|].
    rewrite pow2_succ. nra.
  - assert (E' : x < pow2 e).
    { apply Qnot_le_lt. intros H. apply Qle_bool_iff in H. congruence. }
    replace (e - 1 + 1)%Z with e by lia. split; [|exact E'].
    assert (H2 : 2 * pow2 (e - 1) == pow2 e).
    { rewrite <- pow2_succ. now replace (e - 1 + 1)%Z with e by lia. }
    pose proof (pow2_pos (e - 1)). nra.
Qed.

Lemma ilog2_unique (x : Q) (e : Z) :
  pow2 e <= x -> x < pow2 (e + 1) -> ilog2 x = e.
Proof.
  intros H1 H2.
  assert (Hx : 0 < x) by (pose proof (pow2_pos e); lra).
  destruct (ilog2_spec x Hx) as [H3 H4].
  assert (A : (e < ilog2 x + 1)%Z) by (apply pow2_lt_inv; lra).
  assert (B : (ilog2 x < e + 1)%Z) by (apply pow2_lt_inv; lra).
  lia.
Qed.

Lemma ilog2_mono (x y : Q) : 0 < x -> x <= y -> (ilog2 x <= ilog2 y)%Z.
Proof.
  intros Hx Hxy.
  destruct (ilog2_spec x Hx) as [H1 H2].
  destruct (ilog2_spec y) as [H3 H4]; [lra|].
  assert (A : (ilog2 x < ilog2 y + 1)%Z) by (apply pow2_lt_inv; lra).
  lia.
Qed.

Lemma ilog2_compat (x y : Q) : 0 < x -> x == y -> ilog2 x = ilog2 y.
Proof.
  intros Hx Hxy. symmetry. destruct (ilog2_spec x Hx) as [H1 H2].
  apply ilog2_unique; lra.
Qed.


Lemma nearest_even_floor (z : Q) :
  (Qfloor z <= nearest_even z <= Qfloor z + 1)%Z.
Proof.
  unfold nearest_even.
  destruct (Qcompare _ _); [destruct (Z.even _)|..]; lia.
Qed.

Lemma nearest_even_error (z : Q) :
  z - (1 # 2) <= inject_Z (nearest_even z) /\ inject_Z (nearest_even z) <= z + (1 # 2).
Proof.
  unfold nearest_even.
  pose proof (Qfloor_le z) as H1. pose proof (Qlt_floor z) as H2.
  rewrite inject_Z_plus in H2. change (inject_Z 1) with 1 in H2.
  destruct (Qcompare_spec (z - inject_Z (Qfloor z)) (1 # 2)) as [E|E|E].
  - destruct (Z.even _); rewrite ?inject_Z_plus; change (inject_Z 1) with 1; lra.
  - lra.
  - rewrite inject_Z_plus. change (inject_Z 1) with 1. lra.
Qed.

Lemma nearest_even_mono (z1 z2 : Q) :
  z1 <= z2 -> (nearest_even z1 <= nearest_even z2)%Z.
Proof.
  intros H. pose proof (Qfloor_resp_le _ _ H) as Hf.
  destruct (Z.eq_dec (Qfloor z1) (Qfloor z2)) as [E|E].
  - unfold nearest_even. rewrite E.
    destruct (Qcompare_spec (z1 - inject_Z (Qfloor z2)) (1 # 2)),
             (Qcompare_spec (z2 - inject_Z (Qfloor z2)) (1 # 2));
      try destruct (Z.even _); try lia; lra.
  - pose proof (nearest_even_floor z1). pose proof (nearest_even_floor z2). lia.
Qed.

Lemma nearest_even_Z (k : Z) : nearest_even (inject_Z k) = k.
Proof.
  unfold nearest_even. rewrite Qfloor_Z.
  destruct (Qcompare_spec (inject_Z k - inject_Z k) (1 # 2)); [lra | reflexivity | lra].
Qed.

Lemma nearest_even_le_Z (z : Q) (k : Z) :
  z <= inject_Z k -> (nearest_even z <= k)%Z.
Proof.
  intros H. rewrite <- (nearest_even_Z k). now apply nearest_even_mono.
Qed.

Lemma nearest_even_ge_Z (z : Q) (k : Z) :
  inject_Z k <= z -> (k <= nearest_even z)%Z.
Proof.
  intros H. rewrite <- (nearest_even_Z k). now apply nearest_even_mono.
Qed.

(** *** Rounding to a multiple of [2^q] *)

Lemma scaled_le (q : Z) (x y : Q) : x <= y -> x / pow2 q <= y / pow2 q.
Proof.
  intros H. pose proof (pow2_pos q) as P.
  unfold Qdiv. apply Qmult_le_compat_r; [exact H|].
  apply Qlt_le_weak, Qinv_lt_0_compat, P.
Qed.

Lemma scaled_multiple (q k : Z) : inject_Z k * pow2 q / pow2 q == inject_Z k.
Proof. pose proof (pow2_pos q). field. lra. Qed.

Lemma round_at_mono (q : Z) (x y : Q) : x <= y -> round_at q x <= round_at q y.
Proof.
  intros H. unfold round_at. pose proof (pow2_pos q) as P.
  apply Qmult_le_compat_r; [|lra].
  rewrite <- Zle_Qle. now apply nearest_even_mono, scaled_le.
Qed.

Lemma round_at_fix (q : Z) (y : Q) : multiple q y -> round_at q y == y.
Proof.
  intros [k Hk]. unfold round_at.
  assert (H : nearest_even (y / pow2 q) = k).
  { apply Z.le_antisymm.
    - apply nearest_even_le_Z. rewrite Hk, scaled_multiple. apply Qle_refl.
    - apply nearest_even_ge_Z. rewrite Hk, scaled_multiple. apply Qle_refl. }
  rewrite H. now symmetry.
Qed.

Lemma round_at_le_multiple (q : Z) (x b : Q) :
  multiple q b -> x <= b -> round_at q x <= b.
Proof.
  intros Hb H. rewrite <- (round_at_fix q b Hb). now apply round_at_mono.
Qed.

Lemma round_at_ge_multiple (q : Z) (x b : Q) :
  multiple q b -> b <= x -> b <= round_at q x.
Proof.
  intros Hb H. rewrite <- (round_at_fix q b Hb). now apply round_at_mono.
Qed.

Lemma round_at_multiple (q : Z) (x : Q) : multiple q (round_at q x).
Proof. eexists. reflexivity. Qed.

Lemma round_at_error (q : Z) (x : Q) :
  x - (1 # 2) * pow2 q <= round_at q x /\ round_at q x <= x + (1 # 2) * pow2 q.
Proof.
  unfold round_at. pose proof (pow2_pos q) as P.
  destruct (nearest_even_error (x / pow2 q)) as [H1 H2].
  assert (Hx : x == x / pow2 q * pow2 q) by (field; lra).
  set (s := x / pow2 q) in *. set (m := inject_Z (nearest_even s)) in *.
  assert (A : 0 <= (m - (s - (1 # 2))) * pow2 q)
    by (apply Qmult_le_0_compat; lra).
  assert (B : 0 <= (s + (1 # 2) - m) * pow2 q)
    by (apply Qmult_le_0_compat; lra).
  split; nra.
Qed.

Lemma multiple_weaken (q q' : Z) (y : Q) :
  (q' <= q)%Z -> multiple q y -> multiple q' y.
Proof.
  intros Hq [k Hk]. exists (k * 2 ^ (q - q'))%Z.
  rewrite Hk, inject_Z_mult, <- pow2_Z by lia.
  rewrite <- Qmult_assoc, <- pow2_add.
  now replace (q - q' + q')%Z with q by lia.
Qed.

Lemma multiple_pow2 (q e : Z) : (q <= e)%Z -> multiple q (pow2 e).
Proof.
  intros H. apply (multiple_weaken e); [exact H|]. exists 1%Z.
  change (inject_Z 1) with 1. ring.
Qed.

Lemma multiple_0 (q : Z) : multiple q 0.
Proof. exists 0%Z. change (inject_Z 0) with 0. ring. Qed.


Lemma round_at_compat (q : Z) (x y : Q) : x == y -> round_at q x == round_at q y.
Proof.
  intros H. apply Qle_antisym; apply round_at_mono; rewrite H; apply Qle_refl.
Qed.

(** *** The quantum of a positive number *)

Lemma quantum_mono (x y : Q) : 0 < x -> x <= y -> (quantum x <= quantum y)%Z.
Proof.
  intros Hx Hxy. unfold quantum. pose proof (ilog2_mono x y Hx Hxy). lia.
Qed.

Lemma quantum_compat (x y : Q) : 0 < x -> x == y -> quantum x = quantum y.
Proof. intros Hx Hxy. unfold quantum. now rewrite (ilog2_compat x y Hx Hxy). Qed.

Lemma round_positive_mono (x y : Q) :
  0 < x -> x <= y -> round_at (quantum x) x <= round_at (quantum y) y.
Proof.
  intros Hx Hxy.
  assert (Hy : 0 < y) by lra.
  pose proof (quantum_mono x y Hx Hxy) as Hq.
  destruct (Z.eq_dec (quantum x) (quantum y)) as [E|E].
  - rewrite E. now apply round_at_mono.
  - destruct (ilog2_spec x Hx) as [_ X2]. destruct (ilog2_spec y Hy) as [Y1 _].
    assert (Hlog : (ilog2 x + 1 <= ilog2 y)%Z) by (unfold quantum in *; lia).
    pose proof (pow2_le _ _ Hlog) as Hp.
    apply (Qle_trans _ (pow2 (ilog2 y))).
    + apply round_at_le_multiple; [|lra].
      apply multiple_pow2. unfold quantum in *. lia.
    + apply round_at_ge_multiple; [|exact Y1].
      apply multiple_pow2. unfold quantum in *. lia.
Qed.

Lemma round_positive_nonneg (q : Z) (x : Q) : 0 <= x -> 0 <= round_at q x.
Proof. intros H. apply round_at_ge_multiple; [apply multiple_0 | exact H]. Qed.

(** *** [binary64] *)

Lemma binary64_positive (x : Q) : 0 < x -> binary64 x = round_at (quantum x) x.
Proof.
  intros H. unfold binary64.
  assert (E : Qcompare x 0 = Gt) by now apply Qgt_alt.
  now rewrite E.
Qed.

Lemma binary64_negative (x : Q) :
  x < 0 -> binary64 x = - round_at (quantum (- x)) (- x).
Proof.
  intros H. unfold binary64.
  assert (E : Qcompare x 0 = Lt) by now apply Qlt_alt.
  now rewrite E.
Qed.

Lemma binary64_zero (x : Q) : x == 0 -> binary64 x = 0.
Proof.
  intros H. unfold binary64.
  assert (E : Qcompare x 0 = Eq) by now apply Qeq_alt.
  now rewrite E.
Qed.

Lemma binary64_nonneg (x : Q) : 0 <= x -> 0 <= binary64 x.
Proof.
  intros H. destruct (Qlt_le_dec 0 x) as [P|P].
  - rewrite (binary64_positive x P). apply round_positive_nonneg, H.
  - rewrite (binary64_zero x) by lra. apply Qle_refl.
Qed.

Lemma binary64_nonpos (x : Q) : x <= 0 -> binary64 x <= 0.
Proof.
  intros H. destruct (Qlt_le_dec x 0) as [P|P].
  - rewrite (binary64_negative x P).
    assert (0 <= round_at (quantum (- x)) (- x)) by (apply round_positive_nonneg; lra).
    lra.
  - rewrite (binary64_zero x) by lra. apply Qle_refl.
Qed.

(** Rounding is monotone. *)
Lemma binary64_mono (x y : Q) : x <= y -> binary64 x <= binary64 y.
Proof.
  intros H. destruct (Qlt_le_dec 0 x) as [Px|Px].
  - rewrite (binary64_positive x Px), (binary64_positive y) by lra.
    now apply round_positive_mono.
  - destruct (Qlt_le_dec y 0) as [Ny|Ny].
    + rewrite (binary64_negative x), (binary64_negative y Ny) by lra.
      assert (round_at (quantum (- y)) (- y) <= round_at (quantum (- x)) (- x))
        by (apply round_positive_mono; lra).
      lra.
    + apply (Qle_trans _ 0); [now apply binary64_nonpos | now apply binary64_nonneg].
Qed.

Lemma binary64_compat (x y : Q) : x == y -> binary64 x == binary64 y.
Proof.
  intros H. apply Qle_antisym; apply binary64_mono; rewrite H; apply Qle_refl.
Qed.

Lemma binary64_opp (x : Q) : binary64 (- x) == - binary64 x.
Proof.
  destruct (Qlt_le_dec 0 x) as [P|P].
  - rewrite (binary64_negative (- x)), (binary64_positive x P) by lra.
    assert (E : - - x == x) by ring.
    rewrite (quantum_compat (- - x) x) by lra.
    now rewrite (round_at_compat _ _ _ E).
  - destruct (Qlt_le_dec x 0) as [N|N].
    + rewrite (binary64_positive (- x)), (binary64_negative x N) by lra. ring.
    + rewrite (binary64_zero x), (binary64_zero (- x)) by lra. reflexivity.
Qed.

(** A positive multiple of its own quantum is a floating-point number. *)
Lemma binary64_fix (y : Q) : 0 < y -> multiple (quantum y) y -> binary64 y == y.
Proof.
  intros Hy Hm. rewrite (binary64_positive y Hy). now apply round_at_fix.
Qed.

Lemma round_positive_representable (x : Q) :
  0 < x -> 0 < round_at (quantum x) x ->
  multiple (quantum (round_at (quantum x) x)) (round_at (quantum x) x).
Proof.
  intros Hx Hy. set (q := quantum x). set (y := round_at q x) in *.
  destruct (ilog2_spec x Hx) as [_ X2]. destruct (ilog2_spec y Hy) as [Y1 _].
  assert (Hup : y <= pow2 (Z.max (ilog2 x + 1) q)).
  { apply round_at_le_multiple; [apply multiple_pow2; lia|].
    pose proof (pow2_le (ilog2 x + 1) (Z.max (ilog2 x + 1) q) ltac:(lia)). lra. }
  assert (Hlog : (ilog2 y <= Z.max (ilog2 x + 1) q)%Z).
  { destruct (Z_le_gt_dec (ilog2 y) (Z.max (ilog2 x + 1) q)) as [L|G]; [exact L|].
    pose proof (pow2_lt (Z.max (ilog2 x + 1) q) (ilog2 y) ltac:(lia)). lra. }
  destruct (Z_le_gt_dec (quantum y) q) as [L|G].
  - apply (multiple_weaken q); [exact L | apply round_at_multiple].
  - assert (E : ilog2 y = (ilog2 x + 1)%Z) by (unfold quantum in *; lia).
    assert (Ey : y == pow2 (ilog2 y)).
    { apply Qle_antisym; [|exact Y1]. rewrite E.
      apply round_at_le_multiple; [apply multiple_pow2; unfold quantum in *; lia | lra]. }
    destruct (multiple_pow2 (quantum y) (ilog2 y)) as [k Hk];
      [unfold quantum in *; lia|].
    exists k. now rewrite <- Hk.
Qed.

(** Rounding twice is rounding once: the result of a rounding is a
    floating-point number. *)
Lemma binary64_idempotent (x : Q) : is_binary64 (binary64 x).
Proof.
  unfold is_binary64.
  assert (P : forall z, 0 < z -> binary64 (binary64 z) == binary64 z).
  { intros z Hz. rewrite (binary64_positive z Hz).
    pose proof (round_positive_nonneg (quantum z) z ltac:(lra)) as H0.
    destruct (Qlt_le_dec 0 (round_at (quantum z) z)) as [Hy|Hy].
    - apply binary64_fix; [exact Hy | now apply round_positive_representable].
    - rewrite binary64_zero by lra. lra. }
  destruct (Qlt_le_dec 0 x) as [Px|Px]; [now apply P|].
  destruct (Qlt_le_dec x 0) as [Nx|Nx].
  - assert (E : x == - - x) by ring.
    rewrite (binary64_compat _ _ (binary64_compat _ _ E)).
    rewrite (binary64_compat _ _ (binary64_opp (- x))).
    rewrite binary64_opp, P by lra.
    rewrite <- binary64_opp. apply binary64_compat. ring.
  - rewrite (binary64_zero x) by lra. reflexivity.
Qed.

(** The relative error of a rounding in the normal range is at most
    [2^-53]. *)
Lemma binary64_error (x : Q) :
  pow2 (-1022) <= x ->
  x - x * pow2 (-53) <= binary64 x /\ binary64 x <= x + x * pow2 (-53).
Proof.
  intros H. pose proof (pow2_pos (-1022)) as P.
  assert (Hx : 0 < x) by lra.
  rewrite (binary64_positive x Hx).
  destruct (ilog2_spec x Hx) as [X1 X2].
  assert (Hlog : (-1022 <= ilog2 x)%Z).
  { destruct (Z_le_gt_dec (-1022) (ilog2 x)) as [L|G]; [exact L|].
    pose proof (pow2_le (ilog2 x + 1) (-1022) ltac:(lia)). lra. }
  assert (Hq : quantum x = (ilog2 x - 52)%Z) by (unfold quantum; lia).
  destruct (round_at_error (quantum x) x) as [E1 E2]. rewrite Hq in *.
  assert (Hhalf : (1 # 2) * pow2 (ilog2 x - 52) == pow2 (ilog2 x) * pow2 (-53)).
  { replace (ilog2 x - 52)%Z with (ilog2 x + -53 + 1)%Z by lia.
    rewrite pow2_succ, pow2_add. ring. }
  pose proof (pow2_pos (-53)) as P53.
  assert (Hb : pow2 (ilog2 x) * pow2 (-53) <= x * pow2 (-53))
    by (apply Qmult_le_compat_r; lra).
  split; lra.
Qed.

(** A floating-point number is not moved by adding something non-negative
    and rounding, and never moved below zero. *)
Lemma binary64_add_ge (s d : Q) : is_binary64 s -> 0 <= d -> s <= binary64 (s + d).
Proof.
  intros Hs Hd. unfold is_binary64 in Hs. rewrite <- Hs at 1.
  apply binary64_mono. lra.
Qed.

Lemma multiple_compat (q : Z) (x y : Q) : x == y -> multiple q x -> multiple q y.
Proof. intros H [k Hk]. exists k. now rewrite <- H. Qed.

Lemma multiple_opp (q : Z) (x : Q) : multiple q x -> multiple q (- x).
Proof.
  intros [k Hk]. exists (- k)%Z. rewrite Hk, inject_Z_opp. ring.
Qed.

Lemma multiple_plus (q : Z) (x y : Q) :
  multiple q x -> multiple q y -> multiple q (x + y).
Proof.
  intros [k Hk] [l Hl]. exists (k + l)%Z. rewrite Hk, Hl, inject_Z_plus. ring.
Qed.

(** Every floating-point number is a multiple of the smallest one. *)
Lemma is_binary64_multiple (y : Q) : is_binary64 y -> multiple (-1074) y.
Proof.
  unfold is_binary64. intros H. apply (multiple_compat _ _ _ H).
  destruct (Qlt_le_dec 0 y) as [P|P].
  - rewrite (binary64_positive y P).
    apply (multiple_weaken (quantum y)); [unfold quantum; lia|].
    apply round_at_multiple.
  - destruct (Qlt_le_dec y 0) as [N|N].
    + rewrite (binary64_negative y N). apply multiple_opp.
      apply (multiple_weaken (quantum (- y))); [unfold quantum; lia|].
      apply round_at_multiple.
    + rewrite (binary64_zero y) by lra. apply multiple_0.
Qed.

(** The sum of two floating-point numbers is rounded with a relative error
    of at most [2^-53], whatever its size: below the normal range it is
    exact. *)
Lemma binary64_sum_error (a b : Q) :
  is_binary64 a -> is_binary64 b -> 0 < a + b ->
  a + b - (a + b) * pow2 (-53) <= binary64 (a + b)
  /\ binary64 (a + b) <= a + b + (a + b) * pow2 (-53).
Proof.
  intros Ha Hb Hz. set (z := a + b) in *.
  destruct (Qlt_le_dec z (pow2 (-1022))) as [S|L]; [|now apply binary64_error].
  assert (Hq : quantum z = (-1074)%Z).
  { destruct (ilog2_spec z Hz) as [Z1 _].
    assert ((ilog2 z < -1022)%Z) by (apply pow2_lt_inv; lra).
    unfold quantum. lia. }
  assert (E : binary64 z == z).
  { apply binary64_fix; [exact Hz|]. rewrite Hq.
    apply multiple_plus; now apply is_binary64_multiple. }
  pose proof (pow2_pos (-53)) as P.
  assert (0 <= z * pow2 (-53)) by (apply Qmult_le_0_compat; lra).
  rewrite E. split; lra.
Qed.

End Binary64Facts.

(** ** Transcript reconciler *)

Module ReconcilerFacts.
Import Reconciler.

Lemma Speaker_eqb_eq (a b : Speaker) : Speaker_eqb a b = true <-> a = b.
Proof. destruct a, b; simpl; split; congruence. Qed.

Lemma lastEntry_lookup (l : list Transcript) :
  (if (0 <? length l)%nat then l !! (length l - 1)%nat else None) = last l.
Proof.
  rewrite last_lookup.
  destruct l as [|e l]; simpl; [reflexivity|].
  now rewrite Nat.sub_0_r.
Qed.

(** A fragment that meets a closed tail is pushed as it is. *)
Lemma onTranscriptUpdate_push (g : Transcript) (prev : list Transcript) :
  closedFor (speaker g) prev -> onTranscriptUpdate g prev = prev ++ [g].
Proof.
  unfold closedFor, onTranscriptUpdate.
  rewrite lastEntry_lookup.
  destruct (last prev) as [e|]; [|reflexivity].
  intros [Hfin | Hsp].
  - rewrite Hfin, andb_false_r. reflexivity.
  - destruct (Speaker_eqb (speaker e) (speaker g)) eqn:E; [|reflexivity].
    apply Speaker_eqb_eq in E. contradiction.
Qed.

(** A fragment that meets an open entry of its own speaker grows it in place. *)
Lemma onTranscriptUpdate_grow (g e : Transcript) (prev : list Transcript) :
  speaker e = speaker g -> isFinal e = false ->
  onTranscriptUpdate g (prev ++ [e]) = prev ++ [extend e g].
Proof.
  intros Hsp Hfin. unfold onTranscriptUpdate.
  rewrite lastEntry_lookup, last_snoc.
  apply Speaker_eqb_eq in Hsp. rewrite Hsp, Hfin. simpl.
  rewrite length_app. simpl.
  replace (length prev + 1 - 1)%nat with (length prev + 0)%nat by lia.
  rewrite insert_app_r. reflexivity.
Qed.

Lemma append_empty_r (s : string) : s +:+ "" = s.
Proof.
  induction s as [|c s IH]; [reflexivity|].
  change (String c (s +:+ "") = String c s). now rewrite IH.
Qed.

Lemma append_assoc (s1 s2 s3 : string) :
  (s1 +:+ s2) +:+ s3 = s1 +:+ (s2 +:+ s3).
Proof.
  induction s1 as [|c s1 IH]; [reflexivity|].
  change (String c ((s1 +:+ s2) +:+ s3) = String c (s1 +:+ (s2 +:+ s3))).
  now rewrite IH.
Qed.

Lemma applyFragments_grow (fs : list Transcript) (e : Transcript)
    (prev : list Transcript) :
  isFinal e = false -> Forall (partialOf (speaker e)) fs ->
  applyFragments fs (prev ++ [e]) =
  prev ++ [ {| speaker := speaker e;
               text := text e +:+ concatTexts fs;
               isFinal := false;
               imageUrl := imageUrl e |} ].
Proof.
  revert e. induction fs as [|g fs IH]; intros e Hfin Hall.
  - simpl. destruct e as [sp tx fin img]; simpl in *. subst fin.
    now rewrite append_empty_r.
  - apply Forall_cons in Hall as [[Hsp _] Hall].
    unfold applyFragments in *. simpl.
    rewrite onTranscriptUpdate_grow by (auto using eq_sym).
    rewrite IH by (simpl; auto).
    simpl. now rewrite append_assoc.
Qed.

(** C4. Partial fragments of one speaker [s], delivered in a row to a
    transcript whose last entry is absent, final or of another speaker, leave
    the earlier entries alone and add exactly one entry: it is non-final, of
    speaker [s], and its text is the concatenation of the fragments' texts in
    arrival order. Moreover any fragment that meets such a tail (new speaker,
    final last entry, or empty transcript) is pushed as a new entry. *)
Theorem partial_fragments_accumulate (s : Speaker) (f : Transcript)
    (fs prev : list Transcript) :
  closedFor s prev ->
  Forall (partialOf s) (f :: fs) ->
  applyFragments (f :: fs) prev =
    prev ++ [ {| speaker := s;
                 text := concatTexts (f :: fs);
                 isFinal := false;
                 imageUrl := imageUrl f |} ]
  /\ (forall (g : Transcript) (others : list Transcript),
        closedFor (speaker g) others ->
        onTranscriptUpdate g others = others ++ [g]).
Proof.
  intros Hclosed Hall. split; [|exact onTranscriptUpdate_push].
  apply Forall_cons in Hall as [[Hsp Hfin] Hall]. subst s.
  unfold applyFragments. simpl.
  rewrite onTranscriptUpdate_push by assumption.
  apply (applyFragments_grow fs f prev Hfin Hall).
Qed.

Lemma partial_fragments_accumulate_witness :
  closedFor npc
    [mkTranscript npc "Hola" true None; mkTranscript user "una mesa" false None]
  /\ Forall (partialOf npc)
       [mkTranscript npc "Claro, " false None;
        mkTranscript npc "por " false None;
        mkTranscript npc "aqui." false None]
  /\ applyFragments
       [mkTranscript npc "Claro, " false None;
        mkTranscript npc "por " false None;
        mkTranscript npc "aqui." false None]
       [mkTranscript npc "Hola" true None; mkTranscript user "una mesa" false None]
     = [mkTranscript npc "Hola" true None; mkTranscript user "una mesa" false None;
        mkTranscript npc "Claro, por aqui." false None].
Proof.
  split; [right; discriminate|].
  split; [repeat constructor|].
  apply (partial_fragments_accumulate npc
           (mkTranscript npc "Claro, " false None)
           [mkTranscript npc "por " false None;
            mkTranscript npc "aqui." false None]).
  - right; discriminate.
  - repeat constructor.
Defined.

(** C5. A turn-complete keeps every entry of the transcript in its place and
    marks it final, whatever its position: the transcript after it has, entry
    by entry, the speaker, the text and the image reference of the transcript
    before it, with [isFinal] set. A second turn-complete in a row changes
    nothing. *)
Theorem turn_complete_finalizes_all (t : list Transcript) :
  Forall2 (fun before after =>
             isFinal after = true
             /\ speaker after = speaker before
             /\ text after = text before
             /\ imageUrl after = imageUrl before)
          t (onTurnComplete t)
  /\ Forall (fun e => isFinal e = true) (onTurnComplete t)
  /\ onTurnComplete (onTurnComplete t) = onTurnComplete t.
Proof.
  unfold onTurnComplete. split; [|split].
  - induction t as [|e t IH]; constructor; [now repeat split | exact IH].
  - apply Forall_map. apply Forall_true. intros e. reflexivity.
  - rewrite map_map. apply map_ext. intros e. reflexivity.
Qed.

(** C9. A turn-complete touches the [isFinal] flags only: the transcript
    keeps its length, and the speakers, texts and image references stay what
    they were, entry by entry. *)
Theorem turn_complete_frame (t : list Transcript) :
  length (onTurnComplete t) = length t
  /\ map speaker (onTurnComplete t) = map speaker t
  /\ map text (onTurnComplete t) = map text t
  /\ map imageUrl (onTurnComplete t) = map imageUrl t.
Proof.
  unfold onTurnComplete.
  rewrite length_map, !map_map. simpl. repeat split; reflexivity.
Qed.

End ReconcilerFacts.

(** ** Audio codec *)

Module CodecFacts.
Import Codec.

Ltac divmod := unfold is_true in *; Z.div_mod_to_equations; lia.


Lemma wrap16_range (n : Z) : is_int16 (wrap16 n).
Proof.
  unfold is_int16, wrap16. pose proof (Z.mod_pos_bound n 65536 eq_refl).
  destruct (32768 <=? n mod 65536) eqn:E; lia.
Qed.

Lemma wrap16_id (n : Z) : is_int16 n -> wrap16 n = n.
Proof.
  unfold is_int16, wrap16. intros H.
  destruct (32768 <=? n mod 65536) eqn:E;
    [apply Z.leb_le in E | apply Z.leb_gt in E]; divmod.
Qed.

Lemma wrap16_congruent (n : Z) : wrap16 n mod 65536 = n mod 65536.
Proof.
  unfold wrap16. destruct (32768 <=? n mod 65536) eqn:E; divmod.
Qed.

Lemma int16_bytes_are_bytes (v : Z) : Forall is_byte (int16_bytes v).
Proof.
  unfold int16_bytes, is_byte. repeat constructor; divmod.
Qed.

Lemma int16_bytes_read_back (v : Z) (rest : list Z) :
  Int16Array_of_bytes (int16_bytes v ++ rest) = wrap16 v :: Int16Array_of_bytes rest.
Proof.
  unfold int16_bytes. simpl. f_equal.
  unfold wrap16. 
  replace ((v mod 65536) mod 256 + 256 * (v mod 65536 / 256)) with (v mod 65536) by divmod.
  rewrite Z.mod_mod by lia. reflexivity.
Qed.

Lemma Int16Array_view_of_bytes (int16 : list Z) :
  Int16Array_of_bytes (Uint8Array_of_Int16Array int16) = map wrap16 int16.
Proof.
  unfold Uint8Array_of_Int16Array.
  induction int16 as [|v l IH]; [reflexivity|].
  change (flat_map int16_bytes (v :: l))
    with (int16_bytes v ++ flat_map int16_bytes l).
  rewrite int16_bytes_read_back, IH. reflexivity.
Qed.

Lemma bytes_pair_read_back (lo hi : Z) :
  is_byte lo -> is_byte hi -> int16_bytes (wrap16 (lo + 256 * hi)) = [lo; hi].
Proof.
  unfold is_byte, int16_bytes. intros Hlo Hhi.
  rewrite wrap16_congruent.
  rewrite (Z.mod_small (lo + 256 * hi)) by lia.
  f_equal; [|f_equal]; divmod.
Qed.

Lemma list_pair_ind {A} (P : list A -> Prop) :
  P [] -> (forall a, P [a]) -> (forall a b l, P l -> P (a :: b :: l)) ->
  forall l, P l.
Proof.
  intros H0 H1 H2.
  assert (H : forall l, P l /\ forall a, P (a :: l)).
  { induction l as [|x l [IH1 IH2]]; split; auto. }
  intros l. apply H.
Qed.

Lemma Uint8Array_view_of_Int16Array (bytes : list Z) :
  Forall is_byte bytes -> Nat.odd (length bytes) = false ->
  Uint8Array_of_Int16Array (Int16Array_of_bytes bytes) = bytes.
Proof.
  induction bytes as [| a | lo hi rest IH] using list_pair_ind; intros Hb Hlen.
  - reflexivity.
  - discriminate.
  - apply Forall_cons in Hb as [Hlo Hb]. apply Forall_cons in Hb as [Hhi Hb].
    simpl Int16Array_of_bytes. unfold Uint8Array_of_Int16Array in *.
    change (flat_map int16_bytes (wrap16 (lo + 256 * hi) :: Int16Array_of_bytes rest))
      with (int16_bytes (wrap16 (lo + 256 * hi))
              ++ flat_map int16_bytes (Int16Array_of_bytes rest)).
    rewrite bytes_pair_read_back by assumption.
    simpl. rewrite IH; auto.
Qed.

Lemma Qtruncate_scaled (s : Z) :
  Qtruncate ((s # 32768) * inject_Z 32768) = s.
Proof.
  unfold Qtruncate. simpl. 
  change (Z.pos (32768 * 1)) with 32768.
  now rewrite Z.quot_mul by lia.
Qed.

Lemma quantize_over (s : Z) : is_int16 s -> quantize (over s 32768) = s.
Proof.
  intros H. unfold quantize, over, times, ToInt16.
  rewrite Qtruncate_scaled. now apply wrap16_id.
Qed.

Lemma list_triple_ind {A} (P : list A -> Prop) :
  P [] -> (forall a, P [a]) -> (forall a b, P [a; b]) ->
  (forall a b c l, P l -> P (a :: b :: c :: l)) ->
  forall l, P l.
Proof.
  intros H0 H1 H2 H3.
  assert (H : forall l, P l /\ (forall a, P (a :: l)) /\ forall a b, P (a :: b :: l)).
  { induction l as [|x l (IH1 & IH2 & IH3)]; repeat split; auto. }
  intros l. apply H.
Qed.

Lemma sextets_are_sextets (bytes : list Z) :
  Forall is_byte bytes -> Forall is_sextet (sextets bytes).
Proof.
  unfold is_byte, is_sextet.
  induction bytes as [| a | a b | a b c rest IH] using list_triple_ind; intros Hb;
    repeat match goal with
           | H : Forall _ (_ :: _) |- _ => apply Forall_cons in H as [? H]
           end; simpl.
  - constructor.
  - repeat constructor; divmod.
  - repeat constructor; divmod.
  - repeat (constructor; [divmod|]). auto.
Qed.

Lemma sextets_to_bytes_sextets (bytes : list Z) :
  Forall is_byte bytes -> sextets_to_bytes (sextets bytes) = bytes.
Proof.
  unfold is_byte.
  induction bytes as [| a | a b | a b c rest IH] using list_triple_ind; intros Hb;
    repeat match goal with
           | H : Forall _ (_ :: _) |- _ => apply Forall_cons in H as [? H]
           end; simpl.
  - reflexivity.
  - f_equal. divmod.
  - f_equal; [|f_equal]; divmod.
  - rewrite IH by assumption. f_equal; [|f_equal; [|f_equal]]; divmod.
Qed.

Lemma padding_step (n : nat) : padding (S (S (S n))) = padding n.
Proof.
  unfold padding. replace (S (S (S n))) with (n + 1 * 3)%nat by lia.
  now rewrite Nat.Div0.mod_add.
Qed.

Lemma mod4_step (n : nat) : (S (S (S (S n))) mod 4 = n mod 4)%nat.
Proof.
  replace (S (S (S (S n)))) with (n + 1 * 4)%nat by lia.
  apply Nat.Div0.mod_add.
Qed.

(** The encoded text has a length that is a multiple of 4, and the groups
    alone never leave a single character over. *)
Lemma sextets_length (bytes : list Z) :
  ((length (sextets bytes) + length (padding (length bytes))) mod 4 = 0
   /\ length (sextets bytes) mod 4 <> 1)%nat.
Proof.
  induction bytes as [| a | a b | a b c rest [IH1 IH2]] using list_triple_ind;
    try (split; [reflexivity | simpl; lia]).
  cbn [sextets length]. rewrite padding_step.
  rewrite !Nat.add_succ_l, !mod4_step. now split.
Qed.

Lemma sextet_char_facts (n : Z) :
  is_sextet n ->
  char_sextet (sextet_char n) = Some n
  /\ is_whitespace (sextet_char n) = false
  /\ Ascii.eqb (sextet_char n) pad = false.
Proof.
  unfold is_sextet. intros H.
  rewrite <- (Z2Nat.id n) by lia.
  assert (Hk : (Z.to_nat n < 64)%nat) by lia.
  generalize dependent (Z.to_nat n). clear. intros k Hk.
  unfold sextet_char. rewrite Nat2Z.id.
  do 64 (destruct k as [|k]; [vm_compute; auto|]). lia.
Qed.

Lemma mapM_char_sextet (sx : list Z) :
  Forall is_sextet sx -> mapM char_sextet (map sextet_char sx) = Some sx.
Proof.
  induction 1 as [|n sx Hn _ IH]; [reflexivity|].
  simpl. destruct (sextet_char_facts n Hn) as (-> & _ & _).
  simpl. rewrite IH. reflexivity.
Qed.

Lemma filter_no_whitespace (cs : list ascii) :
  Forall (fun c => is_whitespace c = false) cs ->
  filter (fun c => negb (is_whitespace c)) cs = cs.
Proof.
  induction 1 as [|c cs Hc _ IH]; [reflexivity|].
  rewrite filter_cons. rewrite Hc. simpl. now rewrite IH.
Qed.

Lemma strip_padding_spec (cs : list ascii) (len : nat) :
  Forall (fun c => Ascii.eqb c pad = false) cs ->
  ((length cs + length (padding len)) mod 4 = 0)%nat ->
  strip_padding (cs ++ padding len) = cs.
Proof.
  intros Hcs Hlen. unfold strip_padding.
  rewrite length_app, Hlen. simpl.
  destruct cs as [|c0 cs0 _] using rev_ind.
  - unfold padding. now destruct (len mod 3)%nat as [|[|[|k]]].
  - apply Forall_app in Hcs as [_ Hc]. apply Forall_cons in Hc as [Hc _].
    unfold padding. destruct (len mod 3)%nat as [|[|[|k]]];
      rewrite ?app_nil_r, !rev_app_distr; simpl; rewrite ?Hc;
      try (now rewrite rev_involutive);
      now destruct (rev cs0).
Qed.

Lemma list_ascii_of_btoa (bytes : list Z) :
  String.list_ascii_of_string (btoa bytes) =
  map sextet_char (sextets bytes) ++ padding (length bytes).
Proof. unfold btoa. apply String.list_ascii_of_string_of_list_ascii. Qed.

(** [atob] undoes [btoa] on byte strings. *)
Lemma atob_btoa (bytes : list Z) :
  Forall is_byte bytes -> atob (btoa bytes) = Some bytes.
Proof.
  intros Hb. unfold atob. rewrite list_ascii_of_btoa.
  pose proof (sextets_are_sextets bytes Hb) as Hsx.
  destruct (sextets_length bytes) as [Hlen Hmod].
  rewrite filter_no_whitespace.
  2:{ apply Forall_app. split.
      - apply Forall_map. eapply Forall_impl; [exact Hsx|].
        intros n Hn. apply (sextet_char_facts n Hn).
      - unfold padding. destruct (length bytes mod 3)%nat as [|[|[|k]]];
          repeat constructor. }
  rewrite strip_padding_spec.
  - rewrite length_map.
    destruct (length (sextets bytes) mod 4 =? 1)%nat eqn:E.
    + apply Nat.eqb_eq in E. contradiction.
    + rewrite mapM_char_sextet by assumption. simpl.
      now rewrite sextets_to_bytes_sextets.
  - apply Forall_map. eapply Forall_impl; [exact Hsx|].
    intros n Hn. apply (sextet_char_facts n Hn).
  - now rewrite length_map.
Qed.

Local Open Scope Q_scope.

Lemma Qtruncate_is_truncation (y : Q) : truncation_of y (Qtruncate y).
Proof.
  destruct y as [n d]. unfold truncation_of, Qtruncate. simpl Qnum. simpl Qden.
  pose proof (Z.quot_rem' n (Z.pos d)) as Hqr.
  pose proof (Pos2Z.is_pos d) as Hd.
  assert (Hrem : (Z.abs (Z.rem n (Z.pos d)) < Z.pos d)%Z).
  { pose proof (Z.rem_bound_abs n (Z.pos d)). lia. }
  assert (Habs : (Z.abs (Z.quot n (Z.pos d)) * Z.pos d <= Z.abs n)%Z).
  { rewrite <- (Z.quot_abs n (Z.pos d)) by lia.
    rewrite (Z.abs_eq (Z.pos d)) by lia. rewrite Z.mul_comm.
    apply Z.mul_quot_le; lia. }
  set (q := Z.quot n (Z.pos d)) in *. set (r := Z.rem n (Z.pos d)) in *.
  split.
  - unfold Qle, Qabs, inject_Z. simpl. lia.
  - unfold Qlt, Qabs, Qminus, Qplus, Qopp, inject_Z. simpl.
    replace (n * 1 + - q * Z.pos d)%Z with r by lia.
    lia.
Qed.

Lemma Qtruncate_unit_range (q : Q) :
  -1 <= q -> q < 1 -> is_int16 (Qtruncate (q * inject_Z 32768)).
Proof.
  destruct q as [n d]. unfold Qle, Qlt, Qtruncate, is_int16. simpl.
  rewrite Pos.mul_1_r. intros Hlo Hhi.
  pose proof (Pos2Z.is_pos d) as Hd.
  Z.to_euclidean_division_equations. nia.
Qed.

Lemma quantize_unit_range (q : Q) :
  -1 <= q -> q < 1 ->
  quantize (Finite q) = Qtruncate (q * inject_Z 32768).
Proof.
  intros Hlo Hhi. unfold quantize, times, ToInt16.
  apply wrap16_id. now apply Qtruncate_unit_range.
Qed.

Lemma nth_seq_map {A B} (f : A -> B) (d : A) (l : list A) :
  map (fun i => f (nth i l d)) (seq 0 (length l)) = map f l.
Proof.
  induction l as [|a l IH] using rev_ind; [reflexivity|].
  rewrite length_app, seq_app, !map_app. simpl.
  f_equal.
  - rewrite <- IH. apply map_ext_in. intros i Hi. apply in_seq in Hi.
    now rewrite app_nth1 by lia.
  - rewrite app_nth2 by lia. now rewrite Nat.sub_diag.
Qed.

Lemma Int16Array_length (bytes : list Z) :
  length (Int16Array_of_bytes bytes) = (length bytes / 2)%nat.
Proof.
  induction bytes as [| a | a b l IH] using list_pair_ind; try reflexivity.
  change (length (a :: b :: l)) with (1 * 2 + length l)%nat.
  rewrite Nat.div_add_l by lia. simpl. now rewrite IH.
Qed.

Lemma Int16Array_in_range (bytes : list Z) :
  Forall is_int16 (Int16Array_of_bytes bytes).
Proof.
  induction bytes as [| a | a b l IH] using list_pair_ind; simpl;
    constructor; auto using wrap16_range.
Qed.

Lemma decodeAudioData_mono (bytes : list Z) (rate : positive) :
  Nat.odd (length bytes) = false -> bytes <> [] ->
  decodeAudioData bytes rate 1 =
  Some {| numberOfChannels := 1;
          frames := length (Int16Array_of_bytes bytes);
          sampleRate := rate;
          channelData :=
            [map (fun s => over s 32768) (Int16Array_of_bytes bytes)] |}.
Proof.
  intros Hodd Hne. unfold decodeAudioData. rewrite Hodd.
  assert (Hlen : length (Int16Array_of_bytes bytes) <> 0%nat).
  { destruct bytes as [|a [|b l]]; [contradiction | discriminate | simpl; lia]. }
  remember (Int16Array_of_bytes bytes) as dataInt16 eqn:E. clear E.
  rewrite Nat.div_1_r.
  destruct (Nat.eqb_spec (length dataInt16) 0) as [|_]; [contradiction|].
  simpl orb. cbv iota. do 2 f_equal.
  change (seq 0 1) with [0%nat].
  change (map ?f [0%nat]) with [f 0%nat]. f_equal.
  rewrite <- (nth_seq_map (fun s => over s 32768) 0%Z).
  apply map_ext. intros i. now rewrite Nat.mul_1_r, Nat.add_0_r.
Qed.

Lemma Uint8Array_view_are_bytes (int16 : list Z) :
  Forall is_byte (Uint8Array_of_Int16Array int16).
Proof.
  unfold Uint8Array_of_Int16Array.
  induction int16 as [|v l IH]; [constructor|].
  change (flat_map int16_bytes (v :: l))
    with (int16_bytes v ++ flat_map int16_bytes l).
  apply Forall_app. split; [apply int16_bytes_are_bytes | exact IH].
Qed.

Lemma quantize_in_range (x : Number) : is_int16 (quantize x).
Proof.
  unfold quantize. destruct x; simpl; [apply wrap16_range | | ];
    unfold is_int16; lia.
Qed.

(** C7 (as the code has it). For every sequence of samples [createBlob]
    returns the MIME descriptor [audio/pcm;rate=16000] next to a base64 text
    that decodes to the little-endian byte pairs of one signed 16-bit integer
    per sample. The integer of a finite sample is [sample * 32768] truncated
    toward zero and reduced modulo 2^16 into the signed range; NaN and the
    infinities give 0. For samples in [-1, 1) nothing wraps and the integer is
    the truncation itself; the sample 1 wraps to -32768. *)
Theorem createBlob_truncates (samples : list Number) :
  mimeType (createBlob samples) = "audio/pcm;rate=16000"%string
  /\ atob (data (createBlob samples))
     = Some (Uint8Array_of_Int16Array (map quantize samples))
  /\ Int16Array_of_bytes (Uint8Array_of_Int16Array (map quantize samples))
     = map quantize samples
  /\ Forall (fun x => is_int16 (quantize x)) samples
  /\ (forall q : Q,
        quantize (Finite q) = wrap16 (Qtruncate (q * inject_Z 32768))
        /\ truncation_of (q * inject_Z 32768) (Qtruncate (q * inject_Z 32768))
        /\ (-1 <= q -> q < 1 ->
            quantize (Finite q) = Qtruncate (q * inject_Z 32768)))
  /\ quantize NaN = 0%Z
  /\ (forall negative, quantize (Infinite negative) = 0%Z)
  /\ quantize (Finite 1) = (-32768)%Z.
Proof.
  split; [reflexivity|].
  split.
  { unfold createBlob, encode. simpl data.
    apply atob_btoa, Uint8Array_view_are_bytes. }
  split.
  { rewrite Int16Array_view_of_bytes, map_map.
    apply map_ext. intros x. apply wrap16_id, quantize_in_range. }
  split.
  { apply Forall_true. exact quantize_in_range. }
  split.
  { intros q. split; [reflexivity|]. split.
    - apply Qtruncate_is_truncation.
    - apply quantize_unit_range. }
  repeat split.
Qed.

Lemma createBlob_truncates_witness :
  atob (data (createBlob [Finite (1 # 2); Finite (-3 # 131072); NaN]))
  = Some [0; 64; 0; 0; 0; 0]%Z
  /\ quantize (Finite (-3 # 131072)) = Qtruncate ((-3 # 131072) * inject_Z 32768).
Proof.
  pose proof (createBlob_truncates [Finite (1 # 2); Finite (-3 # 131072); NaN])
    as (_ & Hatob & _ & _ & Hq & _).
  split.
  - rewrite Hatob. reflexivity.
  - apply (Hq (-3 # 131072)); [unfold Qle | unfold Qlt]; simpl; lia.
Defined.

(** The code's integer for the sample 0.75/32768 is 0, the specification's
    [round] gives 1, and 0 is more than one half away from the scaled sample,
    so no round-to-nearest convention produces it. *)
Lemma createBlob_does_not_round :
  (-1 <= 3 # 131072 <= 1)
  /\ map quantize [Finite (3 # 131072)] <> map spec_quantize [3 # 131072]
  /\ ~ (Qabs (inject_Z (quantize (Finite (3 # 131072)))
              - (3 # 131072) * inject_Z 32768) <= 1 # 2).
Proof.
  split; [split; unfold Qle; simpl; lia|].
  split; [vm_compute; discriminate|].
  vm_compute. intros H. apply H. reflexivity.
Qed.

Lemma lookup_map {A B} (f : A -> B) (l : list A) (i : nat) :
  map f l !! i = f <$> l !! i.
Proof. revert i. induction l as [|a l IH]; intros [|i]; cbn; auto. Qed.

Lemma nth_int16 (ints : list Z) (k : nat) :
  Forall is_int16 ints -> is_int16 (nth k ints 0%Z).
Proof.
  intros H. revert k. induction H as [|x l Hx _ IH]; intros [|k]; cbn; auto;
    unfold is_int16; lia.
Qed.

(** Every sample of every channel of a decoded buffer is a 16-bit value of
    the input over 32768, and [quantize] gives that value back. *)
Lemma decodeAudioData_sample (bytes : list Z) (rate : positive) (n : nat)
    (buf : AudioBuffer) (c i : nat) (ch : list Number) (v : Number) :
  decodeAudioData bytes rate n = Some buf ->
  channelData buf !! c = Some ch -> ch !! i = Some v ->
  v = over (nth (i * n + c) (Int16Array_of_bytes bytes) 0%Z) 32768
  /\ quantize v = nth (i * n + c) (Int16Array_of_bytes bytes) 0%Z.
Proof.
  unfold decodeAudioData.
  destruct (Nat.odd (length bytes)); [discriminate|].
  destruct ((n =? 0)%nat || _); [discriminate|].
  intros [= <-]. cbn [channelData].
  rewrite lookup_map. intros Hc.
  destruct (seq 0 n !! c) as [c'|] eqn:Ec; [|discriminate].
  apply lookup_seq in Ec as [-> _]. cbn in Hc. injection Hc as <-.
  rewrite lookup_map. intros Hi.
  destruct (seq 0 _ !! i) as [i'|] eqn:Ei; [|discriminate].
  apply lookup_seq in Ei as [-> _]. cbn in Hi. injection Hi as <-.
  split; [reflexivity|].
  apply quantize_over, nth_int16, Int16Array_in_range.
Qed.

(** C8. Take a valid 16-bit PCM buffer [x] (bytes, in whole samples). The
    floats [decodeAudioData] makes of its samples, encoded again the way
    [createBlob] does, give back every sample value of [x] within [1/32768];
    in fact exactly, so that the encoded payload is the base64 text of [x]
    itself. This is what [decodeAudioData] returns for the mono call of the
    application whenever [x] has a sample at all, and with any number of
    channels each sample of each channel is recovered in the same way. *)
Theorem decode_then_encode_reproduces (x : list Z) (rate : positive) :
  Forall is_byte x -> Nat.odd (length x) = false ->
  let ints := Int16Array_of_bytes x in
  let floats := map (fun s => over s 32768) ints in
  Forall2 (fun s s' => Qabs ((s # 32768) - (s' # 32768)) <= 1 # 32768)
    ints (map quantize floats)
  /\ map quantize floats = ints
  /\ data (createBlob floats) = encode x
  /\ (x <> [] ->
      decodeAudioData x rate 1
      = Some {| numberOfChannels := 1; frames := length ints;
                sampleRate := rate; channelData := [floats] |})
  /\ (forall (n : nat) (buf : AudioBuffer) (c i : nat) (ch : list Number)
             (v : Number),
        decodeAudioData x rate n = Some buf ->
        channelData buf !! c = Some ch -> ch !! i = Some v ->
        v = over (nth (i * n + c) ints 0%Z) 32768
        /\ quantize v = nth (i * n + c) ints 0%Z).
Proof.
  intros Hbytes Heven ints floats.
  assert (Hq : map quantize floats = ints).
  { subst floats. rewrite map_map. rewrite <- (map_id ints) at 2.
    apply map_ext_Forall.
    eapply Forall_impl; [apply Int16Array_in_range|].
    intros s Hs. now apply quantize_over. }
  rewrite Hq. split; [|split; [reflexivity|split; [|split]]].
  - apply Forall_Forall2_diag, Forall_true. intros s.
    unfold Qminus. rewrite Qplus_opp_r. discriminate.
  - unfold createBlob. simpl data. rewrite Hq.
    subst ints. now rewrite Uint8Array_view_of_Int16Array.
  - intros Hne. now apply decodeAudioData_mono.
  - intros n buf c i ch v. apply decodeAudioData_sample.
Qed.

Lemma decode_then_encode_reproduces_witness :
  Forall is_byte [0; 64; 0; 128; 255; 127]%Z
  /\ Nat.odd (length [0; 64; 0; 128; 255; 127]%Z) = false
  /\ map quantize
       (map (fun s => over s 32768)
            (Int16Array_of_bytes [0; 64; 0; 128; 255; 127]%Z))
     = [16384; -32768; 32767]%Z.
Proof.
  assert (Hb : Forall is_byte [0; 64; 0; 128; 255; 127]%Z).
  { repeat constructor; unfold is_byte; lia. }
  split; [exact Hb|]. split; [reflexivity|].
  destruct (decode_then_encode_reproduces [0; 64; 0; 128; 255; 127]%Z 24000
              Hb eq_refl) as (_ & Hq & _).
  exact Hq.
Defined.

End CodecFacts.

(** ** Teardown, playback and the conversation life cycle *)

Module AppFacts.
Import Binary64 Binary64Facts Codec App.
Local Open Scope eff_scope.
Local Open Scope Q_scope.

#[local] Arguments set_delete : simpl never.
#[local] Arguments set_add : simpl never.
#[local] Arguments max_time : simpl never.
#[local] Arguments duration : simpl never.

Ltac run_eff :=
  unfold bind, call, try_catch, raise, setRef, setState, modify, get, invoke,
    ret, when; cbn.

Lemma forEach_invoke_run {A} (f : A -> Call) (xs : list A) (w : World) :
  forEach (fun x => invoke (f x)) xs w = (Normal tt, w, map f xs).
Proof.
  induction xs as [|x xs IH]; [reflexivity|].
  cbn [forEach]. unfold bind. unfold invoke at 1. rewrite IH. reflexivity.
Qed.

Lemma forEach_stop_run (env : Env) (sources : list SourceNode) (w : World) :
  try_catch (forEach (fun s => call env (SourceStop s)) sources) w
  = (Normal tt, w, stopsAttempted env sources).
Proof.
  induction sources as [|s rest IH]; [reflexivity|].
  unfold try_catch in *. cbn [forEach stopsAttempted]. unfold bind.
  unfold call at 1.
  destruct (env (SourceStop s)); [reflexivity|].
  destruct (forEach _ rest w) as [[[|] w1] t1]; now inversion IH.
Qed.

Lemma try_get_forEach_stop (env : Env) (w : World) :
  try_catch (w0 <- get ;;
             forEach (fun s => call env (SourceStop s)) (audioSourcesRef (refs w0))) w
  = (Normal tt, w, stopsAttempted env (audioSourcesRef (refs w))).
Proof.
  pose proof (forEach_stop_run env (audioSourcesRef (refs w)) w) as H.
  unfold try_catch, bind, get in *.
  destruct (forEach _ _ w) as [[[|] w1] t1]; now inversion H.
Qed.


Lemma bind_run {A B} (m : Eff A) (k : A -> Eff B) (w w1 : World) (a : A)
    (t1 : list Call) :
  m w = (Normal a, w1, t1) ->
  bind m k w = (let '(c, w2, t2) := k a w1 in (c, w2, t1 ++ t2)).
Proof. intros H. unfold bind. rewrite H. reflexivity. Qed.

Lemma try_call_on_run {A} (env : Env) (f : A -> Call) (target : World -> option A)
    (w : World) :
  try_catch (w0 <- get ;;
             match target w0 with
             | Some a => call env (f a)
             | None => ret tt
             end) w
  = (Normal tt, w, call_on f (target w)).
Proof.
  unfold try_catch, bind, get, call, ret, call_on.
  destruct (target w) as [a|]; [destruct (env (f a))|]; reflexivity.
Qed.

Lemma stop_tracks_run (w : World) :
  (w0 <- get ;;
   match localStreamRef (refs w0) with
   | Some stream =>
       forEach (fun track => invoke (TrackStop track)) stream ;;
       setRef (set_localStreamRef None)
   | None => ret tt
   end) w
  = (Normal tt, with_refs (set_localStreamRef None) w,
     match localStreamRef (refs w) with
     | Some stream => map TrackStop stream
     | None => []
     end).
Proof.
  unfold bind at 1. unfold get at 1.
  destruct w as [st [sv ls ic oc nst sp lst ms srcs] cr]. simpl.
  destruct lst as [stream|]; [|reflexivity].
  rewrite (bind_run _ _ _ _ _ _ (forEach_invoke_run TrackStop stream _)).
  simpl. now rewrite app_nil_r.
Qed.

Lemma close_context_run (d : Direction) (target : World -> option AudioContext)
    (w : World) :
  (w0 <- get ;;
   match target w0 with
   | Some ctx => when (negb (is_closed ctx)) (invoke (ContextClose d))
   | None => ret tt
   end) w
  = (Normal tt, w, close_of d (target w)).
Proof.
  unfold bind, get, close_of. destruct (target w) as [ctx|]; [|reflexivity].
  destruct (is_closed ctx); reflexivity.
Qed.

Lemma cleanup_run (env : Env) (w : World) :
  cleanupAudioAndSession env w = (Normal tt, cleanedWorld w, cleanupCalls env w).
Proof.
  unfold cleanupAudioAndSession.
  rewrite (bind_run _ _ _ _ _ _
             (try_call_on_run env SessionClose (fun w => liveSessionRef (refs w)) w)).
  rewrite (bind_run _ _ _ _ _ _ eq_refl).
  rewrite (bind_run _ _ _ _ _ _ (stop_tracks_run _)).
  rewrite (bind_run _ _ _ _ _ _
             (try_call_on_run env ProcessorDisconnect
                (fun w => scriptProcessorRef (refs w)) _)).
  rewrite (bind_run _ _ _ _ _ _ eq_refl).
  rewrite (bind_run _ _ _ _ _ _
             (try_call_on_run env MediaSourceDisconnect
                (fun w => mediaStreamSourceRef (refs w)) _)).
  rewrite (bind_run _ _ _ _ _ _ eq_refl).
  rewrite (bind_run _ _ _ _ _ _
             (close_context_run Input (fun w => inputAudioContextRef (refs w)) _)).
  rewrite (bind_run _ _ _ _ _ _ eq_refl).
  rewrite (bind_run _ _ _ _ _ _ (try_get_forEach_stop env _)).
  rewrite (bind_run _ _ _ _ _ _ eq_refl).
  rewrite (bind_run _ _ _ _ _ _
             (close_context_run Output (fun w => outputAudioContextRef (refs w)) _)).
  rewrite (bind_run _ _ _ _ _ _ eq_refl).
  rewrite (bind_run _ _ _ _ _ _ eq_refl).
  destruct w as [st [sv ls ic oc nst sp lst ms srcs] cr].
  unfold cleanupCalls, cleanedWorld. simpl.
  rewrite !app_nil_r. reflexivity.
Qed.

Lemma status_eqb_eq (a b : ConversationStatus) : status_eqb a b = true <-> a = b.
Proof. destruct a, b; simpl; split; congruence. Qed.

Lemma stopsAttempted_notSummarize (env : Env) (sources : list SourceNode) :
  Forall notSummarize (stopsAttempted env sources).
Proof.
  induction sources as [|s rest IH]; simpl; [constructor|].
  constructor; [reflexivity|]. destruct (env (SourceStop s)); [constructor | exact IH].
Qed.

Lemma cleanupCalls_notSummarize (env : Env) (w : World) : Forall notSummarize (cleanupCalls env w).
Proof.
  unfold cleanupCalls, call_on, close_of.
  repeat apply Forall_app_2.
  - destruct (liveSessionRef (refs w)); repeat constructor.
  - destruct (localStreamRef (refs w)); [|constructor].
    apply Forall_map, Forall_true. reflexivity.
  - destruct (scriptProcessorRef (refs w)); repeat constructor.
  - destruct (mediaStreamSourceRef (refs w)); repeat constructor.
  - destruct (inputAudioContextRef (refs w)) as [c|]; [destruct (is_closed c)|];
      repeat constructor.
  - apply stopsAttempted_notSummarize.
  - destruct (outputAudioContextRef (refs w)) as [c|]; [destruct (is_closed c)|];
      repeat constructor.
Qed.

Lemma cleanedWorld_tornDown (w : World) : tornDown (cleanedWorld w).
Proof. repeat split. Qed.

Lemma cleanedWorld_idem (w : World) : cleanedWorld (cleanedWorld w) = cleanedWorld w.
Proof. reflexivity. Qed.

Lemma cleanedWorld_tornDown_id (w : World) : tornDown w -> cleanedWorld w = w.
Proof.
  destruct w as [[s sc tr re er sp rc hint] [sv ls ic oc nst spn lst ms srcs] cr].
  unfold tornDown, cleanedWorld. simpl.
  intros (-> & -> & -> & -> & -> & -> & -> & -> & ->). reflexivity.
Qed.

Lemma cleanupCalls_tornDown (env : Env) (w : World) :
  tornDown w -> cleanupCalls env w = [].
Proof.
  unfold tornDown, cleanupCalls.
  intros (-> & -> & -> & -> & -> & -> & -> & _). reflexivity.
Qed.

(** [handleCloseRehearsal] completes, whatever fails on the way, leaves the
    idle state with every resource released, and sends nothing to the
    summarizer. *)
Lemma handleCloseRehearsal_run (env : Env) (w : World) :
  exists (w' : World) (t : list Call),
    handleCloseRehearsal env w = (Normal tt, w', cleanupCalls env w ++ t)
    /\ Forall notSummarize t
    /\ tornDown w'
    /\ status (state w') = Idle /\ scenario (state w') = None
    /\ transcript (state w') = [] /\ result (state w') = None
    /\ error (state w') = None /\ studyCardHint (state w') = None
    /\ nextStartTimeRef (refs w') = nextStartTimeRef (refs w).
Proof.
  unfold handleCloseRehearsal.
  rewrite (bind_run _ _ _ _ _ _ (cleanup_run env w)).
  destruct w as [[s sc tr re er sp rc hint] [sv ls ic oc nst spn lst ms srcs] cr].
  unfold cleanedWorld. simpl.
  destruct sv as [[vis]|].
  - unfold bind, try_catch, get, call, when. simpl.
    destruct (env StreetViewGetVisible); simpl.
    + eexists _, _. split; [reflexivity|].
      split; [repeat constructor|]. repeat split.
    + destruct vis; simpl; [destruct (env (StreetViewSetVisible false)); simpl|];
        (eexists _, _; split; [reflexivity|];
         split; [repeat constructor|]; repeat split).
  - eexists _, _. split; [reflexivity|]. split; [constructor|]. repeat split.
Qed.

Lemma close_and_return_run (env : Env) (w : World) :
  exists (w' : World) (t : list Call),
    (handleCloseRehearsal env ;; ret Returned) w = (Normal Returned, w', t)
    /\ Forall notSummarize t /\ tornDown w' /\ state w' = initialState.
Proof.
  destruct (handleCloseRehearsal_run env w)
    as (w' & t & Hrun & Hqt & Htd & H1 & H2 & H3 & H4 & H5 & H6 & _).
  rewrite (bind_run _ _ _ _ _ _ Hrun). simpl.
  exists w', ((cleanupCalls env w ++ t) ++ []).
  split; [reflexivity|].
  split; [rewrite app_nil_r; apply Forall_app_2;
          [apply cleanupCalls_notSummarize | exact Hqt]|].
  split; [exact Htd|].
  destruct Htd as (_ & _ & _ & _ & _ & _ & _ & Hrec & Hsp).
  destruct w' as [[s sc tr re er sp rc hint] r cr]. simpl in *.
  now subst.
Qed.

Lemma handleEndConversation_run (env : Env) (render : AppState) (w : World) :
  status render <> Summarizing ->
  exists (outcome : EndOutcome) (w' : World) (rest : list Call),
    handleEndConversation env render w
    = (Normal outcome, w', cleanupCalls env w ++ rest)
    /\ tornDown w'
    /\ match scenario render with
       | Some sc =>
           if (length (transcript render) =? 0)%nat
           then outcome = Returned /\ Forall notSummarize rest
                /\ state w' = initialState
           else outcome = AwaitingSummary
                /\ rest = [SummarizeConversation sc (transcript render)]
                /\ status (state w') = Summarizing
       | None => outcome = Returned /\ Forall notSummarize rest
                /\ state w' = initialState
       end.
Proof.
  intros Hst. unfold handleEndConversation.
  destruct (status_eqb (status render) Summarizing) eqn:E;
    [apply status_eqb_eq in E; contradiction|].
  rewrite (bind_run _ _ _ _ _ _ eq_refl).
  rewrite (bind_run _ _ _ _ _ _ (cleanup_run env _)).
  change (cleanupCalls env (with_state (set_status Summarizing) w))
    with (cleanupCalls env w).
  destruct (close_and_return_run env
              (cleanedWorld (with_state (set_status Summarizing) w)))
    as (wc & tc & Hclose & Hqc & Htdc & Hsc).
  destruct (scenario render) as [sc|].
  - destruct (length (transcript render) =? 0)%nat.
    + rewrite Hclose. exists Returned, wc, tc.
      split; [reflexivity|]. split; [exact Htdc|]. now repeat split.
    + simpl. eexists AwaitingSummary, _, _.
      split; [reflexivity|]. repeat split.
  - rewrite Hclose. exists Returned, wc, tc.
    split; [reflexivity|]. split; [exact Htdc|]. now repeat split.
Qed.

Lemma stopsAttempted_all (env : Env) (sources : list SourceNode) :
  (forall s, In s sources -> env (SourceStop s) = false) ->
  stopsAttempted env sources = map SourceStop sources.
Proof.
  induction sources as [|s rest IH]; intros H; [reflexivity|].
  cbn [stopsAttempted map]. rewrite (H s) by (left; reflexivity).
  f_equal. apply IH. intros s' Hs'. apply H. now right.
Qed.

(** The calls of one teardown release whatever the world holds. *)
Lemma cleanupCalls_released (env : Env) (w : World) :
  released env w (cleanupCalls env w).
Proof.
  unfold released, cleanupCalls.
  repeat split.
  - intros session ->. rewrite !in_app_iff. left. now left.
  - intros stream track -> Hin. rewrite !in_app_iff. right. left.
    now apply in_map.
  - intros node ->. rewrite !in_app_iff. right. right. left. now left.
  - intros node ->. rewrite !in_app_iff. do 3 right. left. now left.
  - intros ctx -> Hopen. rewrite !in_app_iff. do 4 right. left.
    cbn. rewrite Hopen. now left.
  - intros ctx -> Hopen. rewrite !in_app_iff. do 6 right.
    cbn. rewrite Hopen. now left.
  - intros source rest ->. rewrite !in_app_iff. do 5 right. left. now left.
  - intros Henv s Hin. rewrite !in_app_iff. do 5 right. left.
    rewrite (stopsAttempted_all env _ Henv). now apply in_map.
Qed.

Lemma released_app (env : Env) (w : World) (calls more : list Call) :
  released env w calls -> released env w (calls ++ more).
Proof.
  unfold released.
  intros (H1 & H2 & H3 & H4 & H5 & H6 & H7 & H8).
  repeat split; intros; apply in_or_app; left; eauto.
Qed.

(** C6. Whenever [handleEndConversation] enters [Summarizing] (the status it
    sees is not [Summarizing] already) it completes without raising, whatever
    external call fails. Its calls are those of one full teardown followed
    by [rest]. The teardown releases what the world holds: it closes the
    session, stops the tracks of the microphone, disconnects processor and
    stream source, closes the two contexts and stops the active sources;
    none of its calls goes to the summarizer; every handle is dropped when
    it is over and still is at the end. With a scenario and a non-empty
    transcript [rest] is the single request to the summarizer and the handler
    is left awaiting it in [Summarizing]; otherwise no request is made and
    the handler returns with the state of a fresh, idle application. *)
Theorem end_conversation_tears_down_first (env : Env) (render : AppState)
    (w : World) :
  status render <> Summarizing ->
  exists (outcome : EndOutcome) (rest : list Call),
    completion_of (handleEndConversation env render) w = Normal outcome
    /\ calls_of (handleEndConversation env render) w
       = calls_of (cleanupAudioAndSession env) w ++ rest
    /\ released env w (calls_of (cleanupAudioAndSession env) w)
    /\ Forall notSummarize (calls_of (cleanupAudioAndSession env) w)
    /\ tornDown (world_after (cleanupAudioAndSession env) w)
    /\ tornDown (world_after (handleEndConversation env render) w)
    /\ match scenario render with
       | Some sc =>
           if (length (transcript render) =? 0)%nat
           then outcome = Returned /\ Forall notSummarize rest
                /\ state (world_after (handleEndConversation env render) w)
                   = initialState
           else outcome = AwaitingSummary
                /\ rest = [SummarizeConversation sc (transcript render)]
                /\ status (state (world_after (handleEndConversation env render) w))
                   = Summarizing
       | None => outcome = Returned /\ Forall notSummarize rest
                /\ state (world_after (handleEndConversation env render) w)
                   = initialState
       end.
Proof.
  intros Hst.
  destruct (handleEndConversation_run env render w Hst)
    as (outcome & w' & rest & Hrun & Htd & Hcases).
  unfold completion_of, calls_of, world_after.
  rewrite Hrun, (cleanup_run env w). simpl.
  exists outcome, rest.
  split; [reflexivity|]. split; [reflexivity|].
  split; [apply cleanupCalls_released|].
  split; [apply cleanupCalls_notSummarize|].
  split; [apply cleanedWorld_tornDown|].
  split; [exact Htd|]. exact Hcases.
Qed.

Lemma end_conversation_tears_down_first_witness :
  Active <> Summarizing
  /\ liveSessionRef (refs liveConversation) = Some 7%nat
  /\ localStreamRef (refs liveConversation) = Some [0%nat; 1%nat]
  /\ length (audioSourcesRef (refs liveConversation)) = 2%nat
  /\ exists (outcome : EndOutcome) (rest : list Call),
       calls_of (handleEndConversation reliable (demoRender Active))
         liveConversation
       = calls_of (cleanupAudioAndSession reliable) liveConversation ++ rest
       /\ In (SessionClose 7)
            (calls_of (cleanupAudioAndSession reliable) liveConversation)
       /\ In (TrackStop 1)
            (calls_of (cleanupAudioAndSession reliable) liveConversation)
       /\ (forall s, In s (audioSourcesRef (refs liveConversation)) ->
             In (SourceStop s)
                (calls_of (cleanupAudioAndSession reliable) liveConversation))
       /\ outcome = AwaitingSummary
       /\ rest = [SummarizeConversation demoScenario
                    [mkTranscript npc "Bonjour !" true None]].
Proof.
  split; [discriminate|]. split; [reflexivity|]. split; [reflexivity|].
  split; [reflexivity|].
  destruct (end_conversation_tears_down_first reliable (demoRender Active)
              liveConversation ltac:(discriminate))
    as (outcome & rest & _ & Hcalls & Hrel & _ & _ & _ & Ho & Hr & _).
  destruct Hrel as (Hs & Ht & _ & _ & _ & _ & _ & Hsrc).
  exists outcome, rest.
  split; [exact Hcalls|].
  split; [apply Hs; reflexivity|].
  split; [apply (Ht [0%nat; 1%nat]); [reflexivity | right; left; reflexivity]|].
  split; [apply Hsrc; reflexivity|].
  split; assumption.
Defined.

(** A close of the session seen under any status but [Active] only runs the
    teardown: nothing is sent to the summarizer and the conversation data
    stay as they are; on a world already torn down nothing happens at all. *)
Lemma onClose_only_cleans_up (env : Env) (render : AppState) (w : World) :
  status render <> Active ->
  completion_of (onClose env render) w = Normal Returned
  /\ Forall notSummarize (calls_of (onClose env render) w)
  /\ status (state (world_after (onClose env render) w)) = status (state w)
  /\ scenario (state (world_after (onClose env render) w)) = scenario (state w)
  /\ transcript (state (world_after (onClose env render) w)) = transcript (state w)
  /\ result (state (world_after (onClose env render) w)) = result (state w)
  /\ (tornDown w -> onClose env render w = (Normal Returned, w, [])).
Proof.
  intros Hst. unfold onClose.
  destruct (status_eqb (status render) Active) eqn:E;
    [apply status_eqb_eq in E; contradiction|].
  unfold completion_of, calls_of, world_after.
  rewrite (bind_run _ _ _ _ _ _ (cleanup_run env w)). cbn.
  rewrite app_nil_r.
  split; [reflexivity|]. split; [apply cleanupCalls_notSummarize|].
  do 4 (split; [reflexivity|]).
  intros Htd.
  now rewrite (cleanupCalls_tornDown env w Htd), (cleanedWorld_tornDown_id w Htd).
Qed.

Lemma summaryRequests_none (calls : list Call) :
  Forall notSummarize calls -> summaryRequests calls = [].
Proof.
  unfold summaryRequests, notSummarize.
  induction 1 as [|c calls Hc _ IH]; [reflexivity|].
  cbn. now rewrite Hc.
Qed.

Lemma summaryRequests_app (a b : list Call) :
  summaryRequests (a ++ b) = summaryRequests a ++ summaryRequests b.
Proof. apply List.filter_app. Qed.

(** What one end event does when the callbacks of the session were not
    created under [Active]: it completes, and either asks the summarizer
    nothing, or is the user's end of a conversation that has something to
    summarize, asks once and leaves the status [Summarizing] with every
    resource released. *)
Lemma endStep_run (env : Env) (beginRender : AppState) (e : EndEvent)
    (w : World) :
  status beginRender <> Active ->
  exists (outcome : EndOutcome) (w' : World) (calls : list Call),
    endStep env beginRender e w = (Normal outcome, w', calls)
    /\ (Forall notSummarize calls
        \/ (exists sc : Scenario,
              e = UserEnd
              /\ status (state w) <> Summarizing
              /\ scenario (state w) = Some sc
              /\ transcript (state w) <> []
              /\ summaryRequests calls
                 = [SummarizeConversation sc (transcript (state w))]
              /\ status (state w') = Summarizing
              /\ tornDown w')).
Proof.
  intros Hbegin. destruct e; cbn [endStep].
  - unfold bind at 1. unfold get at 1.
    destruct (status_eqb (status (state w)) Summarizing) eqn:E.
    + unfold handleEndConversation. rewrite E. cbn.
      exists Returned, w, []. split; [reflexivity|]. left. constructor.
    + assert (Hst : status (state w) <> Summarizing).
      { intros H. apply status_eqb_eq in H. congruence. }
      destruct (handleEndConversation_run env (state w) w Hst)
        as (outcome & w' & rest & Hrun & Htd & Hcases).
      rewrite Hrun. cbn.
      exists outcome, w', (cleanupCalls env w ++ rest).
      split; [reflexivity|].
      pose proof (cleanupCalls_notSummarize env w) as Hq.
      destruct (scenario (state w)) as [sc|] eqn:Hsc.
      * destruct (transcript (state w)) as [|entry tr] eqn:Htr; cbn in Hcases.
        -- left. apply Forall_app_2; [exact Hq | apply Hcases].
        -- right. exists sc. destruct Hcases as (_ & -> & Hsum).
           split; [reflexivity|]. split; [exact Hst|]. split; [reflexivity|].
           split; [discriminate|].
           split; [|split; assumption].
           now rewrite summaryRequests_app, (summaryRequests_none _ Hq).
      * left. apply Forall_app_2; [exact Hq | apply Hcases].
  - destruct (onClose_only_cleans_up env beginRender w Hbegin)
      as (Hc & Hq & _).
    unfold completion_of, calls_of in *.
    destruct (onClose env beginRender w) as [[c w'] calls]. cbn in *. subst c.
    exists Returned, w', calls. split; [reflexivity|]. now left.
Qed.

(** Once the summary has been asked for and the resources are released,
    neither a press on the button nor a close of the session does
    anything. *)
Lemma endRun_settled (env : Env) (beginRender : AppState)
    (events : list EndEvent) (w : World) :
  status beginRender <> Active ->
  status (state w) = Summarizing -> tornDown w ->
  endRun env beginRender events w = (Normal tt, w, []).
Proof.
  intros Hbegin Hst Htd. unfold endRun.
  induction events as [|e events IH]; [reflexivity|].
  cbn [forEach].
  assert (Hstep : endStep env beginRender e w = (Normal Returned, w, [])).
  { destruct e; cbn [endStep].
    - unfold bind, get, handleEndConversation. rewrite Hst. reflexivity.
    - now apply onClose_only_cleans_up. }
  unfold bind at 1. unfold bind at 1. rewrite Hstep. cbn.
  now rewrite IH.
Qed.

Lemma endRun_once (env : Env) (beginRender : AppState)
    (events : list EndEvent) (w : World) :
  status beginRender <> Active ->
  exists (w' : World) (calls : list Call),
    endRun env beginRender events w = (Normal tt, w', calls)
    /\ (length (summaryRequests calls) <= 1)%nat.
Proof.
  intros Hbegin. revert w. induction events as [|e events IH]; intros w.
  - exists w, []. split; [reflexivity | cbn; lia].
  - unfold endRun in *. cbn [forEach].
    destruct (endStep_run env beginRender e w Hbegin)
      as (outcome & w1 & c1 & Hstep & Hcases).
    unfold bind at 1. unfold bind at 1. rewrite Hstep. cbn.
    rewrite app_nil_r.
    destruct Hcases as [Hq | (sc & _ & _ & _ & _ & Hsum & Hst & Htd)].
    + destruct (IH w1) as (w2 & c2 & Hrun & Hlen). rewrite Hrun.
      exists w2, (c1 ++ c2). split; [reflexivity|].
      now rewrite summaryRequests_app, (summaryRequests_none _ Hq).
    + pose proof (endRun_settled env beginRender events w1 Hbegin Hst Htd) as Hrest.
      unfold endRun in Hrest. rewrite Hrest.
      exists w1, (c1 ++ []). split; [reflexivity|].
      rewrite app_nil_r, Hsum. cbn. lia.
Qed.

(** C10. [handleEndConversation] does nothing at all when the status it sees
    is [Summarizing]: it returns at once, the world (status, scenario,
    transcript, result and every ref) is the one it found and no call is
    made; so does the button, which carries the handler of the latest
    render, once the status is [Summarizing]. The callbacks of the session
    come from [handleBeginConversation], which is invoked from the briefing
    and the feedback screens, so the status that [onClose] sees is not
    [Active]. Then, in any interleaving of presses on the button and closes
    of the session, at most one request goes to the summarizer; when the
    user ends a conversation that has something to summarize, that request
    is the only one, and whatever follows leaves the world as that end left
    it; and once the status is [Summarizing] with the resources released, no
    event changes anything or makes any call. *)
Theorem end_conversation_noop_when_summarizing (env : Env)
    (beginRender : AppState) (events : list EndEvent) (w : World) :
  status beginRender <> Active ->
  (forall render : AppState,
      status render = Summarizing ->
      handleEndConversation env render w = (Normal Returned, w, []))
  /\ (status (state w) = Summarizing ->
      endStep env beginRender UserEnd w = (Normal Returned, w, []))
  /\ completion_of (endRun env beginRender events) w = Normal tt
  /\ (length (summaryRequests (calls_of (endRun env beginRender events) w)) <= 1)%nat
  /\ (status (state w) = Summarizing -> tornDown w ->
      endRun env beginRender events w = (Normal tt, w, []))
  /\ (forall sc : Scenario,
        status (state w) <> Summarizing ->
        scenario (state w) = Some sc ->
        transcript (state w) <> [] ->
        summaryRequests
          (calls_of (endRun env beginRender (UserEnd :: events)) w)
        = [SummarizeConversation sc (transcript (state w))]
        /\ world_after (endRun env beginRender (UserEnd :: events)) w
           = world_after (endStep env beginRender UserEnd) w).
Proof.
  intros Hbegin.
  split; [intros render Hst; unfold handleEndConversation; now rewrite Hst|].
  split; [intros Hst; cbn [endStep]; unfold bind, get, handleEndConversation;
          now rewrite Hst|].
  split; [|split; [|split; [now apply endRun_settled|]]].
  1,2: destruct (endRun_once env beginRender events w Hbegin)
         as (w' & calls & Hrun & Hlen);
       unfold completion_of, calls_of; rewrite Hrun; cbn [fst snd];
       first [reflexivity | exact Hlen].
  intros sc Hst Hsc Htr. unfold calls_of, world_after.
  destruct (endStep_run env beginRender UserEnd w Hbegin)
    as (outcome & w1 & c1 & Hstep & Hcases).
  destruct Hcases as [Hq | (sc' & _ & _ & Hsc' & _ & Hsum & Hst1 & Htd1)].
  - exfalso. cbn [endStep] in Hstep. unfold bind at 1 in Hstep.
    unfold get at 1 in Hstep.
    destruct (handleEndConversation_run env (state w) w Hst)
      as (o & w2 & rest & Hrun2 & _ & Hcases).
    rewrite Hrun2 in Hstep. cbn in Hstep.
    injection Hstep as _ _ <-.
    rewrite Hsc in Hcases.
    destruct (transcript (state w)) as [|entry tr]; [contradiction|].
    cbn in Hcases. destruct Hcases as (_ & -> & _).
    apply Forall_app in Hq as [_ Hq]. apply Forall_cons in Hq as [Hq _].
    discriminate Hq.
  - unfold endRun. cbn [forEach]. unfold bind at 1. unfold bind at 1.
    unfold bind at 2. unfold bind at 2.
    rewrite Hstep. cbn.
    pose proof (endRun_settled env beginRender events w1 Hbegin Hst1 Htd1) as Hrest.
    unfold endRun in Hrest. rewrite Hrest. cbn [fst snd].
    rewrite !app_nil_r, Hsum. split; [|reflexivity].
    rewrite Hsc in Hsc'. now injection Hsc' as <-.
Qed.

Lemma end_conversation_noop_when_summarizing_witness :
  status (demoRender Briefing) <> Active
  /\ status (state liveConversation) <> Summarizing
  /\ scenario (state liveConversation) = Some demoScenario
  /\ transcript (state liveConversation) <> []
  /\ summaryRequests
       (calls_of (endRun reliable (demoRender Briefing)
                    [UserEnd; RemoteClose; UserEnd; RemoteClose])
          liveConversation)
     = [SummarizeConversation demoScenario (transcript (state liveConversation))].
Proof.
  assert (Hbegin : status (demoRender Briefing) <> Active) by discriminate.
  assert (Hst : status (state liveConversation) <> Summarizing)
    by (vm_compute; discriminate).
  assert (Hsc : scenario (state liveConversation) = Some demoScenario)
    by (vm_compute; reflexivity).
  assert (Htr : transcript (state liveConversation) <> [])
    by (vm_compute; discriminate).
  repeat (split; [assumption|]).
  destruct (end_conversation_noop_when_summarizing reliable
              (demoRender Briefing) [RemoteClose; UserEnd; RemoteClose]
              liveConversation Hbegin) as (_ & _ & _ & _ & _ & H).
  exact (proj1 (H demoScenario Hst Hsc Htr)).
Defined.

(** The assumption on the render of the callbacks is needed: a callback
    [onClose] created under [Active] calls a [handleEndConversation] that
    still sees [Active], and asks for a second summary after the user's
    end. *)
Lemma close_seen_as_active_summarizes_again :
  length (summaryRequests
            (calls_of (endRun reliable (demoRender Active) [UserEnd; RemoteClose])
               liveConversation)) = 2%nat.
Proof. vm_compute. reflexivity. Qed.



Lemma max_time_bounds (a b : Q) : a <= max_time a b /\ b <= max_time a b.
Proof.
  unfold max_time. destruct (Qle_bool a b) eqn:E.
  - apply Qle_bool_iff in E. split; [exact E | apply Qle_refl].
  - split; [apply Qle_refl|].
    apply Qlt_le_weak, Qnot_le_lt. intros H.
    apply Qle_bool_iff in H. congruence.
Qed.

Lemma max_time_is_binary64 (a b : Q) :
  is_binary64 a -> is_binary64 b -> is_binary64 (max_time a b).
Proof. intros Ha Hb. unfold max_time. now destruct (Qle_bool a b). Qed.

Lemma startable_range (when : Q) :
  startable when = true -> 0 <= when /\ when < pow2 1024.
Proof.
  unfold startable. intros H. apply andb_prop in H as [H1 H2].
  apply Qle_bool_iff in H1. split; [exact H1|].
  apply Qnot_le_lt. intros H. apply Qle_bool_iff in H. now rewrite H in H2.
Qed.

Lemma one_frame_lasts : 0 < binary64 (1 # 24000).
Proof. vm_compute. reflexivity. Qed.

(** The duration of a decoded chunk is a positive double. *)
Lemma decodeAudioData_duration (bytes : list Z) (n : nat) (buf : AudioBuffer) :
  decodeAudioData bytes 24000 n = Some buf ->
  0 < duration buf /\ is_binary64 (duration buf).
Proof.
  unfold decodeAudioData.
  destruct (Nat.odd (length bytes)); [discriminate|].
  destruct (Nat.eqb_spec n 0) as [|_]; [discriminate|]. simpl orb.
  destruct (Nat.eqb_spec (length (Int16Array_of_bytes bytes) / n) 0) as [|Hf];
    [discriminate|].
  intros [= <-]. unfold duration. cbn [frames sampleRate].
  split; [|apply binary64_idempotent].
  eapply Qlt_le_trans; [exact one_frame_lasts|].
  apply binary64_mono. unfold Qle. simpl. lia.
Qed.

(** What one [playAudioChunk] does. Either the chunk does not get as far as
    a source: nothing is handed to the device and the clock and the active
    set stay as they are. Or a source is created and registered, the clock
    having been moved to [max(nextStartTime, currentTime)]: if [start]
    accepts that time the source is started at it and the clock moves to the
    end of the chunk, rounded; if not the clock stays there and nothing is
    handed to the device. *)
Lemma playAudioChunk_run (env : Env) (t : Q) (a : string) (w : World) :
  exists (c : Completion unit) (w' : World) (calls : list Call),
    playAudioChunk env t a w = (c, w', calls)
    /\ state w' = state w
    /\ ((schedule calls = []
         /\ nextStartTimeRef (refs w') = nextStartTimeRef (refs w)
         /\ audioSourcesRef (refs w') = audioSourcesRef (refs w)
         /\ created w' = created w)
        \/ (exists buf : AudioBuffer,
              0 < duration buf /\ is_binary64 (duration buf)
              /\ audioSourcesRef (refs w')
                 = set_add {| token := created w; buffer := buf |}
                           (audioSourcesRef (refs w))
              /\ created w' = S (created w)
              /\ outputAudioContextRef (refs w') <> None
              /\ if startable (max_time (nextStartTimeRef (refs w)) t)
                 then schedule calls
                      = [(max_time (nextStartTimeRef (refs w)) t, duration buf)]
                      /\ nextStartTimeRef (refs w')
                         = binary64 (max_time (nextStartTimeRef (refs w)) t
                                     + duration buf)
                 else schedule calls = []
                      /\ nextStartTimeRef (refs w')
                         = max_time (nextStartTimeRef (refs w)) t)).
Proof.
  unfold playAudioChunk.
  destruct w as [st [sv ls ic oc nst sp lst ms srcs] cr].
  unfold bind at 1. unfold get at 1. cbn [refs outputAudioContextRef].
  destruct oc as [[d rate cs]|].
  2:{ eexists _, _, _. split; [reflexivity|]. split; [reflexivity|]. left.
      repeat split. }
  destruct (String.eqb a "").
  { eexists _, _, _. split; [reflexivity|]. split; [reflexivity|]. left.
    repeat split. }
  destruct (decode a) as [bytes|] eqn:Hdec.
  2:{ destruct cs; [destruct (env (ContextResume Output)) eqn:Hres|..]; run_eff;
        rewrite ?Hres;
        (eexists _, _, _; split; [reflexivity|]; split; [reflexivity|]; left;
         repeat split). }
  destruct (decodeAudioData bytes 24000 1) as [buf|] eqn:Hbuf.
  2:{ destruct cs; [destruct (env (ContextResume Output)) eqn:Hres|..]; run_eff;
        rewrite ?Hres;
        (eexists _, _, _; split; [reflexivity|]; split; [reflexivity|]; left;
         repeat split). }
  destruct (decodeAudioData_duration _ _ _ Hbuf) as [Hpos Hdbl].
  destruct cs; [destruct (env (ContextResume Output)) eqn:Hres|..]; run_eff;
    rewrite ?Hres; cbn; destruct (startable (max_time nst t)) eqn:Hok; cbn.
  all: eexists _, _, _; split; [reflexivity|]; split; [reflexivity|].
  all: try (left; repeat split; fail).
  all: right; exists buf; rewrite ?Hok; repeat split; try assumption;
         discriminate.
Qed.

(** No event of the playback raises. *)
Lemma playbackStep_total (env : Env) (render : AppState) (e : PlaybackEvent)
    (w : World) :
  exists (w' : World) (calls : list Call),
    playbackStep env render e w = (Normal tt, w', calls).
Proof.
  destruct e as [a t | source]; cbn [playbackStep].
  - unfold onNpcAudio, detached, bind.
    destruct (when _ _ w) as [[[[]|] w0] t0] eqn:E;
      [|destruct (isNpcSpeaking render); discriminate].
    destruct (playAudioChunk env t a w0) as [[c w'] calls]. eauto.
  - unfold onended. run_eff.
    destruct (length _ =? 0)%nat; cbn; eauto.
Qed.

Lemma schedule_app (a b : list Call) : schedule (a ++ b) = schedule a ++ schedule b.
Proof.
  induction a as [|c a IH]; [reflexivity|].
  destruct c; simpl; rewrite ?IH; reflexivity.
Qed.

Lemma gapless_weaken (lb lb' : Q) (l : list (Q * Q)) :
  lb <= lb' -> gapless lb' l -> gapless lb l.
Proof.
  destruct l as [|[s d] l]; simpl; [trivial|].
  intros H (H1 & H2). split; [|exact H2].
  eapply Qle_trans; eassumption.
Qed.

Lemma gapless_app (lb : Q) (l1 l2 : list (Q * Q)) :
  gapless lb l1 -> gapless (finish lb l1) l2 -> gapless lb (l1 ++ l2).
Proof.
  revert lb. induction l1 as [|[s d] l1 IH]; intros lb; simpl; [trivial|].
  intros (H1 & H2 & H3 & H4 & H5 & H6) H7. repeat split; auto.
Qed.

Lemma finish_app (lb : Q) (l1 l2 : list (Q * Q)) :
  finish lb (l1 ++ l2) = finish (finish lb l1) l2.
Proof.
  revert lb. induction l1 as [|[s d] l1 IH]; intros lb; simpl; auto.
Qed.

Lemma finish_mono (lb lb' : Q) (l : list (Q * Q)) :
  lb <= lb' -> finish lb l <= finish lb' l.
Proof. destruct l as [|[s d] l]; simpl; [trivial | intros _; apply Qle_refl]. Qed.

Lemma onended_run (source : SourceNode) (w : World) :
  exists w' : World,
    onended source w = (Normal tt, w', [])
    /\ nextStartTimeRef (refs w') = nextStartTimeRef (refs w)
    /\ audioSourcesRef (refs w') = set_delete source (audioSourcesRef (refs w))
    /\ isNpcSpeaking (state w')
       = (if (length (set_delete source (audioSourcesRef (refs w))) =? 0)%nat
          then false else isNpcSpeaking (state w))
    /\ outputAudioContextRef (refs w') = outputAudioContextRef (refs w)
    /\ created w' = created w.
Proof.
  destruct w as [st [sv ls ic oc nst sp lst ms srcs] cr].
  unfold onended. run_eff.
  destruct (length (set_delete source srcs) =? 0)%nat; cbn;
    (eexists; split; [reflexivity|]; repeat split).
Qed.

(** One event keeps the clock a double, and what it hands to the device
    starts no earlier than the clock it found and ends no later than the
    clock it leaves. *)
Lemma playbackStep_run (env : Env) (render : AppState) (e : PlaybackEvent)
    (w : World) :
  is_binary64 (nextStartTimeRef (refs w)) ->
  readingIsDouble e ->
  exists (w' : World) (calls : list Call),
    playbackStep env render e w = (Normal tt, w', calls)
    /\ gapless (nextStartTimeRef (refs w)) (schedule calls)
    /\ finish (nextStartTimeRef (refs w)) (schedule calls)
       <= nextStartTimeRef (refs w')
    /\ is_binary64 (nextStartTimeRef (refs w')).
Proof.
  intros Hclock Hread.
  destruct e as [a t | source]; cbn [playbackStep readingIsDouble] in *.
  - unfold onNpcAudio.
    set (w0 := (when (negb (isNpcSpeaking render))
                     (setState (set_isNpcSpeaking true)) w).1.2).
    assert (Hw0 : when (negb (isNpcSpeaking render))
                    (setState (set_isNpcSpeaking true)) w = (Normal tt, w0, [])).
    { subst w0. destruct (isNpcSpeaking render); reflexivity. }
    assert (Hn : nextStartTimeRef (refs w0) = nextStartTimeRef (refs w)).
    { subst w0. destruct (isNpcSpeaking render); reflexivity. }
    rewrite (bind_run _ _ _ _ _ _ Hw0). unfold detached.
    destruct (playAudioChunk_run env t a w0) as (c & w' & calls & Hrun & _ & Hcases).
    rewrite Hrun. cbn. exists w', calls. split; [reflexivity|].
    rewrite <- Hn. rewrite <- Hn in Hclock.
    pose proof (max_time_is_binary64 _ _ Hclock Hread) as Hmax.
    destruct Hcases as [(Hs & Hnst & _) | (buf & Hpos & Hdbl & _ & _ & _ & Hstart)].
    + rewrite Hs, Hnst. cbn. split; [trivial|]. split; [apply Qle_refl | exact Hclock].
    + destruct (startable (max_time (nextStartTimeRef (refs w0)) t)) eqn:Hok;
        destruct Hstart as [Hs Hnst]; rewrite Hs, Hnst; cbn.
      * split; [|split; [apply Qle_refl | apply binary64_idempotent]].
        split; [apply max_time_bounds|].
        split; [now apply startable_range|]. now repeat split.
      * split; [trivial|]. split; [apply max_time_bounds | exact Hmax].
  - destruct (onended_run source w) as (w' & Hrun & Hnst & _).
    exists w', []. rewrite Hrun, Hnst. cbn.
    split; [reflexivity|]. split; [trivial|]. split; [apply Qle_refl | exact Hclock].
Qed.

Lemma playback_run (env : Env) (render : AppState) (events : list PlaybackEvent)
    (w : World) :
  is_binary64 (nextStartTimeRef (refs w)) ->
  Forall readingIsDouble events ->
  exists (w' : World) (calls : list Call),
    playback env render events w = (Normal tt, w', calls)
    /\ gapless (nextStartTimeRef (refs w)) (schedule calls)
    /\ finish (nextStartTimeRef (refs w)) (schedule calls)
       <= nextStartTimeRef (refs w')
    /\ is_binary64 (nextStartTimeRef (refs w')).
Proof.
  intros Hclock Hread. revert w Hclock.
  induction Hread as [|e events He Hread IH]; intros w Hclock.
  - exists w, []. cbn. split; [reflexivity|]. split; [trivial|].
    split; [apply Qle_refl | exact Hclock].
  - unfold playback in *. cbn [forEach].
    destruct (playbackStep_run env render e w Hclock He)
      as (w1 & c1 & Hrun1 & Hg1 & Hf1 & Hc1).
    destruct (IH w1 Hc1) as (w2 & c2 & Hrun2 & Hg2 & Hf2 & Hc2).
    rewrite (bind_run _ _ _ _ _ _ Hrun1), Hrun2.
    exists w2, (c1 ++ c2). split; [reflexivity|].
    rewrite schedule_app, finish_app. split; [|split; [|exact Hc2]].
    + apply gapless_app; [exact Hg1|]. eapply gapless_weaken; eassumption.
    + eapply Qle_trans; [|exact Hf2]. now apply finish_mono.
Qed.

(** Two chunks in a row of a gapless schedule: the second starts no earlier
    than the first, no earlier than the end of the first as the clock
    computes it, and so at most one rounding error before its exact end. *)
Lemma gapless_consecutive (lb : Q) (l : list (Q * Q)) (i : nat)
    (s1 d1 s2 d2 : Q) :
  gapless lb l ->
  l !! i = Some (s1, d1) -> l !! S i = Some (s2, d2) ->
  s1 <= s2
  /\ binary64 (s1 + d1) <= s2
  /\ s1 + d1 - (s1 + d1) * pow2 (-53) <= s2.
Proof.
  revert lb i. induction l as [|[s d] l IH]; intros lb i Hg H1 H2; [discriminate|].
  destruct Hg as (Hlb & Hs0 & Hs & Hd0 & Hd & Hg).
  destruct i as [|i].
  - cbn in H1. injection H1 as -> ->.
    destruct l as [|[s' d'] l]; [discriminate|].
    cbn in H2. injection H2 as -> ->.
    destruct Hg as (Hle & _).
    pose proof (binary64_add_ge s1 d1 Hs ltac:(lra)) as Hge.
    destruct (binary64_sum_error s1 d1 Hs Hd ltac:(lra)) as [Herr _].
    repeat split; lra.
  - cbn in H1, H2. eapply IH; eassumption.
Qed.

(** C3 (as the code has it). In any run of playback events whose clock
    readings are doubles, of the chunks handed to the device (start time,
    duration) each one starts no earlier than the one before it, and no
    earlier than the end of the one before it as the clock computes it: the
    double nearest to [start + duration]. So it starts at most one rounding
    error, [2^-53] of that end, before the exact end. Chunks keep their
    arrival order. *)
Theorem chunks_play_in_arrival_order (env : Env) (render : AppState)
    (events : list PlaybackEvent) (w : World) (i : nat) (s1 d1 s2 d2 : Q) :
  is_binary64 (nextStartTimeRef (refs w)) ->
  Forall readingIsDouble events ->
  schedule (calls_of (playback env render events) w) !! i = Some (s1, d1) ->
  schedule (calls_of (playback env render events) w) !! S i = Some (s2, d2) ->
  s1 <= s2
  /\ binary64 (s1 + d1) <= s2
  /\ s1 + d1 - (s1 + d1) * pow2 (-53) <= s2.
Proof.
  intros Hclock Hread.
  destruct (playback_run env render events w Hclock Hread)
    as (w' & calls & Hrun & Hg & _).
  unfold calls_of. rewrite Hrun. cbn.
  apply (gapless_consecutive _ _ _ _ _ _ _ Hg).
Qed.

Lemma chunks_play_in_arrival_order_witness :
  is_binary64 (nextStartTimeRef (refs conversationStarted))
  /\ Forall readingIsDouble
       [NpcAudio "AEAAgP9/" 0; NpcAudio "AEAAgP9/" (1 # 2); NpcAudio "AAAAAA==" 0]
  /\ schedule (calls_of (playback reliable initialState
                           [NpcAudio "AEAAgP9/" 0; NpcAudio "AEAAgP9/" (1 # 2);
                            NpcAudio "AAAAAA==" 0])
                 conversationStarted) !! 1%nat
     = Some (1 # 2, binary64 (3 # 24000))
  /\ schedule (calls_of (playback reliable initialState
                           [NpcAudio "AEAAgP9/" 0; NpcAudio "AEAAgP9/" (1 # 2);
                            NpcAudio "AAAAAA==" 0])
                 conversationStarted) !! 2%nat
     = Some (binary64 ((1 # 2) + binary64 (3 # 24000)), binary64 (2 # 24000))
  /\ (1 # 2) <= binary64 ((1 # 2) + binary64 (3 # 24000))
  /\ binary64 ((1 # 2) + binary64 (3 # 24000))
     <= binary64 ((1 # 2) + binary64 (3 # 24000)).
Proof.
  assert (Hclock : is_binary64 (nextStartTimeRef (refs conversationStarted)))
    by (vm_compute; reflexivity).
  assert (Hread : Forall readingIsDouble
            [NpcAudio "AEAAgP9/" 0; NpcAudio "AEAAgP9/" (1 # 2);
             NpcAudio "AAAAAA==" 0])
    by (repeat constructor; vm_compute; reflexivity).
  assert (H1 : schedule (calls_of (playback reliable initialState
                           [NpcAudio "AEAAgP9/" 0; NpcAudio "AEAAgP9/" (1 # 2);
                            NpcAudio "AAAAAA==" 0])
                 conversationStarted) !! 1%nat
               = Some (1 # 2, binary64 (3 # 24000)))
    by (vm_compute; reflexivity).
  assert (H2 : schedule (calls_of (playback reliable initialState
                           [NpcAudio "AEAAgP9/" 0; NpcAudio "AEAAgP9/" (1 # 2);
                            NpcAudio "AAAAAA==" 0])
                 conversationStarted) !! 2%nat
               = Some (binary64 ((1 # 2) + binary64 (3 # 24000)),
                       binary64 (2 # 24000)))
    by (vm_compute; reflexivity).
  split; [exact Hclock|]. split; [exact Hread|].
  split; [exact H1|]. split; [exact H2|].
  destruct (chunks_play_in_arrival_order reliable initialState _
              conversationStarted 1%nat _ _ _ _ Hclock Hread H1 H2)
    as (Ha & Hb & _).
  split; [exact Ha | exact Hb].
Defined.

(** The inequality of the claim read over the exact sum fails: of five
    chunks of two frames arriving at once, the fifth is started a rounding
    error before the exact end of the fourth, whether the fourth is given
    the duration its buffer reports or the 2/24000 s it has. *)
Lemma chunks_overlap_by_a_rounding :
  exists s1 d1 s2 d2 : Q,
    schedule (calls_of (playback reliable initialState
                          [NpcAudio "AAAAAA==" 0; NpcAudio "AAAAAA==" 0;
                           NpcAudio "AAAAAA==" 0; NpcAudio "AAAAAA==" 0;
                           NpcAudio "AAAAAA==" 0])
                conversationStarted) !! 3%nat = Some (s1, d1)
    /\ schedule (calls_of (playback reliable initialState
                             [NpcAudio "AAAAAA==" 0; NpcAudio "AAAAAA==" 0;
                              NpcAudio "AAAAAA==" 0; NpcAudio "AAAAAA==" 0;
                              NpcAudio "AAAAAA==" 0])
                   conversationStarted) !! 4%nat = Some (s2, d2)
    /\ ~ (s1 + d1 <= s2)
    /\ ~ (s1 + (2 # 24000) <= s2).
Proof.
  eexists _, _, _, _. split; [vm_compute; reflexivity|].
  split; [vm_compute; reflexivity|].
  split; vm_compute; intros H; apply H; reflexivity.
Qed.


Lemma set_add_nonempty (x : SourceNode) (l : list SourceNode) :
  (length (set_add x l) =? 0)%nat = false.
Proof.
  unfold set_add. destruct l as [|y l]; [reflexivity|].
  destruct (existsb (same_node x) (y :: l)); [reflexivity|].
  rewrite length_app. simpl. reflexivity.
Qed.

Lemma set_delete_nonempty (x : SourceNode) (l : list SourceNode) :
  (length (set_delete x l) =? 0)%nat = false -> (length l =? 0)%nat = false.
Proof. destruct l; [discriminate | reflexivity]. Qed.

Lemma playAudioChunk_playable (env : Env) (t : Q) (a : string) (w : World) :
  env (ContextResume Output) = false ->
  outputAudioContextRef (refs w) <> None ->
  playable a = true ->
  exists (w' : World) (calls : list Call) (buf : AudioBuffer),
    playAudioChunk env t a w = (Normal tt, w', calls)
    /\ state w' = state w
    /\ outputAudioContextRef (refs w') <> None
    /\ audioSourcesRef (refs w')
       = set_add {| token := created w; buffer := buf |}
                 (audioSourcesRef (refs w)).
Proof.
  intros Henv Hctx Hplay. unfold playAudioChunk.
  destruct w as [st [sv ls ic oc nst sp lst ms srcs] cr].
  unfold bind at 1. unfold get at 1. cbn [refs outputAudioContextRef] in *.
  destruct oc as [[d rate cs]|]; [|contradiction].
  destruct (String.eqb_spec a "") as [->|_]; [discriminate|].
  unfold playable in Hplay.
  destruct (decode a) as [bytes|]; [|discriminate].
  destruct (decodeAudioData bytes 24000 1) as [buf|]; [|discriminate].
  destruct cs; run_eff; rewrite ?Henv; cbn;
    destruct (startable (max_time nst t)); cbn;
    (eexists _, _, buf; split; [reflexivity|]; repeat split; discriminate).
Qed.

Lemma playbackStep_flag (env : Env) (render : AppState) (e : PlaybackEvent)
    (w : World) :
  isNpcSpeaking render = false ->
  env (ContextResume Output) = false ->
  outputAudioContextRef (refs w) <> None ->
  playableEvent e = true ->
  flagTracksSources w ->
  flagTracksSources (world_after (playbackStep env render e) w)
  /\ outputAudioContextRef (refs (world_after (playbackStep env render e) w)) <> None.
Proof.
  intros Hrender Henv Hctx Hplay Hinv. unfold world_after, flagTracksSources in *.
  destruct e as [a t | source]; cbn [playbackStep playableEvent] in *.
  - unfold onNpcAudio. rewrite Hrender. cbn [negb when].
    rewrite (bind_run _ _ _ _ _ _ eq_refl). unfold detached.
    destruct (playAudioChunk_playable env t a
                (with_state (set_isNpcSpeaking true) w) Henv Hctx Hplay)
      as (w' & calls & buf & Hrun & Hst & Hctx' & Hsrc).
    rewrite Hrun. cbn. rewrite Hst, Hsrc, set_add_nonempty.
    split; [reflexivity | exact Hctx'].
  - destruct (onended_run source w) as (w' & Hrun & _ & Hsrc & Hflag & Hctx' & _).
    rewrite Hrun. cbn. rewrite Hflag, Hsrc, Hctx'. split; [|exact Hctx].
    destruct (length (set_delete source (audioSourcesRef (refs w))) =? 0)%nat eqn:E;
      [reflexivity|].
    rewrite Hinv. now rewrite (set_delete_nonempty _ _ E).
Qed.

(** As long as every chunk decodes, the flag does track the active set. *)
Lemma playback_flag (env : Env) (render : AppState) (events : list PlaybackEvent)
    (w : World) :
  isNpcSpeaking render = false ->
  env (ContextResume Output) = false ->
  outputAudioContextRef (refs w) <> None ->
  forallb playableEvent events = true ->
  flagTracksSources w ->
  flagTracksSources (world_after (playback env render events) w).
Proof.
  intros Hrender Henv. revert w.
  induction events as [|e events IH]; intros w Hctx Hall Hinv; [exact Hinv|].
  cbn [forallb] in Hall. apply andb_prop in Hall as [He Hall].
  destruct (playbackStep_flag env render e w Hrender Henv Hctx He Hinv)
    as [Hinv1 Hctx1].
  specialize (IH _ Hctx1 Hall Hinv1).
  unfold playback, world_after in *. cbn [forEach].
  destruct (playbackStep_total env render e w) as (w1 & c1 & Hrun1).
  rewrite (bind_run _ _ _ _ _ _ Hrun1). rewrite Hrun1 in IH. cbn in IH.
  destruct (forEach (playbackStep env render) events w1) as [[c2 w2] t2].
  exact IH.
Qed.

Lemma filter_stops_of_stops (l : list SourceNode) :
  List.filter is_stop (map SourceStop l) = map SourceStop l.
Proof. induction l as [|s l IH]; cbn; [reflexivity | now rewrite IH]. Qed.

Lemma filter_stops_of_tracks (l : list nat) :
  List.filter is_stop (map TrackStop l) = [].
Proof. induction l as [|s l IH]; cbn; [reflexivity | exact IH]. Qed.

Lemma filter_stops_of_attempts (env : Env) (l : list SourceNode) :
  List.filter is_stop (stopsAttempted env l) = stopsAttempted env l.
Proof.
  induction l as [|s l IH]; cbn; [reflexivity|].
  destruct (env (SourceStop s)); [reflexivity | now rewrite IH].
Qed.

Lemma cleanupCalls_stops (env : Env) (w : World) :
  List.filter is_stop (cleanupCalls env w)
  = stopsAttempted env (audioSourcesRef (refs w)).
Proof.
  unfold cleanupCalls.
  rewrite !List.filter_app, filter_stops_of_attempts.
  assert (H1 : forall {A} (f : A -> Call) (o : option A),
             (forall a, is_stop (f a) = false) ->
             List.filter is_stop (call_on f o) = []).
  { intros A f [a|] Hf; cbn; [now rewrite Hf | reflexivity]. }
  assert (H2 : forall d o, List.filter is_stop (close_of d o) = []).
  { intros d [c|]; cbn; [destruct (is_closed c)|]; reflexivity. }
  rewrite !H1, !H2 by reflexivity.
  destruct (localStreamRef (refs w)); [rewrite filter_stops_of_tracks|];
    cbn; now rewrite app_nil_r.
Qed.

Lemma repeatedly_cleanup_run (env : Env) (n : nat) (w : World) :
  repeatedly n (cleanupAudioAndSession env) (cleanedWorld w)
  = (Normal tt, cleanedWorld w, []).
Proof.
  induction n as [|n IH]; [reflexivity|].
  cbn [repeatedly].
  rewrite (bind_run _ _ _ _ _ _ (cleanup_run env (cleanedWorld w))).
  rewrite cleanedWorld_idem, IH.
  now rewrite (cleanupCalls_tornDown env _ (cleanedWorld_tornDown w)).
Qed.

(** C2 (as the code has it). [cleanupAudioAndSession] always completes. It
    calls [stop()] on the active sources in insertion order, up to the first
    call that raises, hence on every one of them when none raises; the
    active set is empty afterwards; [nextStartTime] is left as it was; any
    number of further teardowns complete, make no call and leave the world of
    the first one. The clock is reset to 0 elsewhere, by
    [handleBeginConversation] when it creates the next output context. A
    world without active sources is one instance. *)
Theorem cleanup_halts_playback (env : Env) (w : World) :
  completion_of (cleanupAudioAndSession env) w = Normal tt
  /\ List.filter is_stop (calls_of (cleanupAudioAndSession env) w)
     = stopsAttempted env (audioSourcesRef (refs w))
  /\ ((forall s, In s (audioSourcesRef (refs w)) -> env (SourceStop s) = false) ->
      List.filter is_stop (calls_of (cleanupAudioAndSession env) w)
      = map SourceStop (audioSourcesRef (refs w)))
  /\ audioSourcesRef (refs (world_after (cleanupAudioAndSession env) w)) = []
  /\ nextStartTimeRef (refs (world_after (cleanupAudioAndSession env) w))
     = nextStartTimeRef (refs w)
  /\ (forall n : nat,
        repeatedly n (cleanupAudioAndSession env)
          (world_after (cleanupAudioAndSession env) w)
        = (Normal tt, world_after (cleanupAudioAndSession env) w, []))
  /\ (forall stream source processor inState outState w0,
        nextStartTimeRef
          (refs (world_after
                   (handleBeginConversation_audioSetup stream source processor
                      inState outState) w0)) = 0).
Proof.
  unfold completion_of, calls_of, world_after.
  rewrite (cleanup_run env w). cbn [fst snd].
  split; [reflexivity|]. split; [apply cleanupCalls_stops|].
  split; [intros Henv; rewrite cleanupCalls_stops; now apply stopsAttempted_all|].
  split; [reflexivity|]. split; [reflexivity|].
  split; [intros n; apply repeatedly_cleanup_run|].
  intros. reflexivity.
Qed.

Lemma cleanup_halts_playback_witness :
  (forall s,
      In s (audioSourcesRef
              (refs (world_after
                       (playback reliable initialState
                          [NpcAudio "AEAAgP9/" 0; NpcAudio "AEAAgP9/" 0])
                       conversationStarted))) ->
      reliable (SourceStop s) = false)
  /\ List.filter is_stop
       (calls_of (cleanupAudioAndSession reliable)
          (world_after
             (playback reliable initialState
                [NpcAudio "AEAAgP9/" 0; NpcAudio "AEAAgP9/" 0])
             conversationStarted))
     = map SourceStop
         (audioSourcesRef
            (refs (world_after
                     (playback reliable initialState
                        [NpcAudio "AEAAgP9/" 0; NpcAudio "AEAAgP9/" 0])
                     conversationStarted))).
Proof.
  split; [reflexivity|].
  apply (cleanup_halts_playback reliable
           (world_after
              (playback reliable initialState
                 [NpcAudio "AEAAgP9/" 0; NpcAudio "AEAAgP9/" 0])
              conversationStarted)).
  reflexivity.
Defined.

(** After one chunk of three frames the clock stands at the double nearest
    to 3/24000 s, and it still does after the teardown. *)
Lemma cleanup_keeps_the_clock :
  ~ (nextStartTimeRef
       (refs (world_after (cleanupAudioAndSession reliable)
                (world_after
                   (playback reliable initialState [NpcAudio "AEAAgP9/" 0])
                   conversationStarted)))
     == 0).
Proof. vm_compute. discriminate. Qed.

(** A chunk that does not decode changes neither the state nor the active
    set, whatever else happens in [playAudioChunk]. *)
Lemma playAudioChunk_unplayable (env : Env) (t : Q) (a : string) (w : World) :
  playable a = false ->
  state (world_after (playAudioChunk env t a) w) = state w
  /\ audioSourcesRef (refs (world_after (playAudioChunk env t a) w))
     = audioSourcesRef (refs w).
Proof.
  intros Hplay. unfold world_after, playAudioChunk.
  destruct w as [st [sv ls ic oc nst sp lst ms srcs] cr].
  unfold bind at 1. unfold get at 1. cbn [refs outputAudioContextRef] in *.
  destruct oc as [[d rate cs]|]; [|split; reflexivity].
  destruct (String.eqb a ""); [split; reflexivity|].
  unfold playable in Hplay.
  destruct (decode a) as [bytes|].
  - destruct (decodeAudioData bytes 24000 1) as [buf|]; [discriminate|].
    destruct cs; [destruct (env (ContextResume Output)) eqn:Hres|..]; run_eff;
      rewrite ?Hres; split; reflexivity.
  - destruct cs; [destruct (env (ContextResume Output)) eqn:Hres|..]; run_eff;
      rewrite ?Hres; split; reflexivity.
Qed.

(** So whenever such a chunk arrives while nothing is playing, the flag goes
    up over an empty active set. *)
Lemma bad_chunk_raises_flag_only (env : Env) (render : AppState) (t : Q)
    (a : string) (w : World) :
  isNpcSpeaking render = false ->
  playable a = false ->
  audioSourcesRef (refs w) = [] ->
  isNpcSpeaking (state (world_after (onNpcAudio env render t a) w)) = true
  /\ audioSourcesRef (refs (world_after (onNpcAudio env render t a) w)) = [].
Proof.
  intros Hrender Hplay Hempty.
  destruct (playAudioChunk_unplayable env t a
              (with_state (set_isNpcSpeaking true) w) Hplay) as [Hst Hsrc].
  unfold world_after, onNpcAudio in *. rewrite Hrender. cbn [negb when].
  rewrite (bind_run _ _ _ _ _ _ eq_refl). unfold detached.
  destruct (playAudioChunk env t a (with_state (set_isNpcSpeaking true) w))
    as [[c w'] calls]. cbn in *.
  rewrite Hst, Hsrc. split; [reflexivity | exact Hempty].
Qed.

(** C1 (failing input). The chunk ["AA=="] is valid base64 for one byte,
    which is no whole 16-bit sample, so [decodeAudioData] raises and nothing
    is scheduled; [onNpcAudio] has raised the flag before, and nothing lowers
    it: the flag is true while the active set is empty. *)
Theorem speaking_flag_outlives_bad_chunk :
  decode "AA==" = Some [0%Z]
  /\ decodeAudioData [0%Z] 24000 1 = None
  /\ isNpcSpeaking
       (state (world_after (playback reliable initialState [NpcAudio "AA==" 0])
                 conversationStarted)) = true
  /\ audioSourcesRef
       (refs (world_after (playback reliable initialState [NpcAudio "AA==" 0])
                conversationStarted)) = [].
Proof. repeat split. Qed.

End AppFacts.

(** ** More on the audio codec *)

Module CodecMore.
Import Codec CodecFacts CodecTerms.
Local Open Scope Z_scope.

Lemma length_string_of_list (l : list ascii) :
  String.length (String.string_of_list_ascii l) = length l.
Proof. induction l as [|c l IH]; cbn; [reflexivity | now rewrite IH]. Qed.

Lemma list_ascii_of_append (a b : string) :
  String.list_ascii_of_string (a +:+ b)
  = String.list_ascii_of_string a ++ String.list_ascii_of_string b.
Proof.
  induction a as [|c a IH]; [reflexivity|].
  change (String c a +:+ b) with (String c (a +:+ b)). cbn. now rewrite IH.
Qed.

Lemma sextets_count (bytes : list Z) :
  (length (sextets bytes) + length (padding (length bytes))
   = 4 * ((length bytes + 2) / 3))%nat.
Proof.
  induction bytes as [| a | a b | a b c rest IH] using list_triple_ind;
    try reflexivity.
  cbn [sextets length]. rewrite padding_step.
  replace (S (S (S (length rest))) + 2)%nat with (length rest + 2 + 1 * 3)%nat by lia.
  rewrite Nat.div_add by lia. lia.
Qed.

Lemma Uint8Array_view_length (int16 : list Z) :
  length (Uint8Array_of_Int16Array int16) = (2 * length int16)%nat.
Proof.
  unfold Uint8Array_of_Int16Array.
  induction int16 as [|v l IH]; [reflexivity|].
  change (flat_map int16_bytes (v :: l))
    with (int16_bytes v ++ flat_map int16_bytes l).
  rewrite length_app, IH. cbn. lia.
Qed.

Lemma sextet_char_base64 (n : Z) : base64Char (sextet_char n).
Proof.
  unfold sextet_char, base64Char.
  destruct (Nat.lt_ge_cases (Z.to_nat n) (length alphabet)) as [H|H].
  - left. now apply nth_In.
  - right. now apply nth_overflow.
Qed.

(** X2. The payload of [createBlob] for [n] samples is [4 * ceil(2n / 3)]
    characters long, all of them base64 letters or padding. *)
Theorem createBlob_payload_size (samples : list Number) :
  String.length (data (createBlob samples))
  = (4 * ((2 * length samples + 2) / 3))%nat
  /\ Forall base64Char (String.list_ascii_of_string (data (createBlob samples))).
Proof.
  unfold createBlob, encode. cbn [data]. rewrite list_ascii_of_btoa. split.
  - unfold btoa. rewrite length_string_of_list, length_app, length_map.
    rewrite sextets_count, Uint8Array_view_length, length_map. reflexivity.
  - apply Forall_app. split.
    + apply Forall_map, Forall_true. intros n. apply sextet_char_base64.
    + unfold padding. destruct (_ mod 3)%nat as [|[|[|k]]];
        repeat constructor; now right.
Qed.

(** X1. [decode] of the application undoes [encode] of the service on every
    byte string, so [encode] never maps two byte strings to one text. *)
Theorem decode_inverts_encode (bytes : list Z) :
  Forall is_byte bytes ->
  decode (encode bytes) = Some bytes
  /\ (forall other : list Z,
        Forall is_byte other -> encode other = encode bytes -> other = bytes).
Proof.
  intros Hb. unfold decode, encode. split; [now apply atob_btoa|].
  intros other Ho Heq.
  apply atob_btoa in Hb, Ho. rewrite Heq in Ho. congruence.
Qed.

Lemma decode_inverts_encode_witness :
  Forall is_byte [72; 105; 255]
  /\ decode (encode [72; 105; 255]) = Some [72; 105; 255].
Proof.
  assert (H : Forall is_byte [72; 105; 255]).
  { repeat constructor; unfold is_byte; lia. }
  split; [exact H|]. apply (decode_inverts_encode [72; 105; 255] H).
Defined.

Lemma filter_whitespace_app (a w b : list ascii) :
  Forall (fun c => is_whitespace c = true) w ->
  filter (fun c => negb (is_whitespace c)) (a ++ w ++ b)
  = filter (fun c => negb (is_whitespace c)) (a ++ b).
Proof.
  intros Hw. rewrite !filter_app. f_equal.
  replace (filter (fun c => negb (is_whitespace c)) w) with (@nil ascii);
    [reflexivity|].
  induction Hw as [|c w Hc _ IH]; [reflexivity|].
  rewrite filter_cons. rewrite Hc. cbn. exact IH.
Qed.

(** X3. [decode] does not see ASCII whitespace: a run of it anywhere in the
    text changes nothing. *)
Theorem decode_ignores_whitespace (a w b : string) :
  Forall (fun c => is_whitespace c = true) (String.list_ascii_of_string w) ->
  decode (a +:+ w +:+ b) = decode (a +:+ b).
Proof.
  intros Hw. unfold decode, atob.
  rewrite !list_ascii_of_append. now rewrite filter_whitespace_app.
Qed.

Lemma decode_ignores_whitespace_witness :
  Forall (fun c => is_whitespace c = true)
    (String.list_ascii_of_string (String "010"%char " "))
  /\ decode ("TW" +:+ String "010"%char " " +:+ "Fu") = Some [77; 97; 110].
Proof.
  split; [repeat constructor|].
  rewrite (decode_ignores_whitespace "TW" (String "010"%char " ") "Fu");
    [reflexivity | repeat constructor].
Defined.

Lemma mapM_fails {A B} (f : A -> option B) (l : list A) (x : A) :
  In x l -> f x = None -> mapM f l = None.
Proof.
  induction l as [|y l IH]; intros Hin Hx; [contradiction|].
  cbn. destruct Hin as [->|Hin].
  - now rewrite Hx.
  - destruct (f y); [|reflexivity]. cbn. now rewrite (IH Hin Hx).
Qed.

Lemma strip_padding_keeps (cs : list ascii) (c : ascii) :
  In c cs -> c <> pad -> In c (strip_padding cs).
Proof.
  intros Hin Hc. unfold strip_padding.
  destruct (length cs mod 4 =? 0)%nat; [|exact Hin].
  assert (Hrev : In c (rev cs)) by now apply in_rev in Hin.
  destruct (rev cs) as [|p [|q r]] eqn:E; [exact Hin | |].
  - destruct (Ascii.eqb_spec p pad) as [->|_]; [|exact Hin].
    destruct Hrev as [<-|[]]. contradiction.
  - destruct (Ascii.eqb_spec p pad) as [->|_]; [|exact Hin].
    destruct Hrev as [<-|Hrev]; [contradiction|].
    destruct (Ascii.eqb_spec q pad) as [->|_].
    + destruct Hrev as [<-|Hrev]; [contradiction|]. now apply in_rev in Hrev.
    + now apply in_rev in Hrev.
Qed.

(** X4. [decode] fails on every text that holds a character which is neither
    whitespace, nor the padding sign, nor a base64 letter. *)
Theorem decode_rejects_foreign_characters (base64 : string) (c : ascii) :
  In c (String.list_ascii_of_string base64) ->
  is_whitespace c = false -> c <> pad -> char_sextet c = None ->
  decode base64 = None.
Proof.
  intros Hin Hws Hpad Hchar. unfold decode, atob.
  set (cs := strip_padding _).
  assert (Hc : In c cs).
  { subst cs. apply strip_padding_keeps; [|exact Hpad].
    apply list_elem_of_In, list_elem_of_filter. split.
    - now rewrite Hws.
    - now apply list_elem_of_In. }
  destruct (length cs mod 4 =? 1)%nat; [reflexivity|].
  now rewrite (mapM_fails _ _ _ Hc Hchar).
Qed.

Lemma decode_rejects_foreign_characters_witness :
  In "!"%char (String.list_ascii_of_string "TW!u")
  /\ decode "TW!u" = None.
Proof.
  split; [cbn; auto|].
  apply (decode_rejects_foreign_characters "TW!u" "!"%char);
    [cbn; auto | reflexivity | discriminate | reflexivity].
Defined.

Lemma over_unit (s : Z) : is_int16 s -> unitSample (over s 32768).
Proof. unfold is_int16, unitSample, over, Qle, Qlt. cbn. lia. Qed.

(** X5. Called as the application calls it (rate 24000, one channel),
    [decodeAudioData] raises exactly on a buffer of odd length, which is no
    sequence of whole samples, and on the empty buffer, which has no frame.
    Otherwise it returns one channel with one frame per pair of bytes: the
    frame is the 16-bit little-endian value of the pair over 32768, hence
    finite and in [-1, 1), and the buffer lasts a positive time that is a
    double. *)
Theorem decodeAudioData_shape (bytes : list Z) :
  match decodeAudioData bytes 24000 1 with
  | Some buf =>
      Nat.odd (length bytes) = false /\ bytes <> []
      /\ numberOfChannels buf = 1%nat
      /\ frames buf = (length bytes / 2)%nat
      /\ sampleRate buf = 24000%positive
      /\ channelData buf
         = [map (fun v => over v 32768) (Int16Array_of_bytes bytes)]
      /\ Forall (Forall unitSample) (channelData buf)
      /\ (0 < duration buf)%Q
  | None => Nat.odd (length bytes) = true \/ bytes = []
  end.
Proof.
  destruct (Nat.odd (length bytes)) eqn:Hodd.
  { unfold decodeAudioData. rewrite Hodd. now left. }
  destruct bytes as [|b0 rest] eqn:Hbytes.
  { cbn. now right. }
  rewrite <- Hbytes in *.
  assert (Hne : bytes <> []) by (rewrite Hbytes; discriminate).
  rewrite (decodeAudioData_mono bytes 24000 Hodd Hne).
  cbn [numberOfChannels frames sampleRate channelData].
  split; [reflexivity|]. split; [exact Hne|]. split; [reflexivity|].
  split; [apply Int16Array_length|]. split; [reflexivity|].
  split; [reflexivity|]. split.
  - constructor; [|constructor].
    apply Forall_map. eapply Forall_impl; [apply Int16Array_in_range|].
    intros v Hv. now apply over_unit.
  - apply (AppFacts.decodeAudioData_duration bytes 1).
    apply (decodeAudioData_mono bytes 24000 Hodd Hne).
Qed.

(** X6. What [createBlob] sends, [decode] and [decodeAudioData] read back as
    one channel holding, frame by frame, the 16-bit value of each sample over
    32768. *)
Theorem createBlob_loops_back (samples : list Number) :
  samples <> [] ->
  exists bytes : list Z,
    decode (data (createBlob samples)) = Some bytes
    /\ decodeAudioData bytes 24000 1
       = Some {| numberOfChannels := 1;
                 frames := length samples;
                 sampleRate := 24000;
                 channelData :=
                   [map (fun x => over (quantize x) 32768) samples] |}.
Proof.
  intros Hne. exists (Uint8Array_of_Int16Array (map quantize samples)).
  split.
  - unfold decode, createBlob, encode. cbn [data].
    apply atob_btoa, Uint8Array_view_are_bytes.
  - rewrite decodeAudioData_mono.
    + rewrite Int16Array_view_of_bytes, !map_map, !length_map.
      do 3 f_equal. apply map_ext. intros x.
      now rewrite (wrap16_id _ (quantize_in_range x)).
    + rewrite Uint8Array_view_length. now rewrite Nat.odd_mul.
    + destruct samples; [contradiction | discriminate].
Qed.

Lemma createBlob_loops_back_witness :
  [Finite (1 # 2); NaN] <> []
  /\ exists bytes : list Z,
       decode (data (createBlob [Finite (1 # 2); NaN])) = Some bytes
       /\ decodeAudioData bytes 24000 1
          = Some {| numberOfChannels := 1; frames := 2; sampleRate := 24000;
                    channelData := [[Finite (16384 # 32768); Finite (0 # 32768)]] |}.
Proof.
  split; [discriminate|].
  apply (createBlob_loops_back [Finite (1 # 2); NaN]). discriminate.
Defined.

End CodecMore.

(** ** More on the transcript *)

Module TranscriptMore.
Import Reconciler ReconcilerFacts TranscriptRuns.

Lemma onTranscriptUpdate_nil (g : Transcript) : onTranscriptUpdate g [] = [g].
Proof. reflexivity. Qed.

Lemma onTranscriptUpdate_snoc (g e : Transcript) (p : list Transcript) :
  onTranscriptUpdate g (p ++ [e])
  = if Speaker_eqb (speaker e) (speaker g) && negb (isFinal e)
    then p ++ [extend e g] else p ++ [e; g].
Proof.
  destruct (Speaker_eqb (speaker e) (speaker g) && negb (isFinal e)) eqn:E.
  - apply andb_prop in E as [Hs Hf]. apply Speaker_eqb_eq in Hs.
    apply negb_true_iff in Hf. now apply onTranscriptUpdate_grow.
  - rewrite onTranscriptUpdate_push; [now rewrite <- app_assoc|].
    unfold closedFor. rewrite last_snoc.
    apply andb_false_iff in E as [Hs|Hf].
    + right. intros H. apply Speaker_eqb_eq in H. congruence.
    + left. now apply negb_false_iff in Hf.
Qed.

Lemma concatTexts_app (a b : list Transcript) :
  concatTexts (a ++ b) = concatTexts a +:+ concatTexts b.
Proof.
  induction a as [|e a IH]; [reflexivity|].
  cbn [app concatTexts foldr]. fold (concatTexts (a ++ b)). rewrite IH.
  fold (concatTexts a). now rewrite append_assoc.
Qed.

Lemma allText_update (g : Transcript) (prev : list Transcript) :
  allText (onTranscriptUpdate g prev) = allText prev +:+ text g.
Proof.
  unfold allText.
  destruct prev as [|e p _] using rev_ind.
  - cbn. now rewrite append_empty_r.
  - rewrite onTranscriptUpdate_snoc.
    destruct (_ && _); rewrite !concatTexts_app; cbn;
      rewrite ?append_empty_r, ?append_assoc; reflexivity.
Qed.

Lemma allText_turn (t : list Transcript) : allText (onTurnComplete t) = allText t.
Proof.
  unfold allText, onTurnComplete, concatTexts.
  induction t as [|e t IH]; [reflexivity|]. cbn. now rewrite IH.
Qed.

(** X8. Whatever fragments and turn ends arrive, the text of the transcript
    read in order is the old text followed by the texts of the fragments in
    arrival order: nothing is lost, repeated or reordered. *)
Theorem transcript_conserves_text (events : list TranscriptEvent)
    (t : list Transcript) :
  allText (applyEvents events t) = allText t +:+ concatTexts (fragmentsOf events).
Proof.
  revert t. induction events as [|e events IH]; intros t.
  - cbn. now rewrite append_empty_r.
  - unfold applyEvents in *. cbn [foldl]. rewrite IH.
    destruct e as [f|]; cbn [applyEvent fragmentsOf flat_map].
    + rewrite allText_update, concatTexts_app, <- append_assoc. cbn.
      now rewrite append_empty_r.
    + now rewrite allText_turn.
Qed.

(** X9. A fragment adds at most one entry and leaves alone every entry that
    is final, or not the last one, or of another speaker. *)
Theorem update_touches_last_entry_only (g : Transcript) (prev : list Transcript) :
  (length prev <= length (onTranscriptUpdate g prev) <= S (length prev))%nat
  /\ (forall (i : nat) (e : Transcript),
        prev !! i = Some e ->
        isFinal e = true \/ (S i < length prev)%nat \/ speaker e <> speaker g ->
        onTranscriptUpdate g prev !! i = Some e).
Proof.
  destruct prev as [|e0 p _] using rev_ind.
  - cbn. split; [lia | intros i e H; discriminate].
  - rewrite onTranscriptUpdate_snoc.
    destruct (Speaker_eqb (speaker e0) (speaker g) && negb (isFinal e0)) eqn:E.
    + split; [rewrite !length_app; cbn; lia|].
      intros i e Hi Hcond.
      destruct (Nat.lt_ge_cases i (length p)) as [Hlt|Hge].
      * rewrite lookup_app_l in Hi |- * by exact Hlt. exact Hi.
      * rewrite lookup_app_r in Hi by exact Hge.
        destruct (i - length p)%nat as [|k] eqn:Ek; [|discriminate].
        cbn in Hi. injection Hi as <-.
        apply andb_prop in E as [Hs Hf]. apply Speaker_eqb_eq in Hs.
        apply negb_true_iff in Hf.
        destruct Hcond as [H|[H|H]]; [congruence | | contradiction].
        rewrite length_app in H. cbn in H. lia.
    + split; [rewrite !length_app; cbn; lia|].
      intros i e Hi _.
      change (p ++ [e0; g]) with (p ++ [e0] ++ [g]). rewrite app_assoc.
      apply lookup_app_l_Some. exact Hi.
Qed.

Lemma update_touches_last_entry_only_witness :
  [mkTranscript npc "Bonjour" true None; mkTranscript user "Un" false None] !! 0%nat
  = Some (mkTranscript npc "Bonjour" true None)
  /\ onTranscriptUpdate (mkTranscript user " cafe" false None)
       [mkTranscript npc "Bonjour" true None; mkTranscript user "Un" false None]
     !! 0%nat
     = Some (mkTranscript npc "Bonjour" true None).
Proof.
  split; [reflexivity|].
  apply (update_touches_last_entry_only (mkTranscript user " cafe" false None)
           [mkTranscript npc "Bonjour" true None;
            mkTranscript user "Un" false None]);
    [reflexivity | left; reflexivity].
Defined.

Lemma onTurnComplete_all_final (t : list Transcript) :
  Forall (fun e => isFinal e = true) (onTurnComplete t).
Proof. apply Forall_map, Forall_true. reflexivity. Qed.

Lemma noOpenDuplicates_snoc (p : list Transcript) (e g : Transcript) :
  noOpenDuplicates (p ++ [e; g])
  <-> noOpenDuplicates (p ++ [e]) /\ (speaker e = speaker g -> isFinal e = true).
Proof.
  induction p as [|x p IH].
  - cbn. tauto.
  - change ((x :: p) ++ [e; g]) with (x :: (p ++ [e; g])).
    change ((x :: p) ++ [e]) with (x :: (p ++ [e])).
    cbn [noOpenDuplicates]. rewrite IH.
    destruct p as [|y p]; cbn; tauto.
Qed.

Lemma noOpenDuplicates_same_shape (t1 t2 : list Transcript) :
  map speaker t1 = map speaker t2 -> map isFinal t1 = map isFinal t2 ->
  noOpenDuplicates t1 -> noOpenDuplicates t2.
Proof.
  revert t2. induction t1 as [|a t1 IH]; intros [|b t2] Hs Hf H;
    try discriminate; [exact I|].
  injection Hs as Hs1 Hs. injection Hf as Hf1 Hf.
  destruct H as [Hhead Htail]. split; [|now apply IH].
  destruct t1 as [|a' t1], t2 as [|b' t2]; try discriminate; [exact I|].
  injection Hs as Hs2 _. injection Hf as Hf2 _.
  intros Heq. rewrite <- Hf1. apply Hhead. congruence.
Qed.

Lemma noOpenDuplicates_final (t : list Transcript) :
  Forall (fun e => isFinal e = true) t -> noOpenDuplicates t.
Proof.
  induction 1 as [|e t He _ IH]; [exact I|].
  split; [|exact IH]. destruct t; [exact I | intros _; exact He].
Qed.

Lemma noOpenDuplicates_update (g : Transcript) (t : list Transcript) :
  noOpenDuplicates t -> noOpenDuplicates (onTranscriptUpdate g t).
Proof.
  intros H. destruct t as [|e p _] using rev_ind; [cbn; auto|].
  rewrite onTranscriptUpdate_snoc.
  destruct (Speaker_eqb (speaker e) (speaker g) && negb (isFinal e)) eqn:E.
  - apply (noOpenDuplicates_same_shape (p ++ [e])); [| |exact H];
      now rewrite !map_app.
  - apply noOpenDuplicates_snoc. split; [exact H|].
    intros Hs. apply andb_false_iff in E as [E|E].
    + apply Speaker_eqb_eq in Hs. congruence.
    + now apply negb_false_iff in E.
Qed.

(** X10. Fragments and turn ends never leave two neighbouring entries of one
    speaker with the first of them still open. *)
Theorem no_duplicate_bubbles (events : list TranscriptEvent)
    (t : list Transcript) :
  noOpenDuplicates t -> noOpenDuplicates (applyEvents events t).
Proof.
  revert t. induction events as [|e events IH]; intros t H; [exact H|].
  unfold applyEvents in *. cbn [foldl]. apply IH.
  destruct e as [f|]; cbn [applyEvent].
  - now apply noOpenDuplicates_update.
  - apply noOpenDuplicates_final, onTurnComplete_all_final.
Qed.

Lemma no_duplicate_bubbles_witness :
  noOpenDuplicates [mkTranscript user "Bonjour" false None]
  /\ noOpenDuplicates
       (applyEvents
          [Fragment (mkTranscript user " madame" false None);
           Fragment (mkTranscript npc "Oui ?" false None);
           TurnComplete;
           Fragment (mkTranscript npc "Un cafe ?" false None)]
          [mkTranscript user "Bonjour" false None]).
Proof.
  split; [cbn; auto|].
  apply (no_duplicate_bubbles
           [Fragment (mkTranscript user " madame" false None);
            Fragment (mkTranscript npc "Oui ?" false None);
            TurnComplete;
            Fragment (mkTranscript npc "Un cafe ?" false None)]
           [mkTranscript user "Bonjour" false None]).
  cbn. auto.
Defined.

Lemma filter_all {A} (f : A -> bool) (l : list A) :
  Forall (fun x => f x = true) l -> List.filter f l = l.
Proof. induction 1 as [|x l Hx _ IH]; cbn; [|rewrite Hx, IH]; reflexivity. Qed.

Lemma filter_none {A} (f : A -> bool) (l : list A) :
  Forall (fun x => f x = false) l -> List.filter f l = [].
Proof. induction 1 as [|x l Hx _ IH]; cbn; [|rewrite Hx, IH]; reflexivity. Qed.

(** Open fragments pile up behind a finalized transcript without touching
    it. *)
Lemma fragments_after_final (fs : list Transcript) (done rest : list Transcript) :
  Forall (fun e => isFinal e = true) done ->
  Forall (fun e => isFinal e = false) rest ->
  Forall (fun f => isFinal f = false) fs ->
  exists rest' : list Transcript,
    applyFragments fs (done ++ rest) = done ++ rest'
    /\ Forall (fun e => isFinal e = false) rest'.
Proof.
  intros Hdone. revert rest.
  induction fs as [|g fs IH]; intros rest Hrest Hfs.
  - exists rest. split; [reflexivity | exact Hrest].
  - apply Forall_cons in Hfs as [Hg Hfs].
    unfold applyFragments in *. cbn [foldl].
    destruct rest as [|e o _] using rev_ind.
    + rewrite app_nil_r.
      assert (Hpush : onTranscriptUpdate g done = done ++ [g]).
      { apply onTranscriptUpdate_push. unfold closedFor.
        destruct (last done) as [l|] eqn:El; [|exact I].
        left. apply last_Some in El as [d' ->].
        apply Forall_app in Hdone as [_ Hl]. now apply Forall_cons in Hl as [Hl _]. }
      rewrite Hpush. apply IH; [|exact Hfs]. now repeat constructor.
    + apply Forall_app in Hrest as [Ho He]. apply Forall_cons in He as [He _].
      rewrite app_assoc, onTranscriptUpdate_snoc.
      destruct (_ && _).
      * rewrite <- app_assoc. apply IH; [|exact Hfs].
        apply Forall_app. split; [exact Ho|]. now repeat constructor.
      * rewrite <- app_assoc. apply IH; [|exact Hfs].
        apply Forall_app. split; [exact Ho|]. now repeat constructor.
Qed.

(** X11. After a turn end the transcript handed to the hint generator is the
    whole transcript, the next fragment opens a new entry, and any fragments
    that follow stay out of what the hint generator sees until the next turn
    end. *)
Theorem hints_see_finalized_lines_only (fs t : list Transcript) (g : Transcript) :
  Forall (fun f => isFinal f = false) fs ->
  finalTranscript (onTurnComplete t) = onTurnComplete t
  /\ onTranscriptUpdate g (onTurnComplete t) = onTurnComplete t ++ [g]
  /\ finalTranscript (applyFragments fs (onTurnComplete t)) = onTurnComplete t.
Proof.
  intros Hfs. pose proof (onTurnComplete_all_final t) as Hfin.
  split; [now apply filter_all|]. split.
  - apply onTranscriptUpdate_push. unfold closedFor.
    destruct (last (onTurnComplete t)) as [l|] eqn:El; [|exact I].
    left. apply last_Some in El as [d' Hd]. rewrite Hd in Hfin.
    apply Forall_app in Hfin as [_ Hl]. now apply Forall_cons in Hl as [Hl _].
  - destruct (fragments_after_final fs (onTurnComplete t) [] Hfin
                ltac:(constructor) Hfs) as (rest & Heq & Hrest).
    rewrite app_nil_r in Heq. rewrite Heq. unfold finalTranscript.
    rewrite List.filter_app, (filter_all _ _ Hfin), (filter_none _ _ Hrest).
    apply app_nil_r.
Qed.

Lemma hints_see_finalized_lines_only_witness :
  Forall (fun f => isFinal f = false)
    [mkTranscript user "Un" false None; mkTranscript user " cafe" false None]
  /\ finalTranscript
       (applyFragments
          [mkTranscript user "Un" false None; mkTranscript user " cafe" false None]
          (onTurnComplete [mkTranscript npc "Bonjour" false None]))
     = [mkTranscript npc "Bonjour" true None].
Proof.
  split; [repeat constructor|].
  apply (hints_see_finalized_lines_only
           [mkTranscript user "Un" false None; mkTranscript user " cafe" false None]
           [mkTranscript npc "Bonjour" false None]
           (mkTranscript user "x" false None)).
  repeat constructor.
Defined.
End TranscriptMore.

(** ** The session adapter *)

Module SessionFacts.
Import Binary64 Binary64Facts Codec App AppFacts TranscriptRuns Session.
Local Open Scope eff_scope.
Local Open Scope Q_scope.

Lemma scheduledInOrder_nothing (w w' : World) :
  nextStartTimeRef (refs w') = nextStartTimeRef (refs w) ->
  is_binary64 (nextStartTimeRef (refs w)) ->
  scheduledInOrder w w' [].
Proof.
  intros Hn Hc. unfold scheduledInOrder. rewrite Hn. cbn.
  split; [trivial|]. split; [apply Qle_refl | exact Hc].
Qed.

Ltac nothing_scheduled :=
  split; [reflexivity|]; do 5 (split; [reflexivity|]);
  intros; apply scheduledInOrder_nothing; auto.

Lemma onNpcAudio_run (env : Env) (render : AppState) (t : Q) (a : string)
    (w : World) :
  exists (w' : World) (calls : list Call),
    App.onNpcAudio env render t a w = (Normal tt, w', calls)
    /\ transcript (state w') = transcript (state w)
    /\ status (state w') = status (state w)
    /\ scenario (state w') = scenario (state w)
    /\ result (state w') = result (state w)
    /\ error (state w') = error (state w)
    /\ (is_binary64 (nextStartTimeRef (refs w)) -> is_binary64 t ->
        scheduledInOrder w w' calls).
Proof.
  destruct (playbackStep_total env render (NpcAudio a t) w)
    as (w' & calls & Hrun).
  cbn [playbackStep] in Hrun. exists w', calls.
  split; [exact Hrun|].
  split; [|split; [|split; [|split; [|split]]]].
  6:{ intros Hc Ht.
      destruct (playbackStep_run env render (NpcAudio a t) w Hc Ht)
        as (w2 & calls2 & Hrun2 & Hg).
      cbn [playbackStep] in Hrun2. rewrite Hrun in Hrun2.
      injection Hrun2 as <- <-. exact Hg. }
  all: unfold App.onNpcAudio in Hrun.
  all: set (w0 := (when (negb (isNpcSpeaking render))
                     (setState (set_isNpcSpeaking true)) w).1.2) in *.
  all: assert (Hw0 : when (negb (isNpcSpeaking render))
                    (setState (set_isNpcSpeaking true)) w = (Normal tt, w0, []))
         by (subst w0; destruct (isNpcSpeaking render); reflexivity).
  all: rewrite (bind_run _ _ _ _ _ _ Hw0) in Hrun; unfold detached in Hrun.
  all: destruct (playAudioChunk_run env t a w0) as (c & w1 & calls1 & Hp & Hst & _).
  all: rewrite Hp in Hrun; cbn in Hrun; injection Hrun as <- <-.
  all: rewrite Hst; subst w0; destruct (isNpcSpeaking render); reflexivity.
Qed.

Lemma deliver_run (env : Env) (render : AppState) (m : LiveServerMessage * Q)
    (w : World) :
  exists (w' : World) (calls : list Call),
    deliver env render m w = (Normal tt, w', calls)
    /\ transcript (state w')
       = applyEvents (transcriptEvents m.1) (transcript (state w))
    /\ status (state w') = status (state w)
    /\ scenario (state w') = scenario (state w)
    /\ result (state w') = result (state w)
    /\ error (state w') = error (state w)
    /\ (is_binary64 (nextStartTimeRef (refs w)) -> is_binary64 m.2 ->
        scheduledInOrder w w' calls).
Proof.
  destruct m as [[[sc|]] t]; unfold deliver, onmessage, transcriptEvents;
    cbn [fst snd serverContent].
  2:{ exists w, []. nothing_scheduled. }
  set (w1 := match inputTranscription sc with
             | Some x => with_state (fun s => set_transcript
                 (Reconciler.onTranscriptUpdate (mkTranscript user x false None)
                    (transcript s)) s) w
             | None => w end).
  assert (H1 : match inputTranscription sc with
               | Some x => onTranscriptUpdate (appCallbacks env render t)
                             (mkTranscript user x false None)
               | None => ret tt end w = (Normal tt, w1, [])).
  { subst w1. destruct (inputTranscription sc); reflexivity. }
  rewrite (bind_run _ _ _ _ _ _ H1).
  set (w2 := match outputTranscription sc with
             | Some x => with_state (fun s => set_transcript
                 (Reconciler.onTranscriptUpdate (mkTranscript npc x false None)
                    (transcript s)) s) w1
             | None => w1 end).
  assert (H2 : match outputTranscription sc with
               | Some x => onTranscriptUpdate (appCallbacks env render t)
                             (mkTranscript npc x false None)
               | None => ret tt end w1 = (Normal tt, w2, [])).
  { subst w2. destruct (outputTranscription sc); reflexivity. }
  rewrite (bind_run _ _ _ _ _ _ H2).
  assert (H3 : exists w3 calls,
             match base64Audio sc with
             | Some a => if String.eqb a "" then ret tt
                         else onNpcAudio (appCallbacks env render t) a
             | None => ret tt end w2 = (Normal tt, w3, calls)
             /\ transcript (state w3) = transcript (state w2)
             /\ status (state w3) = status (state w2)
             /\ scenario (state w3) = scenario (state w2)
             /\ result (state w3) = result (state w2)
             /\ error (state w3) = error (state w2)
             /\ (is_binary64 (nextStartTimeRef (refs w2)) -> is_binary64 t ->
                 scheduledInOrder w2 w3 calls)).
  { destruct (base64Audio sc) as [a|].
    - destruct (String.eqb a "").
      + exists w2, []. nothing_scheduled.
      + apply onNpcAudio_run.
    - exists w2, []. nothing_scheduled. }
  destruct H3 as (w3 & calls & H3 & Htr & Hst & Hsc & Hre & Her & Hg).
  rewrite (bind_run _ _ _ _ _ _ H3).
  assert (Hn : nextStartTimeRef (refs w2) = nextStartTimeRef (refs w)).
  { subst w2 w1. destruct (outputTranscription sc), (inputTranscription sc);
      reflexivity. }
  unfold scheduledInOrder in *. rewrite Hn in Hg.
  destruct (turnComplete sc); cbn.
  - eexists _, _. split; [reflexivity|]. cbn. rewrite !app_nil_r.
    rewrite Htr, Hst, Hsc, Hre, Her.
    subst w2 w1. unfold applyEvents.
    destruct (outputTranscription sc), (inputTranscription sc); cbn;
      repeat split; try assumption; now apply Hg.
  - eexists _, _. split; [reflexivity|]. cbn. rewrite !app_nil_r.
    rewrite Htr, Hst, Hsc, Hre, Her.
    subst w2 w1. unfold applyEvents.
    destruct (outputTranscription sc), (inputTranscription sc); cbn;
      repeat split; try assumption; now apply Hg.
Qed.

Lemma applyEvents_app (a b : list TranscriptEvent) (t : list Transcript) :
  applyEvents (a ++ b) t = applyEvents b (applyEvents a t).
Proof. unfold applyEvents. apply foldl_app. Qed.

Lemma deliverAll_run (env : Env) (render : AppState)
    (ms : list (LiveServerMessage * Q)) (w : World) :
  exists (w' : World) (calls : list Call),
    deliverAll env render ms w = (Normal tt, w', calls)
    /\ transcript (state w') = applyEvents (eventsOf ms) (transcript (state w))
    /\ status (state w') = status (state w)
    /\ scenario (state w') = scenario (state w)
    /\ result (state w') = result (state w)
    /\ error (state w') = error (state w)
    /\ (is_binary64 (nextStartTimeRef (refs w)) ->
        Forall (fun m => is_binary64 m.2) ms ->
        scheduledInOrder w w' calls).
Proof.
  revert w. induction ms as [|m ms IH]; intros w.
  - exists w, []. nothing_scheduled.
  - unfold deliverAll in *. cbn [forEach].
    destruct (deliver_run env render m w)
      as (w1 & c1 & Hrun1 & Ht1 & Hs1 & Hsc1 & Hr1 & He1 & Hg1).
    destruct (IH w1) as (w2 & c2 & Hrun2 & Ht2 & Hs2 & Hsc2 & Hr2 & He2 & Hg2).
    rewrite (bind_run _ _ _ _ _ _ Hrun1), Hrun2.
    exists w2, (c1 ++ c2). split; [reflexivity|].
    unfold eventsOf in *. cbn [flat_map]. rewrite applyEvents_app, <- Ht1.
    split; [exact Ht2|]. split; [congruence|]. split; [congruence|].
    split; [congruence|]. split; [congruence|].
    intros Hc Hall. apply Forall_cons in Hall as [Hm Hall].
    destruct (Hg1 Hc Hm) as (G1 & F1 & C1).
    destruct (Hg2 C1 Hall) as (G2 & F2 & C2).
    unfold scheduledInOrder. rewrite schedule_app, finish_app.
    split; [|split; [|exact C2]].
    + apply gapless_app; [exact G1|]. eapply gapless_weaken; eassumption.
    + eapply Qle_trans; [|exact F2]. now apply finish_mono.
Qed.

(** X12. Delivering messages of the live session whose transcriptions carry
    their text never raises and changes the transcript exactly as the
    reconciler does on their events taken in the order user text, NPC text,
    turn end; status, scenario, result and error are not touched. *)
Theorem messages_drive_reconciler (env : Env) (render : AppState)
    (ms : list (LiveServerMessage * Q)) (w : World) :
  completion_of (deliverAll env render ms) w = Normal tt
  /\ transcript (state (world_after (deliverAll env render ms) w))
     = applyEvents (eventsOf ms) (transcript (state w))
  /\ status (state (world_after (deliverAll env render ms) w)) = status (state w)
  /\ scenario (state (world_after (deliverAll env render ms) w))
     = scenario (state w)
  /\ result (state (world_after (deliverAll env render ms) w)) = result (state w)
  /\ error (state (world_after (deliverAll env render ms) w)) = error (state w).
Proof.
  destruct (deliverAll_run env render ms w)
    as (w' & calls & Hrun & Ht & Hs & Hsc & Hr & He & _).
  unfold completion_of, world_after. rewrite Hrun. cbn.
  repeat split; assumption.
Qed.

(** X13. Over any run of messages whose clock readings are doubles, the
    audio chunks are handed to the device in arrival order: each starts no
    earlier than the one before it and no earlier than the end of the one
    before it as the clock computes it (the double nearest to
    [start + duration]), hence at most one rounding error before the exact
    end. *)
Theorem messages_keep_playback_order (env : Env) (render : AppState)
    (ms : list (LiveServerMessage * Q)) (w : World) (i : nat)
    (s1 d1 s2 d2 : Q) :
  is_binary64 (nextStartTimeRef (refs w)) ->
  Forall (fun m => is_binary64 m.2) ms ->
  schedule (calls_of (deliverAll env render ms) w) !! i = Some (s1, d1) ->
  schedule (calls_of (deliverAll env render ms) w) !! S i = Some (s2, d2) ->
  s1 <= s2
  /\ binary64 (s1 + d1) <= s2
  /\ s1 + d1 - (s1 + d1) * pow2 (-53) <= s2.
Proof.
  intros Hc Hall.
  destruct (deliverAll_run env render ms w)
    as (w' & calls & Hrun & _ & _ & _ & _ & _ & Hg).
  destruct (Hg Hc Hall) as (G & _).
  unfold calls_of. rewrite Hrun. cbn.
  apply (gapless_consecutive _ _ _ _ _ _ _ G).
Qed.

(** X14. A message that carries the turn-complete mark leaves every entry of
    the transcript final, the ones it has just added included. *)
Theorem turn_complete_message_finalizes (env : Env) (render : AppState)
    (sc : ServerContent) (t : Q) (w : World) :
  turnComplete sc = true ->
  Forall (fun e => isFinal e = true)
    (transcript (state (world_after
                          (deliver env render (mkMessage (Some sc), t)) w))).
Proof.
  intros Htc.
  destruct (deliver_run env render (mkMessage (Some sc), t) w)
    as (w' & calls & Hrun & Ht & _).
  unfold world_after. rewrite Hrun. cbn [fst snd]. rewrite Ht.
  unfold transcriptEvents. cbn [fst serverContent]. rewrite Htc.
  rewrite app_assoc, applyEvents_app. cbn.
  apply Forall_map, Forall_true. reflexivity.
Qed.

(** X15. A message without audio (none, or an empty string) makes no
    external call and leaves every ref, the speaking flag and the recording
    flag as they were. *)
Theorem text_message_leaves_audio_alone (env : Env) (render : AppState)
    (sc : ServerContent) (t : Q) (w : World) :
  base64Audio sc = None \/ base64Audio sc = Some ""%string ->
  calls_of (deliver env render (mkMessage (Some sc), t)) w = []
  /\ refs (world_after (deliver env render (mkMessage (Some sc), t)) w) = refs w
  /\ isNpcSpeaking
       (state (world_after (deliver env render (mkMessage (Some sc), t)) w))
     = isNpcSpeaking (state w)
  /\ isRecording
       (state (world_after (deliver env render (mkMessage (Some sc), t)) w))
     = isRecording (state w).
Proof.
  intros Ha. unfold calls_of, world_after, deliver, onmessage.
  cbn [fst snd serverContent].
  destruct Ha as [-> | ->]; cbn [String.eqb];
    destruct (inputTranscription sc), (outputTranscription sc), (turnComplete sc);
    repeat split.
Qed.

Lemma messages_keep_playback_order_witness :
  is_binary64 (nextStartTimeRef (refs conversationStarted))
  /\ Forall (fun m : LiveServerMessage * Q => is_binary64 m.2)
       [(demoMessage (Some "Bonjour"%string) None "AEAAgP9/" false, 0);
        (demoMessage None (Some "Salut"%string) "AAAAAA==" true, 0)]
  /\ schedule
       (calls_of
          (deliverAll reliable initialState
             [(demoMessage (Some "Bonjour"%string) None "AEAAgP9/" false, 0);
              (demoMessage None (Some "Salut"%string) "AAAAAA==" true, 0)])
          conversationStarted) !! 0%nat
     = Some (0, binary64 (3 # 24000))
  /\ schedule
       (calls_of
          (deliverAll reliable initialState
             [(demoMessage (Some "Bonjour"%string) None "AEAAgP9/" false, 0);
              (demoMessage None (Some "Salut"%string) "AAAAAA==" true, 0)])
          conversationStarted) !! 1%nat
     = Some (binary64 (0 + binary64 (3 # 24000)), binary64 (2 # 24000))
  /\ 0 <= binary64 (0 + binary64 (3 # 24000)).
Proof.
  assert (Hc : is_binary64 (nextStartTimeRef (refs conversationStarted)))
    by (vm_compute; reflexivity).
  assert (Hall : Forall (fun m : LiveServerMessage * Q => is_binary64 m.2)
            [(demoMessage (Some "Bonjour"%string) None "AEAAgP9/" false, 0);
             (demoMessage None (Some "Salut"%string) "AAAAAA==" true, 0)])
    by (repeat constructor; vm_compute; reflexivity).
  assert (H1 : schedule
       (calls_of
          (deliverAll reliable initialState
             [(demoMessage (Some "Bonjour"%string) None "AEAAgP9/" false, 0);
              (demoMessage None (Some "Salut"%string) "AAAAAA==" true, 0)])
          conversationStarted) !! 0%nat
     = Some (0, binary64 (3 # 24000))) by (vm_compute; reflexivity).
  assert (H2 : schedule
       (calls_of
          (deliverAll reliable initialState
             [(demoMessage (Some "Bonjour"%string) None "AEAAgP9/" false, 0);
              (demoMessage None (Some "Salut"%string) "AAAAAA==" true, 0)])
          conversationStarted) !! 1%nat
     = Some (binary64 (0 + binary64 (3 # 24000)), binary64 (2 # 24000)))
    by (vm_compute; reflexivity).
  repeat (split; [assumption|]).
  exact (proj1 (messages_keep_playback_order reliable initialState _
                  conversationStarted 0%nat _ _ _ _ Hc Hall H1 H2)).
Defined.

Lemma turn_complete_message_finalizes_witness :
  turnComplete (mkServerContent (Some "Oui"%string) None None true) = true
  /\ Forall (fun e => isFinal e = true)
       (transcript
          (state (world_after
                    (deliver reliable initialState
                       (mkMessage
                          (Some (mkServerContent (Some "Oui"%string) None None true)),
                        0))
                    conversationStarted))).
Proof.
  split; [reflexivity|].
  apply (turn_complete_message_finalizes reliable initialState
           (mkServerContent (Some "Oui"%string) None None true) 0
           conversationStarted eq_refl).
Defined.

Lemma text_message_leaves_audio_alone_witness :
  (base64Audio (mkServerContent (Some "Oui"%string) None None false) = None
   \/ base64Audio (mkServerContent (Some "Oui"%string) None None false)
      = Some ""%string)
  /\ calls_of
       (deliver reliable initialState
          (mkMessage (Some (mkServerContent (Some "Oui"%string) None None false)),
           0))
       conversationStarted = [].
Proof.
  split; [left; reflexivity|].
  apply (text_message_leaves_audio_alone reliable initialState
           (mkServerContent (Some "Oui"%string) None None false) 0
           conversationStarted).
  left; reflexivity.
Defined.
End SessionFacts.

(** ** Further handlers *)

Module LifecycleFacts.
Import Binary64 Binary64Facts Codec App AppFacts Lifecycle.
Local Open Scope eff_scope.
Local Open Scope Q_scope.

(** X16. An error of the session makes the calls of one teardown, which
    release what the world holds (session closed, tracks stopped, nodes
    disconnected, contexts closed, sources stopped), completes whatever
    fails meanwhile, drops every handle, and leaves status [Error] with the
    message of the error; the transcript, the scenario and the result stay,
    and nothing is sent to the summarizer. *)
Theorem onError_releases_everything (env : Env) (message : string) (w : World) :
  completion_of (onError env message) w = Normal tt
  /\ calls_of (onError env message) w = calls_of (cleanupAudioAndSession env) w
  /\ released env w (calls_of (onError env message) w)
  /\ tornDown (world_after (onError env message) w)
  /\ status (state (world_after (onError env message) w)) = Error
  /\ error (state (world_after (onError env message) w)) = Some message
  /\ transcript (state (world_after (onError env message) w))
     = transcript (state w)
  /\ scenario (state (world_after (onError env message) w)) = scenario (state w)
  /\ result (state (world_after (onError env message) w)) = result (state w)
  /\ Forall notSummarize (calls_of (onError env message) w).
Proof.
  unfold completion_of, world_after, calls_of, onError.
  rewrite (bind_run _ _ _ _ _ _ eq_refl).
  rewrite (bind_run _ _ _ _ _ _ eq_refl).
  rewrite !(cleanup_run env _). cbn [fst snd app].
  change (cleanupCalls env
            (with_state (set_status Error)
               (with_state (set_error (Some message)) w)))
    with (cleanupCalls env w).
  split; [reflexivity|]. split; [reflexivity|].
  split; [apply cleanupCalls_released|].
  split; [repeat split|]. do 5 (split; [reflexivity|]).
  apply cleanupCalls_notSummarize.
Qed.

Lemma onError_releases_everything_witness :
  liveSessionRef (refs liveConversation) = Some 7%nat
  /\ length (audioSourcesRef (refs liveConversation)) = 2%nat
  /\ In (SessionClose 7) (calls_of (onError reliable "lost") liveConversation)
  /\ (forall s, In s (audioSourcesRef (refs liveConversation)) ->
        In (SourceStop s) (calls_of (onError reliable "lost") liveConversation)).
Proof.
  split; [reflexivity|]. split; [reflexivity|].
  destruct (onError_releases_everything reliable "lost" liveConversation)
    as (_ & _ & (Hs & _ & _ & _ & _ & _ & _ & Hsrc) & _).
  split; [apply Hs; reflexivity | apply Hsrc; reflexivity].
Defined.

Lemma handleExitToStreetView_run (env : Env) (w : World) :
  handleExitToStreetView env w
  = (Normal tt,
     {| state := initialState;
        refs := refs (cleanedWorld w);
        created := created w |},
     cleanupCalls env w).
Proof.
  unfold handleExitToStreetView.
  rewrite (bind_run _ _ _ _ _ _ (cleanup_run env w)).
  do 5 rewrite (bind_run _ _ _ _ _ _ eq_refl).
  cbn. now rewrite app_nil_r.
Qed.

(** X17. [handleExitToStreetView] makes the calls of one teardown and no
    other, ends in the state of a fresh application with everything
    released, and leaves the Street View object alone; without such an object
    [handleCloseRehearsal] does the very same. *)
Theorem exit_resets_without_touching_the_map (env : Env) (w : World) :
  completion_of (handleExitToStreetView env) w = Normal tt
  /\ state (world_after (handleExitToStreetView env) w) = initialState
  /\ tornDown (world_after (handleExitToStreetView env) w)
  /\ streetViewInstance (refs (world_after (handleExitToStreetView env) w))
     = streetViewInstance (refs w)
  /\ calls_of (handleExitToStreetView env) w
     = calls_of (cleanupAudioAndSession env) w
  /\ (streetViewInstance (refs w) = None ->
      handleCloseRehearsal env w = handleExitToStreetView env w).
Proof.
  unfold completion_of, world_after, calls_of.
  rewrite handleExitToStreetView_run, (cleanup_run env w). cbn.
  split; [reflexivity|]. split; [reflexivity|]. split; [repeat split|].
  split; [reflexivity|]. split; [reflexivity|].
  intros Hsv. unfold handleCloseRehearsal.
  rewrite (bind_run _ _ _ _ _ _ (cleanup_run env w)).
  destruct w as [st [sv ls ic oc nst sp lst ms srcs] cr]. cbn in Hsv. subst sv.
  cbn. now rewrite !app_nil_r.
Qed.

(** X18. [handleCloseRehearsal] first makes the calls of one teardown, which
    release what the world holds; it ends in the state of a fresh
    application with every handle dropped even when the map calls fail, and
    sends nothing to the summarizer; when they do not fail the panorama ends
    up hidden. *)
Theorem close_rehearsal_always_resets (env : Env) (w : World) :
  completion_of (handleCloseRehearsal env) w = Normal tt
  /\ (exists mapCalls : list Call,
        calls_of (handleCloseRehearsal env) w
        = calls_of (cleanupAudioAndSession env) w ++ mapCalls)
  /\ released env w (calls_of (handleCloseRehearsal env) w)
  /\ state (world_after (handleCloseRehearsal env) w) = initialState
  /\ tornDown (world_after (handleCloseRehearsal env) w)
  /\ Forall notSummarize (calls_of (handleCloseRehearsal env) w)
  /\ (env StreetViewGetVisible = false ->
      env (StreetViewSetVisible false) = false ->
      streetViewInstance (refs (world_after (handleCloseRehearsal env) w))
      = (fun _ => {| visible := false |}) <$> streetViewInstance (refs w)).
Proof.
  unfold completion_of, world_after, calls_of.
  rewrite (cleanup_run env w). cbn [fst snd].
  unfold handleCloseRehearsal.
  rewrite (bind_run _ _ _ _ _ _ (cleanup_run env w)).
  pose proof (cleanupCalls_notSummarize env w) as Hq.
  pose proof (cleanupCalls_released env w) as Hrel.
  revert Hq Hrel. generalize (cleanupCalls env w) as teardown.
  intros teardown Hq Hrel.
  assert (Hmore : forall more, released env w (teardown ++ more))
    by (intros more; now apply released_app).
  clear Hrel.
  destruct w as [st [sv ls ic oc nst sp lst ms srcs] cr].
  unfold cleanedWorld. cbn [state refs created streetViewInstance
    nextStartTimeRef set_isNpcSpeaking set_isRecording] in *.
  destruct sv as [[vis]|].
  - unfold bind, try_catch, get, call, when. cbn.
    destruct (env StreetViewGetVisible) eqn:E1; cbn.
    + split; [reflexivity|]. split; [eexists; reflexivity|].
      split; [apply Hmore|].
      split; [reflexivity|]. split; [repeat split|].
      split; [|discriminate].
      apply Forall_app_2; [exact Hq | repeat constructor].
    + destruct vis; cbn;
        [destruct (env (StreetViewSetVisible false)) eqn:E2; cbn|];
        (split; [reflexivity|]; split; [eexists; reflexivity|];
         split; [apply Hmore|];
         split; [reflexivity|]; split; [repeat split|];
         split; [apply Forall_app_2; [exact Hq | repeat constructor]
                | try discriminate; reflexivity]).
  - cbn. split; [reflexivity|]. split; [eexists; reflexivity|].
    split; [apply Hmore|].
    split; [reflexivity|]. split; [repeat split|].
    split; [|reflexivity]. rewrite app_nil_r. exact Hq.
Qed.

(** X19. Ending a conversation that has a scenario and a transcript, then
    receiving the summary or its failure: the handler makes the calls of one
    teardown, which release what the world holds, and then the request to
    the summarizer; the handles stay dropped, the transcript and the scenario
    are kept, and the status is [PausedForFeedback] with the result, or
    [Error] with a message. *)
Theorem end_flow_keeps_the_conversation (env : Env) (render : AppState)
    (w : World) (sc : Scenario) (summaryResult : option ConversationResult) :
  status render <> Summarizing ->
  scenario render = Some sc ->
  transcript render <> [] ->
  completion_of (handleEndConversation env render) w = Normal AwaitingSummary
  /\ calls_of (handleEndConversation env render) w
     = calls_of (cleanupAudioAndSession env) w
       ++ [SummarizeConversation sc (transcript render)]
  /\ released env w (calls_of (cleanupAudioAndSession env) w)
  /\ calls_of (handleEndConversation_resume summaryResult)
       (world_after (handleEndConversation env render) w) = []
  /\ tornDown (world_after (handleEndConversation_resume summaryResult)
                 (world_after (handleEndConversation env render) w))
  /\ transcript (state (world_after (handleEndConversation_resume summaryResult)
                          (world_after (handleEndConversation env render) w)))
     = transcript (state w)
  /\ scenario (state (world_after (handleEndConversation_resume summaryResult)
                        (world_after (handleEndConversation env render) w)))
     = scenario (state w)
  /\ match summaryResult with
     | Some r =>
         status (state (world_after (handleEndConversation_resume summaryResult)
                          (world_after (handleEndConversation env render) w)))
         = PausedForFeedback
         /\ result (state (world_after (handleEndConversation_resume summaryResult)
                             (world_after (handleEndConversation env render) w)))
            = Some r
         /\ error (state (world_after (handleEndConversation_resume summaryResult)
                            (world_after (handleEndConversation env render) w)))
            = error (state w)
     | None =>
         status (state (world_after (handleEndConversation_resume summaryResult)
                          (world_after (handleEndConversation env render) w)))
         = Error
         /\ result (state (world_after (handleEndConversation_resume summaryResult)
                             (world_after (handleEndConversation env render) w)))
            = result (state w)
         /\ error (state (world_after (handleEndConversation_resume summaryResult)
                            (world_after (handleEndConversation env render) w)))
            <> None
     end.
Proof.
  intros Hst Hsc Htr.
  unfold completion_of, world_after, calls_of.
  rewrite (cleanup_run env w). cbn [fst snd].
  pose proof (cleanupCalls_released env w) as Hrel.
  unfold handleEndConversation.
  destruct (status_eqb (status render) Summarizing) eqn:E;
    [apply status_eqb_eq in E; contradiction|].
  rewrite (bind_run _ _ _ _ _ _ eq_refl).
  rewrite (bind_run _ _ _ _ _ _ (cleanup_run env _)).
  change (cleanupCalls env (with_state (set_status Summarizing) w))
    with (cleanupCalls env w).
  revert Hrel. generalize (cleanupCalls env w) as teardown. intros teardown Hrel.
  rewrite Hsc.
  destruct (transcript render) as [|e tr]; [contradiction|]. cbn.
  split; [reflexivity|]. split; [reflexivity|]. split; [exact Hrel|].
  destruct summaryResult as [r|]; cbn; repeat split; discriminate.
Qed.

Lemma end_flow_keeps_the_conversation_witness :
  status (demoRender Active) <> Summarizing
  /\ scenario (demoRender Active) = Some demoScenario
  /\ transcript (demoRender Active) <> []
  /\ In (SessionClose 7)
       (calls_of (cleanupAudioAndSession reliable) liveConversation)
  /\ tornDown (world_after (handleEndConversation_resume None)
                 (world_after (handleEndConversation reliable (demoRender Active))
                    liveConversation)).
Proof.
  split; [discriminate|]. split; [reflexivity|]. split; [discriminate|].
  destruct (end_flow_keeps_the_conversation reliable (demoRender Active)
              liveConversation demoScenario None
              ltac:(discriminate) eq_refl ltac:(discriminate))
    as (_ & _ & (Hs & _) & _ & Htd & _).
  split; [apply Hs; reflexivity | exact Htd].
Defined.

(** X20. [startRecording] and [stopRecording] change no ref.
    [startRecording] touches the audio graph or the recording flag only
    under status [Active] with processor, stream source and input context in
    place: then it connects the source to the processor and the processor to
    the destination and raises the flag; under any other status it does
    nothing at all. A stop after a start leaves the flag down. *)
Theorem recording_needs_active_conversation (render : AppState) (w : World) :
  refs (startRecording render w).1 = refs w
  /\ refs (stopRecording w).1 = refs w
  /\ ((startRecording render w).2 <> []
      \/ isRecording (state (startRecording render w).1) <> isRecording (state w) ->
      status render = Active
      /\ scriptProcessorRef (refs w) <> None
      /\ mediaStreamSourceRef (refs w) <> None
      /\ inputAudioContextRef (refs w) <> None)
  /\ (forall (processor source : nat) (ctx : AudioContext),
        status render = Active ->
        scriptProcessorRef (refs w) = Some processor ->
        mediaStreamSourceRef (refs w) = Some source ->
        inputAudioContextRef (refs w) = Some ctx ->
        startRecording render w
        = (with_state (set_isRecording true) w,
           [ConnectSourceToProcessor source processor;
            ConnectProcessorToDestination processor]))
  /\ (status render <> Active -> startRecording render w = (w, []))
  /\ (scriptProcessorRef (refs w) <> None ->
      mediaStreamSourceRef (refs w) <> None ->
      isRecording (state (stopRecording (startRecording render w).1).1) = false).
Proof.
  unfold startRecording, stopRecording.
  destruct w as [st [sv ls ic oc nst sp lst ms srcs] cr]. cbn.
  destruct (status_eqb (status render) Active) eqn:E.
  - apply status_eqb_eq in E.
    destruct sp as [p|], ms as [s|], ic as [c|]; cbn;
      (split; [reflexivity|]; split; [reflexivity|];
       split; [intros [H|H]; try contradiction;
               repeat split; (assumption || discriminate)|];
       split; [intros ? ? ? _ ? ? ?; congruence|];
       split; [intros H; contradiction|];
       intros H1 H2; try reflexivity; contradiction).
  - assert (Hst : status render <> Active).
    { intros H. apply status_eqb_eq in H. congruence. }
    destruct sp as [p|], ms as [s|], ic as [c|]; cbn;
      (split; [reflexivity|]; split; [reflexivity|];
       split; [intros [H|H]; contradiction|];
       split; [intros ? ? ? H; contradiction|];
       split; [reflexivity|];
       intros H1 H2; try reflexivity; contradiction).
Qed.

(** X21. After a teardown the capture side is inert: starting and stopping
    the recording do nothing, a captured window is dropped, and the
    recording flag is down. *)
Theorem capture_inert_after_teardown (env : Env) (render : AppState)
    (w : World) (inputData : list Number) :
  startRecording render (world_after (cleanupAudioAndSession env) w)
  = (world_after (cleanupAudioAndSession env) w, [])
  /\ stopRecording (world_after (cleanupAudioAndSession env) w)
     = (world_after (cleanupAudioAndSession env) w, [])
  /\ onaudioprocess inputData (world_after (cleanupAudioAndSession env) w) = None
  /\ isRecording (state (world_after (cleanupAudioAndSession env) w)) = false.
Proof.
  unfold world_after. rewrite (cleanup_run env w). cbn. repeat split.
Qed.

(** X22. Without a scenario [handleTrySimilarScenario] does nothing. With
    one it makes a single external call, the request to
    [generateSimilarScenario] for that scenario, runs no teardown and touches
    no ref; it empties transcript and result at once, and when the
    generation fails the old scenario is still there under status [Error],
    whereas a success replaces it under status [Briefing]. *)
Theorem failed_similar_scenario_keeps_old_one (render : AppState) (w : World)
    (sc : Scenario) (message : string) :
  scenario render = Some sc ->
  completion_of (handleTrySimilarScenario render) w = Normal (Some sc)
  /\ calls_of (handleTrySimilarScenario render) w = [GenerateSimilarScenario sc]
  /\ refs (world_after (handleTrySimilarScenario render) w) = refs w
  /\ status (state (world_after (handleTrySimilarScenario render) w)) = Generating
  /\ state (world_after (handleTrySimilarScenario_resume (inr message))
               (world_after (handleTrySimilarScenario render) w))
     = {| status := Error;
          scenario := scenario (state w);
          transcript := [];
          result := None;
          error :=
            Some ("Failed to create a similar scenario. Please try a new location. ("
                  +:+ message +:+ ")");
          isNpcSpeaking := isNpcSpeaking (state w);
          isRecording := isRecording (state w);
          studyCardHint := studyCardHint (state w) |}
  /\ (forall newScenario : Scenario,
        state (world_after (handleTrySimilarScenario_resume (inl newScenario))
                 (world_after (handleTrySimilarScenario render) w))
        = {| status := Briefing;
             scenario := Some newScenario;
             transcript := [];
             result := None;
             error := None;
             isNpcSpeaking := isNpcSpeaking (state w);
             isRecording := isRecording (state w);
             studyCardHint := studyCardHint (state w) |})
  /\ (forall render' : AppState,
        scenario render' = None ->
        handleTrySimilarScenario render' w = (Normal None, w, [])).
Proof.
  intros Hsc. unfold completion_of, calls_of, world_after,
    handleTrySimilarScenario. rewrite Hsc. cbn.
  do 6 (split; [reflexivity|]).
  intros render' ->. reflexivity.
Qed.

Lemma failed_similar_scenario_keeps_old_one_witness :
  scenario (demoRender PausedForFeedback) = Some demoScenario
  /\ calls_of (handleTrySimilarScenario (demoRender PausedForFeedback))
       initialWorld = [GenerateSimilarScenario demoScenario]
  /\ status (state (world_after
                      (handleTrySimilarScenario (demoRender PausedForFeedback))
                      initialWorld)) = Generating.
Proof.
  split; [reflexivity|].
  destruct (failed_similar_scenario_keeps_old_one (demoRender PausedForFeedback)
              initialWorld demoScenario "quota" eq_refl)
    as (_ & Hcalls & _ & Hst & _).
  split; [exact Hcalls | exact Hst].
Defined.

Lemma exit_resets_without_touching_the_map_witness :
  streetViewInstance (refs conversationStarted) = None
  /\ handleCloseRehearsal reliable conversationStarted
     = handleExitToStreetView reliable conversationStarted.
Proof.
  split; [reflexivity|].
  apply (exit_resets_without_touching_the_map reliable conversationStarted).
  reflexivity.
Defined.

Lemma close_rehearsal_always_resets_witness :
  reliable StreetViewGetVisible = false
  /\ reliable (StreetViewSetVisible false) = false
  /\ In (SessionClose 7)
       (calls_of (handleCloseRehearsal reliable)
          (with_refs (set_streetViewInstance (Some {| visible := true |}))
             liveConversation))
  /\ streetViewInstance
       (refs (world_after (handleCloseRehearsal reliable)
                (with_refs (set_streetViewInstance (Some {| visible := true |}))
                   liveConversation)))
     = Some {| visible := false |}.
Proof.
  split; [reflexivity|]. split; [reflexivity|].
  destruct (close_rehearsal_always_resets reliable
              (with_refs (set_streetViewInstance (Some {| visible := true |}))
                 liveConversation))
    as (_ & _ & (Hs & _) & _ & _ & _ & Hsv).
  split; [apply Hs; reflexivity|].
  apply Hsv; reflexivity.
Defined.

Lemma recording_needs_active_conversation_witness :
  (startRecording (demoRender Active) liveConversation).2 <> []
  /\ status (demoRender Active) = Active
  /\ scriptProcessorRef (refs liveConversation) <> None
  /\ (status (demoRender Ready) <> Active ->
      startRecording (demoRender Ready) liveConversation = (liveConversation, [])).
Proof.
  assert (H : (startRecording (demoRender Active) liveConversation).2 <> [])
    by (vm_compute; discriminate).
  split; [exact H|].
  destruct (recording_needs_active_conversation (demoRender Active)
              liveConversation) as (_ & _ & Hneeds & _).
  destruct (Hneeds (or_introl H)) as (Hst & Hp & _).
  split; [exact Hst|]. split; [exact Hp|].
  apply (recording_needs_active_conversation (demoRender Ready) liveConversation).
Defined.

End LifecycleFacts.

(** ** More on playback *)

Module PlaybackFacts.
Import Binary64 Binary64Facts Codec App AppFacts Lifecycle.
Local Open Scope eff_scope.
Local Open Scope Q_scope.

#[local] Arguments set_delete : simpl never.
#[local] Arguments set_add : simpl never.
#[local] Arguments max_time : simpl never.
#[local] Arguments duration : simpl never.

Lemma set_add_fresh (x : SourceNode) (l : list SourceNode) :
  Forall (fun s => (token s < token x)%nat) l -> set_add x l = l ++ [x].
Proof.
  intros H. unfold set_add.
  replace (existsb (same_node x) l) with false; [reflexivity|].
  symmetry. induction H as [|y l Hy _ IH]; [reflexivity|].
  cbn. rewrite IH. unfold same_node.
  destruct (Nat.eqb_spec (token x) (token y)); [lia | reflexivity].
Qed.

Lemma sourcesWellFormed_add (buf : AudioBuffer) (srcs : list SourceNode) (n : nat) :
  NoDup (map token srcs) -> Forall (fun s => (token s < n)%nat) srcs ->
  NoDup (map token (set_add {| token := n; buffer := buf |} srcs))
  /\ Forall (fun s => (token s < S n)%nat)
       (set_add {| token := n; buffer := buf |} srcs).
Proof.
  intros Hnd Hlt. rewrite set_add_fresh by exact Hlt. split.
  - rewrite map_app. cbn. apply NoDup_app. split; [exact Hnd|].
    split; [|apply NoDup_singleton].
    intros t Ht Hin. apply list_elem_of_singleton in Hin. subst t.
    apply list_elem_of_In, in_map_iff in Ht. destruct Ht as (s & Hs & Hin).
    rewrite Forall_forall in Hlt. apply list_elem_of_In in Hin.
    specialize (Hlt _ Hin). lia.
  - apply Forall_app. split.
    + eapply Forall_impl; [exact Hlt|]. cbn. lia.
    + apply Forall_singleton. cbn. lia.
Qed.

Lemma sourcesWellFormed_delete (x : SourceNode) (srcs : list SourceNode) (n : nat) :
  NoDup (map token srcs) -> Forall (fun s => (token s < n)%nat) srcs ->
  NoDup (map token (set_delete x srcs))
  /\ Forall (fun s => (token s < n)%nat) (set_delete x srcs).
Proof.
  unfold set_delete. intros Hnd Hlt. split.
  - induction srcs as [|y l IH]; [constructor|].
    cbn in *. apply NoDup_cons in Hnd as [Hy Hnd].
    apply Forall_cons in Hlt as [_ Hlt].
    destruct (negb (same_node x y)); [|now apply IH].
    cbn. apply NoDup_cons. split; [|now apply IH].
    intros Hin. apply Hy.
    apply list_elem_of_In, in_map_iff in Hin as (s & Hs & Hin).
    apply List.filter_In in Hin as [Hin _].
    apply list_elem_of_In, in_map_iff. eauto.
  - rewrite Forall_forall in *. intros s Hs.
    apply list_elem_of_In, List.filter_In in Hs as [Hs _].
    apply Hlt. now apply list_elem_of_In.
Qed.

Lemma playbackStep_wellFormed (env : Env) (render : AppState)
    (e : PlaybackEvent) (w : World) :
  sourcesWellFormed w ->
  sourcesWellFormed (world_after (playbackStep env render e) w).
Proof.
  unfold sourcesWellFormed, world_after. intros [Hnd Hlt].
  destruct e as [a t | source]; cbn [playbackStep].
  - unfold App.onNpcAudio.
    set (w0 := (when (negb (isNpcSpeaking render))
                     (setState (set_isNpcSpeaking true)) w).1.2).
    assert (Hw0 : when (negb (isNpcSpeaking render))
                    (setState (set_isNpcSpeaking true)) w = (Normal tt, w0, [])).
    { subst w0. destruct (isNpcSpeaking render); reflexivity. }
    assert (Hr : refs w0 = refs w /\ created w0 = created w).
    { subst w0. destruct (isNpcSpeaking render); split; reflexivity. }
    destruct Hr as [Hr Hc].
    rewrite (bind_run _ _ _ _ _ _ Hw0). unfold detached.
    destruct (playAudioChunk_run env t a w0) as (c & w' & calls & Hrun & _ & Hcases).
    rewrite Hrun. cbn.
    destruct Hcases as [(_ & _ & Hs & Hcr) | (buf & _ & _ & Hs & Hcr & _)];
      rewrite Hs, Hcr, Hr, Hc.
    + now split.
    + now apply sourcesWellFormed_add.
  - destruct (onended_run source w) as (w' & Hrun & _ & Hs & _ & _ & Hcr).
    rewrite Hrun. cbn. rewrite Hs, Hcr. now apply sourcesWellFormed_delete.
Qed.

(** X23. Over any run of playback events the active set holds distinct
    sources, each created before. *)
Theorem active_sources_stay_distinct (env : Env) (render : AppState)
    (events : list PlaybackEvent) (w : World) :
  sourcesWellFormed w ->
  sourcesWellFormed (world_after (playback env render events) w).
Proof.
  revert w. induction events as [|e events IH]; intros w H; [exact H|].
  pose proof (playbackStep_wellFormed env render e w H) as H1.
  specialize (IH _ H1). unfold playback, world_after in *. cbn [forEach].
  destruct (playbackStep_total env render e w) as (w1 & c1 & Hrun1).
  rewrite (bind_run _ _ _ _ _ _ Hrun1). rewrite Hrun1 in IH. cbn in IH.
  destruct (forEach (playbackStep env render) events w1) as [[c2 w2] t2].
  exact IH.
Qed.

Lemma active_sources_stay_distinct_witness :
  sourcesWellFormed conversationStarted
  /\ sourcesWellFormed
       (world_after
          (playback reliable initialState
             [NpcAudio "AEAAgP9/" 0; NpcAudio "AA==" 0; NpcAudio "AEAAgP9/" 0])
          conversationStarted).
Proof.
  assert (H : sourcesWellFormed conversationStarted).
  { split; constructor. }
  split; [exact H|].
  apply (active_sources_stay_distinct reliable initialState
           [NpcAudio "AEAAgP9/" 0; NpcAudio "AA==" 0; NpcAudio "AEAAgP9/" 0]
           conversationStarted H).
Defined.

Lemma playback_app (env : Env) (render : AppState) (a b : list PlaybackEvent)
    (w : World) :
  world_after (playback env render (a ++ b)) w
  = world_after (playback env render b) (world_after (playback env render a) w).
Proof.
  revert w. induction a as [|e a IH]; intros w; [reflexivity|].
  unfold playback, world_after in *. cbn [app forEach].
  destruct (playbackStep_total env render e w) as (w1 & c1 & Hrun1).
  rewrite !(bind_run _ _ _ _ _ _ Hrun1). specialize (IH w1).
  destruct (forEach (playbackStep env render) (a ++ b) w1) as [[c2 w2] t2].
  destruct (forEach (playbackStep env render) a w1) as [[c3 w3] t3].
  cbn in *. exact IH.
Qed.

Lemma ended_sources (env : Env) (render : AppState) (ended : list SourceNode)
    (w : World) :
  audioSourcesRef (refs (world_after (playback env render (map Ended ended)) w))
  = List.filter (fun y => negb (existsb (fun x => same_node x y) ended))
      (audioSourcesRef (refs w)).
Proof.
  revert w. induction ended as [|x l IH]; intros w.
  - cbn. induction (audioSourcesRef (refs w)) as [|y r IHr]; cbn; congruence.
  - change (map Ended (x :: l)) with ([Ended x] ++ map Ended l).
    rewrite playback_app, IH.
    unfold playback at 1, world_after at 1. cbn [forEach playbackStep].
    destruct (onended_run x w) as (w1 & Hrun & _ & Hs & _).
    rewrite (bind_run _ _ _ _ _ _ Hrun). cbn. rewrite Hs. clear Hs Hrun.
    unfold set_delete. induction (audioSourcesRef (refs w)) as [|y r IHr];
      [reflexivity|].
    cbn. destruct (same_node x y); cbn; [exact IHr|].
    destruct (existsb _ l); cbn; [exact IHr | now rewrite IHr].
Qed.

(** X24. Once every active source has ended, the active set is empty and the
    speaking flag is down, whatever raised it. *)
Theorem last_ended_source_lowers_flag (env : Env) (render : AppState)
    (ended : list SourceNode) (w : World) :
  ended <> [] ->
  (forall s, In s (audioSourcesRef (refs w)) ->
             existsb (fun x => same_node x s) ended = true) ->
  audioSourcesRef
    (refs (world_after (playback env render (map Ended ended)) w)) = []
  /\ isNpcSpeaking
       (state (world_after (playback env render (map Ended ended)) w)) = false.
Proof.
  intros Hne Hcover.
  assert (Hempty : audioSourcesRef
            (refs (world_after (playback env render (map Ended ended)) w)) = []).
  { rewrite ended_sources.
    induction (audioSourcesRef (refs w)) as [|y r IHr]; [reflexivity|].
    cbn. rewrite (Hcover y) by (now left). cbn.
    apply IHr. intros s Hs. apply Hcover. now right. }
  split; [exact Hempty|].
  destruct ended as [|x l _] using rev_ind; [contradiction|].
  rewrite map_app, playback_app in Hempty |- *.
  set (w1 := world_after (playback env render (map Ended l)) w) in *.
  unfold playback, world_after in Hempty |- *. cbn [map forEach playbackStep] in *.
  destruct (onended_run x w1) as (w2 & Hrun & _ & Hs & Hflag & _).
  rewrite (bind_run _ _ _ _ _ _ Hrun) in Hempty |- *. cbn in *.
  rewrite Hflag. rewrite Hs in Hempty. now rewrite Hempty.
Qed.

Lemma last_ended_source_lowers_flag_witness :
  audioSourcesRef
    (refs (world_after
             (playback reliable initialState
                (map Ended
                   (audioSourcesRef
                      (refs (world_after
                               (playback reliable initialState
                                  [NpcAudio "AEAAgP9/" 0; NpcAudio "AA==" 0])
                               conversationStarted)))))
             (world_after
                (playback reliable initialState
                   [NpcAudio "AEAAgP9/" 0; NpcAudio "AA==" 0])
                conversationStarted))) = []
  /\ isNpcSpeaking
       (state (world_after
                 (playback reliable initialState
                    (map Ended
                       (audioSourcesRef
                          (refs (world_after
                                   (playback reliable initialState
                                      [NpcAudio "AEAAgP9/" 0; NpcAudio "AA==" 0])
                                   conversationStarted)))))
                 (world_after
                    (playback reliable initialState
                       [NpcAudio "AEAAgP9/" 0; NpcAudio "AA==" 0])
                    conversationStarted))) = false.
Proof.
  apply (last_ended_source_lowers_flag reliable initialState).
  - discriminate.
  - intros s [<-|[]]. reflexivity.
Defined.

(** X25. After a teardown [playAudioChunk] does nothing at all; audio that
    still arrives touches no ref and makes no call, but raises the speaking
    flag if the render of the callbacks had it down. *)
Theorem late_audio_after_teardown (env env' : Env) (render : AppState)
    (t : Q) (audioData : string) (w : World) :
  playAudioChunk env t audioData (world_after (cleanupAudioAndSession env') w)
  = (Normal tt, world_after (cleanupAudioAndSession env') w, [])
  /\ calls_of (App.onNpcAudio env render t audioData)
       (world_after (cleanupAudioAndSession env') w) = []
  /\ refs (world_after (App.onNpcAudio env render t audioData)
             (world_after (cleanupAudioAndSession env') w))
     = refs (world_after (cleanupAudioAndSession env') w)
  /\ isNpcSpeaking
       (state (world_after (App.onNpcAudio env render t audioData)
                 (world_after (cleanupAudioAndSession env') w)))
     = negb (isNpcSpeaking render).
Proof.
  unfold world_after, calls_of. rewrite (cleanup_run env' w). cbn.
  split; [reflexivity|].
  unfold App.onNpcAudio, detached, playAudioChunk.
  destruct (isNpcSpeaking render); cbn; repeat split.
Qed.

(** The exact duration of a chunk is in the normal range. *)
Lemma frames_last (n : nat) :
  n <> 0%nat -> pow2 (-1022) <= Z.of_nat n # 24000.
Proof.
  intros Hn. apply (Qle_trans _ (1 # 24000)); [vm_compute; discriminate|].
  unfold Qle. cbn. lia.
Qed.

Lemma clock_after_chunk (start exact : Q) :
  0 <= start -> is_binary64 start -> pow2 (-1022) <= exact ->
  start + exact - (start + exact) * pow2 (-51) <= binary64 (start + binary64 exact)
  /\ binary64 (start + binary64 exact) <= start + exact + (start + exact) * pow2 (-51).
Proof.
  intros Hstart Hdbl Hexact.
  pose proof (pow2_pos (-1022)) as P.
  destruct (binary64_error exact Hexact) as [D1 D2].
  set (u := pow2 (-53)) in *.
  assert (Hu : 0 < u) by apply pow2_pos.
  assert (Hu1 : u <= 1 # 2).
  { subst u. vm_compute. discriminate. }
  assert (H51 : pow2 (-51) == 4 * u).
  { subst u. vm_compute. reflexivity. }
  set (d := binary64 exact) in *.
  assert (Hd : is_binary64 d) by apply binary64_idempotent.
  assert (Hexu : 0 <= exact * u) by (apply Qmult_le_0_compat; lra).
  assert (Hexu1 : exact * u <= exact * (1 # 2)).
  { rewrite !(Qmult_comm exact). apply Qmult_le_compat_r; lra. }
  assert (Hd0 : 0 < d) by lra.
  destruct (binary64_sum_error start d Hdbl Hd ltac:(lra)) as [Z1 Z2].
  fold u in Z1, Z2.
  rewrite H51.
  assert (Hsu : 0 <= start * u) by (apply Qmult_le_0_compat; lra).
  assert (Hdu : d * u <= (exact + exact * u) * u).
  { apply Qmult_le_compat_r; lra. }
  assert (Hdu0 : 0 <= d * u) by (apply Qmult_le_0_compat; lra).
  assert (Hexuu : exact * u * u <= exact * u * (1 # 2)).
  { rewrite !(Qmult_comm (exact * u)). apply Qmult_le_compat_r; lra. }
  split; lra.
Qed.

(** X7. A chunk that decodes to [2n] bytes, arriving when [start] accepts
    the later of the playback clock and the device clock, is started once,
    as a new source, at that time, and lasts the double nearest to
    [n / 24000] seconds; the playback clock moves to the double nearest to
    the sum of the two, which is within [2^-51] (relatively) of the exact
    end [start + n / 24000]. *)
Theorem chunk_occupies_its_duration (env : Env) (t : Q) (audioData : string)
    (bytes : list Z) (w : World) :
  env (ContextResume Output) = false ->
  outputAudioContextRef (refs w) <> None ->
  decode audioData = Some bytes ->
  Nat.odd (length bytes) = false -> bytes <> [] ->
  is_binary64 (nextStartTimeRef (refs w)) -> is_binary64 t ->
  startable (max_time (nextStartTimeRef (refs w)) t) = true ->
  schedule (calls_of (playAudioChunk env t audioData) w)
  = [(max_time (nextStartTimeRef (refs w)) t,
      binary64 (Z.of_nat (length bytes / 2) # 24000))]
  /\ nextStartTimeRef (refs (world_after (playAudioChunk env t audioData) w))
     = binary64 (max_time (nextStartTimeRef (refs w)) t
                 + binary64 (Z.of_nat (length bytes / 2) # 24000))
  /\ nextStartTimeRef (refs w) <= max_time (nextStartTimeRef (refs w)) t
  /\ t <= max_time (nextStartTimeRef (refs w)) t
  /\ (max_time (nextStartTimeRef (refs w)) t
      + (Z.of_nat (length bytes / 2) # 24000))
     - (max_time (nextStartTimeRef (refs w)) t
        + (Z.of_nat (length bytes / 2) # 24000)) * pow2 (-51)
     <= nextStartTimeRef (refs (world_after (playAudioChunk env t audioData) w))
  /\ nextStartTimeRef (refs (world_after (playAudioChunk env t audioData) w))
     <= (max_time (nextStartTimeRef (refs w)) t
         + (Z.of_nat (length bytes / 2) # 24000))
        + (max_time (nextStartTimeRef (refs w)) t
           + (Z.of_nat (length bytes / 2) # 24000)) * pow2 (-51)
  /\ map token (started (calls_of (playAudioChunk env t audioData) w))
     = [created w].
Proof.
  intros Henv Hctx Hdec Heven Hbytes Hclock Hread Hok.
  assert (Hne : audioData <> ""%string).
  { intros ->. cbn in Hdec. injection Hdec as <-. contradiction. }
  pose proof (CodecFacts.decodeAudioData_mono bytes 24000 Heven Hbytes) as Hbuf.
  rewrite CodecFacts.Int16Array_length in Hbuf.
  assert (Hrun : schedule (calls_of (playAudioChunk env t audioData) w)
            = [(max_time (nextStartTimeRef (refs w)) t,
                binary64 (Z.of_nat (length bytes / 2) # 24000))]
          /\ nextStartTimeRef
               (refs (world_after (playAudioChunk env t audioData) w))
             = binary64 (max_time (nextStartTimeRef (refs w)) t
                         + binary64 (Z.of_nat (length bytes / 2) # 24000))
          /\ map token (started (calls_of (playAudioChunk env t audioData) w))
             = [created w]).
  { unfold calls_of, world_after, playAudioChunk.
    destruct w as [st [sv ls ic oc nst sp lst ms srcs] cr].
    unfold bind at 1. unfold get at 1. cbn [refs outputAudioContextRef] in *.
    destruct oc as [[d rate cs]|]; [|contradiction].
    destruct (String.eqb_spec audioData "") as [->|_]; [contradiction|].
    rewrite Hdec, Hbuf. cbn [nextStartTimeRef] in Hok.
    destruct cs; run_eff; rewrite ?Henv; cbn; rewrite Hok; cbn; repeat split. }
  destruct Hrun as (Hs & Hn & Htok).
  destruct (max_time_bounds (nextStartTimeRef (refs w)) t) as [Hb1 Hb2].
  do 4 (split; [assumption|]).
  assert (Hframes : (length bytes / 2 <> 0)%nat).
  { destruct bytes as [|b0 [|b1 rest]]; [contradiction | discriminate|].
    change (length (b0 :: b1 :: rest)) with (1 * 2 + length rest)%nat.
    rewrite Nat.div_add_l by lia. lia. }
  destruct (clock_after_chunk (max_time (nextStartTimeRef (refs w)) t)
              (Z.of_nat (length bytes / 2) # 24000)) as [Hlow Hhigh].
  - now apply startable_range.
  - now apply max_time_is_binary64.
  - now apply frames_last.
  - rewrite Hn. split; [exact Hlow|]. split; [exact Hhigh | exact Htok].
Qed.

Lemma chunk_occupies_its_duration_witness :
  reliable (ContextResume Output) = false
  /\ outputAudioContextRef (refs conversationStarted) <> None
  /\ decode "AEAAgP9/" = Some [0; 64; 0; 128; 255; 127]%Z
  /\ is_binary64 (1 # 2)
  /\ startable (max_time (nextStartTimeRef (refs conversationStarted)) (1 # 2))
     = true
  /\ nextStartTimeRef
       (refs (world_after (playAudioChunk reliable (1 # 2) "AEAAgP9/")
                conversationStarted))
     = binary64 (max_time (nextStartTimeRef (refs conversationStarted)) (1 # 2)
                 + binary64 (Z.of_nat (length [0; 64; 0; 128; 255; 127]%Z / 2)
                             # 24000)).
Proof.
  assert (Hread : is_binary64 (1 # 2)) by (vm_compute; reflexivity).
  assert (Hok : startable
                  (max_time (nextStartTimeRef (refs conversationStarted)) (1 # 2))
                = true) by (vm_compute; reflexivity).
  split; [reflexivity|]. split; [discriminate|]. split; [reflexivity|].
  split; [exact Hread|]. split; [exact Hok|].
  apply (chunk_occupies_its_duration reliable (1 # 2) "AEAAgP9/"
           [0; 64; 0; 128; 255; 127]%Z conversationStarted);
    [reflexivity | discriminate | reflexivity | reflexivity | discriminate
    | vm_compute; reflexivity | exact Hread | exact Hok].
Defined.
End PlaybackFacts.

(** ** The image side channel *)

Module ImageFacts.
Import Reconciler ReconcilerFacts ImageChannel.

Lemma after_prefix_app (p cs rest : list ascii) :
  after_prefix p cs = Some rest -> cs = p ++ rest.
Proof.
  revert cs. induction p as [|a p IH]; intros cs H.
  - cbn in H. now injection H as ->.
  - destruct cs as [|c cs]; [discriminate|]. cbn in H.
    destruct (Ascii.eqb_spec a c) as [->|_]; [|discriminate].
    cbn. f_equal. now apply IH.
Qed.

Lemma until_star_app (cs run after : list ascii) :
  until_star cs = Some (run, after) ->
  cs = run ++ star :: after /\ Forall plain run.
Proof.
  revert run. induction cs as [|c cs IH]; intros run H; [discriminate|].
  cbn in H. destruct (Ascii.eqb_spec c star) as [->|Hc].
  - injection H as <- <-. split; [reflexivity | constructor].
  - destruct (is_line_terminator c) eqn:Et; [discriminate|].
    destruct (until_star cs) as [[r a]|]; [|discriminate].
    injection H as <- <-. destruct (IH r eq_refl) as [-> Hr].
    split; [reflexivity|]. constructor; [now split | exact Hr].
Qed.

Lemma search_app (cs before group after : list ascii) :
  search cs = Some (before, group, after) ->
  cs = before ++ directive ++ group ++ star :: after /\ Forall plain group.
Proof.
  revert before. induction cs as [|c cs IH]; intros before H.
  - cbn in H. discriminate.
  - cbn [search] in H.
    destruct (match_here (c :: cs)) as [[g a]|] eqn:Em.
    + injection H as <- <- <-. unfold match_here in Em.
      destruct (after_prefix directive (c :: cs)) as [rest|] eqn:Ep;
        [|discriminate].
      apply after_prefix_app in Ep. apply until_star_app in Em as [-> Hg].
      split; [exact Ep | exact Hg].
    + destruct (search cs) as [[[b g] a]|]; [|discriminate].
      injection H as <- <- <-. destruct (IH b eq_refl) as [-> Hg].
      split; [reflexivity | exact Hg].
Qed.

Lemma length_of_string (s : string) :
  String.length s = length (String.list_ascii_of_string s).
Proof. induction s as [|c s IH]; cbn; [reflexivity | now rewrite IH]. Qed.

(** X26. When the text holds an image directive, the text is what precedes
    it, the directive with its prompt and closing star, and what follows;
    the prompt holds neither star nor line break, and removing the directive
    shortens the text by the prompt and 17 characters. Without a directive
    the text is left as it is. *)
Theorem image_directive_decomposes (text : string) :
  match matchImage text with
  | Some imagePrompt =>
      exists before after : list ascii,
        String.list_ascii_of_string text
        = before ++ directive ++ String.list_ascii_of_string imagePrompt
                 ++ star :: after
        /\ removeImage text = String.string_of_list_ascii (before ++ after)
        /\ Forall plain (String.list_ascii_of_string imagePrompt)
        /\ String.length text
           = (String.length (removeImage text) + String.length imagePrompt + 17)%nat
  | None => removeImage text = text
  end.
Proof.
  unfold matchImage, removeImage.
  destruct (search (String.list_ascii_of_string text)) as [[[b g] a]|] eqn:E;
    [|reflexivity].
  apply search_app in E as [E Hg]. exists b, a.
  rewrite String.list_ascii_of_string_of_list_ascii.
  split; [exact E|]. split; [reflexivity|]. split; [exact Hg|].
  rewrite !length_of_string, E, !String.list_ascii_of_string_of_list_ascii.
  rewrite !length_app. cbn. rewrite ?length_app. cbn. lia.
Qed.

(** X27. The two image updaters keep the length of the transcript, the
    speakers and the final marks, touch no entry but the one at their index
    (the second keeps even its text), and do nothing when the index is past
    the end. *)
Theorem image_updates_are_positional (i : nat) (url : option string)
    (prev : list Transcript) :
  length (markLoading i prev) = length prev
  /\ length (attachImage i url prev) = length prev
  /\ map speaker (markLoading i prev) = map speaker prev
  /\ map isFinal (markLoading i prev) = map isFinal prev
  /\ map speaker (attachImage i url prev) = map speaker prev
  /\ map isFinal (attachImage i url prev) = map isFinal prev
  /\ map text (attachImage i url prev) = map text prev
  /\ (forall j : nat, j <> i ->
        markLoading i prev !! j = prev !! j
        /\ attachImage i url prev !! j = prev !! j)
  /\ ((length prev <= i)%nat ->
      markLoading i prev = prev /\ attachImage i url prev = prev).
Proof.
  unfold markLoading, attachImage.
  destruct (prev !! i) as [e|] eqn:Ei.
  - assert (Hcol : forall {A} (f : Transcript -> A) (e' : Transcript),
               f e' = f e -> map f (<[i := e']> prev) = map f prev).
    { intros A f e' He. apply list_eq. intros j.
      rewrite !CodecFacts.lookup_map. destruct (decide (j = i)) as [->|Hj].
      - rewrite list_lookup_insert_eq by (now apply lookup_lt_Some in Ei).
        rewrite Ei. cbn. now rewrite He.
      - now rewrite list_lookup_insert_ne by congruence. }
    rewrite !length_insert. repeat split; try (apply Hcol; reflexivity).
    + now rewrite list_lookup_insert_ne by congruence.
    + now rewrite list_lookup_insert_ne by congruence.
    + apply lookup_lt_Some in Ei. lia.
    + apply lookup_lt_Some in Ei. lia.
  - repeat split.
Qed.

Lemma image_updates_are_positional_witness :
  (length [mkTranscript npc "Voici" false None] <= 3)%nat
  /\ attachImage 3 (Some "data:image/jpeg;base64,AAAA"%string)
       [mkTranscript npc "Voici" false None]
     = [mkTranscript npc "Voici" false None].
Proof.
  split; [cbn; lia|].
  apply (image_updates_are_positional 3
           (Some "data:image/jpeg;base64,AAAA"%string)
           [mkTranscript npc "Voici" false None]).
  cbn. lia.
Defined.

Lemma imageRequest_inv (t : list Transcript) (i : nat) (p : string) :
  imageRequest t = Some (i, p) ->
  exists (older : list Transcript) (e : Transcript),
    t = older ++ [e] /\ i = length older /\ speaker e = npc
    /\ imageUrl e = None /\ matchImage (text e) = Some p.
Proof.
  unfold imageRequest. destruct (last t) as [e|] eqn:El; [|discriminate].
  apply last_Some in El as [older ->].
  destruct (speaker e) eqn:Es; [discriminate|].
  destruct (imageUrl e) eqn:Eu; [discriminate|].
  destruct (matchImage (text e)) as [q|] eqn:Em; [|discriminate].
  intros [= <- <-]. exists older, e. rewrite length_app. cbn.
  repeat split; auto. lia.
Qed.

Lemma insert_last (older : list Transcript) (e e' : Transcript) :
  <[length older := e']> (older ++ [e]) = older ++ [e'].
Proof.
  replace (length older) with (length older + 0)%nat by lia.
  now rewrite insert_app_r.
Qed.

Lemma lookup_last (older : list Transcript) (e : Transcript) :
  (older ++ [e]) !! length older = Some e.
Proof. rewrite lookup_app_r by lia. now rewrite Nat.sub_diag. Qed.

Lemma imageRequest_with_image (older : list Transcript) (e : Transcript) :
  imageUrl e <> None -> imageRequest (older ++ [e]) = None.
Proof.
  intros H. unfold imageRequest. rewrite last_snoc.
  destruct (speaker e); [reflexivity|].
  destruct (imageUrl e); [reflexivity | contradiction].
Qed.

(** X28. An image is requested for the last entry only, and once: as soon as
    the entry is marked as loading no request is made for it again, before
    or after the answer; the answer leaves a non-empty reference, the URL or
    ["error"]. *)
Theorem image_requested_once (t : list Transcript) (i : nat) (p : string)
    (url : option string) :
  imageRequest t = Some (i, p) ->
  S i = length t
  /\ imageRequest (markLoading i t) = None
  /\ imageRequest (attachImage i url (markLoading i t)) = None
  /\ imageUrl <$> (markLoading i t !! i) = Some (Some "loading"%string)
  /\ imageUrl <$> (attachImage i url (markLoading i t) !! i)
     = Some (Some (urlOrError url))
  /\ urlOrError url <> ""%string.
Proof.
  intros H. apply imageRequest_inv in H as (older & e & -> & -> & Hs & Hu & Hm).
  unfold markLoading, attachImage.
  rewrite lookup_last, insert_last, lookup_last, insert_last, !lookup_last.
  split; [rewrite length_app; cbn; lia|].
  split; [now apply imageRequest_with_image|].
  split; [now apply imageRequest_with_image|].
  split; [reflexivity|]. split; [reflexivity|].
  unfold urlOrError. destruct url as [u|]; [|discriminate].
  destruct (String.eqb_spec u ""); [discriminate | assumption].
Qed.

Lemma image_requested_once_witness :
  imageRequest [mkTranscript user "Le menu ?" true None;
                mkTranscript npc "Voici *shows image of the menu* !" false None]
  = Some (1%nat, "the menu"%string)
  /\ markLoading 1
       [mkTranscript user "Le menu ?" true None;
        mkTranscript npc "Voici *shows image of the menu* !" false None] !! 1%nat
     = Some (mkTranscript npc "Voici  !" false (Some "loading"%string))
  /\ imageRequest
       (markLoading 1
          [mkTranscript user "Le menu ?" true None;
           mkTranscript npc "Voici *shows image of the menu* !" false None])
     = None.
Proof.
  split; [reflexivity|]. split; [reflexivity|].
  apply (image_requested_once
           [mkTranscript user "Le menu ?" true None;
            mkTranscript npc "Voici *shows image of the menu* !" false None]
           1 "the menu" None).
  reflexivity.
Defined.

(** X29. While the entry of the NPC stays open, further fragments grow the
    text that was left after the first directive and can never cause a
    second request, whatever directives they hold. *)
Theorem one_image_per_bubble (t : list Transcript) (i : nat) (p : string)
    (e g : Transcript) :
  imageRequest t = Some (i, p) ->
  last t = Some e -> isFinal e = false ->
  speaker g = npc ->
  imageRequest (onTranscriptUpdate g (markLoading i t)) = None
  /\ length (onTranscriptUpdate g (markLoading i t)) = length t
  /\ text <$> last (onTranscriptUpdate g (markLoading i t))
     = Some (trim (removeImage (text e)) +:+ text g).
Proof.
  intros H Hl Hf Hg.
  apply imageRequest_inv in H as (older & e' & -> & -> & Hs & Hu & Hm).
  rewrite last_snoc in Hl. injection Hl as ->.
  unfold markLoading. rewrite lookup_last, insert_last.
  rewrite onTranscriptUpdate_grow; [|cbn; congruence | exact Hf].
  split; [now apply imageRequest_with_image|].
  split; [now rewrite !length_app|].
  now rewrite last_snoc.
Qed.

Lemma one_image_per_bubble_witness :
  imageRequest [mkTranscript npc "*shows image of a map*" false None]
  = Some (0%nat, "a map"%string)
  /\ imageRequest
       (onTranscriptUpdate
          (mkTranscript npc " et *shows image of a bus*" false None)
          (markLoading 0 [mkTranscript npc "*shows image of a map*" false None]))
     = None.
Proof.
  split; [reflexivity|].
  apply (one_image_per_bubble
           [mkTranscript npc "*shows image of a map*" false None] 0 "a map"
           (mkTranscript npc "*shows image of a map*" false None)
           (mkTranscript npc " et *shows image of a bus*" false None));
    reflexivity.
Defined.
End ImageFacts.
